(** * Bounded-concurrency task pools of Minori-ty/utils

    A shallow embedding of the repository's task pools and runners, and of
    its event emitter:

    - [AsyncTaskPool]: the class with [add] / [runNext] / [checkIfDone] /
      [awaitAll] (second [AsyncTaskPool] of src/PriorityEventEmitter.ts);
    - [AsyncTaskPoolLoop]: the class with [addTask] / [runTasks] /
      [checkAllCompleted] / [waitForAll] (first [AsyncTaskPool] of the same
      file);
    - [RequestPool]: src/unnamed/part_000;
    - [RunConcurrently]: src/RunConcurrently.ts;
    - [TaskExecutor]: [executeTasks] / [retryFailedTasks] of
      src/unnamed/part_001;
    - [RetryWrapper]: [retryWrapper] of src/unnamed/part_001;
    - [ParalleTask]: [paralleTask] of src/src/utils/并发任务.ts;
    - [TaskStats]: [isAllSuccess] / [getTaskStats] of src/unnamed/part_001;
    - [PriorityEventEmitter]: the class of src/PriorityEventEmitter.ts.

    JavaScript runs these objects on one thread.  A synchronous stretch of
    code (a method call, or a promise callback up to its next [await]) is one
    atomic step of the model; the moments at which task promises settle and
    the order in which ready callbacks of different tasks run are chosen by
    the environment, so every model is a transition system driven by a list
    of events, and a statement about all lists of events is a statement
    about all interleavings.

    What the models take from the types of the source: a task is a
    [() => Promise<T>], so calling it returns a promise, which later settles
    with an [outcome]; it does not throw before returning its promise and
    does not call back into the pool while it is being called.  Counters
    and limits are JS numbers holding integers, modelled in [Z]. *)

From Stdlib Require Import ZArith List Lia String Bool Sorted.
From stdpp Require Import base numbers list gmap strings.
Import ListNotations.

Set Default Proof Using "Type".

(** ** Values shared by all models *)

(** What a JavaScript [throw] or a promise rejection can carry: an [Error]
    instance (by its message), or any other value (by its [String(..)]). *)
Inductive thrown : Type :=
  | ErrorObject (message : string)
  | OtherValue (text : string).

(** [err instanceof Error ? err : new Error(String(err))] *)
Definition toError (err : thrown) : thrown :=
  match err with
  | ErrorObject m => ErrorObject m
  | OtherValue s => ErrorObject s
  end.

(** How the promise returned by a task call settles. *)
Inductive outcome (T : Type) : Type :=
  | Fulfilled (value : T)
  | Rejected (reason : thrown).
Arguments Fulfilled {T} value.
Arguments Rejected {T} reason.

(** Result of a synchronous call that may throw. *)
Inductive completion (A : Type) : Type :=
  | Normal (a : A)
  | Throw (e : thrown).
Arguments Normal {A} a.
Arguments Throw {A} e.

(** A task closure, by object identity. *)
Definition Task := nat.

(** Number of elements of a table that satisfy a test, as a JS counter. *)
Fixpoint count {A : Type} (f : A → bool) (l : list A) : Z :=
  match l with
  | [] => 0
  | x :: l' => (if f x then 1 else 0) + count f l'
  end.

(** ** AsyncTaskPool (add / runNext / checkIfDone / awaitAll) *)

Module AsyncTaskPool.
Section WithT.
Context {T : Type}.

(** The fields of the class.  [pendingResolvers] holds closures
    [() => resolve(this.results)]; each is named by the number of the
    [awaitAll] call that created it. *)
Record pool : Type := Pool {
  concurrency : Z;
  runningCount : Z;
  taskQueue : list Task;
  results : list T;
  finished : bool;
  pendingResolvers : list nat;
}.

(** [constructor(concurrency = 3)]: no validation of the argument. *)
Definition new (concurrency : Z) : pool := Pool concurrency 0 [] [] false [].

Definition closedError : thrown :=
  ErrorObject "任务池已关闭，不能再添加任务".

(** The [while] loop of [runNext]: shift the head and call it as long as
    [runningCount < concurrency] and the queue is not empty.  Returns the
    new counter, the remaining queue and the tasks called, in call order. *)
Fixpoint runNext_loop (limit running : Z) (queue : list Task)
  : Z * list Task * list Task :=
  match queue with
  | [] => (running, [], [])
  | task :: rest =>
      if (running <? limit)%Z then
        let '(r, q, started) := runNext_loop limit (running + 1) rest in
        (r, q, task :: started)
      else (running, queue, [])
  end.

Definition runNext (p : pool) : pool * list Task :=
  let '(r, q, started) :=
    runNext_loop (concurrency p) (runningCount p) (taskQueue p) in
  (Pool (concurrency p) r q (results p) (finished p) (pendingResolvers p),
   started).

(** [add(task)] *)
Definition add (task : Task) (p : pool) : completion (pool * list Task) :=
  if finished p then Throw closedError
  else
    Normal (runNext (Pool (concurrency p) (runningCount p)
                          (taskQueue p ++ [task]) (results p) (finished p)
                          (pendingResolvers p))).

(** [checkIfDone()]: returns the resolvers it has called. *)
Definition checkIfDone (p : pool) : pool * list nat :=
  if (runningCount p =? 0)%Z && (length (taskQueue p) =? 0)%nat then
    (Pool (concurrency p) (runningCount p) (taskQueue p) (results p) true [],
     pendingResolvers p)
  else (p, []).

(** [awaitAll()], for the call numbered [k]: [Some results] when the
    returned promise is resolved at once, [None] when a resolver is left in
    [pendingResolvers]. *)
Definition awaitAll (k : nat) (p : pool) : pool * option (list T) :=
  if finished p then (p, Some (results p))
  else
    (Pool (concurrency p) (runningCount p) (taskQueue p) (results p)
          (finished p) (pendingResolvers p ++ [k]),
     None).

(** The three callbacks chained on [task()] in [runNext]. *)
Definition onFulfilled (res : T) (p : pool) : pool :=
  Pool (concurrency p) (runningCount p) (taskQueue p) (results p ++ [res])
       (finished p) (pendingResolvers p).

Definition onRejected (task : Task) (p : pool) : pool :=
  Pool (concurrency p) (runningCount p) (taskQueue p ++ [task]) (results p)
       (finished p) (pendingResolvers p).

Definition onFinally (p : pool) : pool * list Task * list nat :=
  let p1 := Pool (concurrency p) (runningCount p - 1) (taskQueue p)
                 (results p) (finished p) (pendingResolvers p) in
  let '(p2, started) := runNext p1 in
  let '(p3, fired) := checkIfDone p2 in
  (p3, started, fired).

(** *** The pool in its environment *)

(** Where the promise chain [task().then(..).catch(..).finally(..)] of one
    call stands: the task's promise is pending; the [then] or the [catch]
    callback has run and [finally] has not; [finally] has run. *)
Inductive stage : Type := Pending | Settled | Done.

Definition live (c : Task * stage) : bool :=
  match c.2 with Done => false | _ => true end.

(** The pool object, the promise chains created so far (in the order of the
    [task()] calls), the promises handed out by [awaitAll] that are resolved
    (with the array they were resolved with), and three logs kept for the
    statements only: tasks accepted by [add], tasks pushed on [taskQueue]
    (by [add] or by the [catch] callback), and results with their task. *)
Record world : Type := World {
  this : pool;
  chains : list (Task * stage);
  awaited : nat;
  resolved : list (nat * list T);
  accepted : list Task;
  enqueued : list Task;
  completed : list (Task * T);
}.

Definition init (concurrency : Z) : world :=
  World (new concurrency) [] 0 [] [] [] [].

Inductive event : Type :=
  | Add (task : Task)               (* a caller runs [pool.add(task)] *)
  | AwaitAll                        (* a caller runs [pool.awaitAll()] *)
  | Settle (c : nat) (o : outcome T)(* chain [c]: then/catch callback runs *)
  | Finally (c : nat).              (* chain [c]: finally callback runs *)

Definition spawn (started : list Task) : list (Task * stage) :=
  (λ t, (t, Pending)) <$> started.

Definition fire (fired : list nat) (res : list T) : list (nat * list T) :=
  (λ k, (k, res)) <$> fired.

Definition step (e : event) (w : world) : world :=
  match e with
  | Add task =>
      match add task (this w) with
      | Throw _ => w
      | Normal (p, started) =>
          World p (chains w ++ spawn started) (awaited w) (resolved w)
                (accepted w ++ [task]) (enqueued w ++ [task]) (completed w)
      end
  | AwaitAll =>
      let '(p, r) := awaitAll (awaited w) (this w) in
      World p (chains w) (S (awaited w))
            (resolved w ++ match r with
                           | Some res => [(awaited w, res)]
                           | None => []
                           end)
            (accepted w) (enqueued w) (completed w)
  | Settle c o =>
      match chains w !! c with
      | Some (task, Pending) =>
          match o with
          | Fulfilled res =>
              World (onFulfilled res (this w))
                    (<[c:=(task, Settled)]> (chains w)) (awaited w)
                    (resolved w) (accepted w) (enqueued w)
                    (completed w ++ [(task, res)])
          | Rejected _ =>
              World (onRejected task (this w))
                    (<[c:=(task, Settled)]> (chains w)) (awaited w)
                    (resolved w) (accepted w) (enqueued w ++ [task])
                    (completed w)
          end
      | _ => w
      end
  | Finally c =>
      match chains w !! c with
      | Some (task, Settled) =>
          let '(p, started, fired) := onFinally (this w) in
          World p (<[c:=(task, Done)]> (chains w) ++ spawn started)
                (awaited w) (resolved w ++ fire fired (results p))
                (accepted w) (enqueued w) (completed w)
      | _ => w
      end
  end.

Definition run (evs : list event) (w : world) : world :=
  fold_left (λ w e, step e w) evs w.

Inductive reachable (limit : Z) : world → Prop :=
  | reachable_init : reachable limit (init limit)
  | reachable_step e w : reachable limit w → reachable limit (step e w).

Definition drained (p : pool) : Prop :=
  runningCount p = 0%Z ∧ taskQueue p = [].

(** A task that fails every time: one round of [catch] and [finally] per
    attempt. *)
Definition failing (errs : nat → thrown) (n : nat) : list event :=
  flat_map (λ c, [Settle c (Rejected (errs c)); Finally c]) (seq 0 n).

(** Tasks whose promise is still pending, in call order. *)
Fixpoint pendingTasks (cs : list (Task * stage)) : list Task :=
  match cs with
  | [] => []
  | (t, Pending) :: cs' => t :: pendingTasks cs'
  | _ :: cs' => pendingTasks cs'
  end.

(** The invariant of the reachable states. *)
Record inv (limit : Z) (w : world) : Prop := Inv {
  inv_limit : concurrency (this w) = limit;
  inv_count : runningCount (this w) = count live (chains w);
  inv_bound : (runningCount (this w) ≤ Z.max 0 limit)%Z;
  inv_finished :
    finished (this w) = true →
    drained (this w) ∧ pendingResolvers (this w) = [];
  inv_resolved : resolved w ≠ [] → finished (this w) = true;
  inv_drained :
    drained (this w) → chains w ≠ [] → finished (this w) = true;
  inv_fifo : enqueued w = (chains w).*1 ++ taskQueue (this w);
  inv_accounting :
    accepted w
    ≡ₚ (completed w).*1 ++ taskQueue (this w) ++ pendingTasks (chains w);
  inv_results : results (this w) = (completed w).*2;
  inv_waiters :
    (resolved w).*1 ++ pendingResolvers (this w) ≡ₚ seq 0 (awaited w);
  inv_snapshots : ∀ k r, (k, r) ∈ resolved w → r = results (this w);
  inv_started : finished (this w) = true → chains w ≠ [];
}.

End WithT.
Arguments pool T : clear implicits.
Arguments world T : clear implicits.
Arguments event T : clear implicits.
End AsyncTaskPool.

(** ** AsyncTaskPool (addTask / runTasks / checkAllCompleted / waitForAll) *)

Module AsyncTaskPoolLoop.
Section WithT.
Context {T : Type}.

(** The fields of the class.  [completionPromise] is [None] while pending
    and [Some results] once [resolveCompletion(results)] was called. *)
Record pool : Type := Pool {
  maxConcurrency : Z;
  waitingTasks : list Task;
  runningTasks : Z;
  results : list T;
  allCompleted : bool;
  completionPromise : option (list T);
}.

Definition invalidError : thrown := ErrorObject "最大并发数必须至少为1".
Definition completedError : thrown :=
  ErrorObject "所有任务已完成，无法添加新任务".

(** [constructor(maxConcurrency = 3)] *)
Definition new (maxConcurrency : Z) : completion pool :=
  if (maxConcurrency <? 1)%Z then Throw invalidError
  else Normal (Pool maxConcurrency [] 0 [] false None).

(** [runTasks()] from the test of its [while] loop up to [await task()]:
    either it takes the head task, counts it and calls it (and waits), or
    the loop ends and it returns. *)
Definition runTasks (p : pool) : pool * option Task :=
  match waitingTasks p with
  | task :: rest =>
      if (runningTasks p <? maxConcurrency p)%Z then
        (Pool (maxConcurrency p) rest (runningTasks p + 1) (results p)
              (allCompleted p) (completionPromise p),
         Some task)
      else (p, None)
  | [] => (p, None)
  end.

(** [checkAllCompleted()]; resolving a resolved promise does nothing. *)
Definition checkAllCompleted (p : pool) : pool :=
  if (runningTasks p =? 0)%Z && (length (waitingTasks p) =? 0)%nat
     && negb (allCompleted p)
  then
    Pool (maxConcurrency p) (waitingTasks p) (runningTasks p) (results p)
         true
         (match completionPromise p with
          | None => Some (results p)
          | Some r => Some r
          end)
  else p.

(** [runTasks()] from the settlement of [await task()] to its next
    [await] or its return: [try]/[catch], [finally], and the loop again. *)
Definition resume (task : Task) (o : outcome T) (p : pool)
  : pool * option Task :=
  let p1 :=
    match o with
    | Fulfilled result =>
        Pool (maxConcurrency p) (waitingTasks p) (runningTasks p)
             (results p ++ [result]) (allCompleted p) (completionPromise p)
    | Rejected _ =>
        Pool (maxConcurrency p) (waitingTasks p ++ [task]) (runningTasks p)
             (results p) (allCompleted p) (completionPromise p)
    end in
  let p2 :=
    Pool (maxConcurrency p1) (waitingTasks p1) (runningTasks p1 - 1)
         (results p1) (allCompleted p1) (completionPromise p1) in
  runTasks (checkAllCompleted p2).

(** [addTask(task)] *)
Definition addTask (task : Task) (p : pool) : completion (pool * option Task) :=
  if allCompleted p then Throw completedError
  else
    Normal (runTasks (Pool (maxConcurrency p) (waitingTasks p ++ [task])
                           (runningTasks p) (results p) (allCompleted p)
                           (completionPromise p))).

(** [waitForAll()]: the state of the promise it returns. *)
Definition waitForAll (p : pool) : option (list T) := completionPromise p.

(** *** The pool in its environment *)

(** [calls]: every [task()] call so far, in call order, with [true] while
    its promise is pending. *)
Record world : Type := World {
  this : pool;
  calls : list (Task * bool);
}.

Definition isPending (c : Task * bool) : bool := c.2.

Definition spawn (started : option Task) : list (Task * bool) :=
  match started with
  | Some task => [(task, true)]
  | None => []
  end.

Inductive event : Type :=
  | AddTask (task : Task)    (* a caller runs [pool.addTask(task)] *)
  | Settle (c : nat) (o : outcome T).
      (* the promise of call [c] settles and its [runTasks] resumes *)

Definition step (e : event) (w : world) : world :=
  match e with
  | AddTask task =>
      match addTask task (this w) with
      | Throw _ => w
      | Normal (p, started) => World p (calls w ++ spawn started)
      end
  | Settle c o =>
      match calls w !! c with
      | Some (task, true) =>
          let '(p, started) := resume task o (this w) in
          World p (<[c:=(task, false)]> (calls w) ++ spawn started)
      | _ => w
      end
  end.

Definition run (evs : list event) (w : world) : world :=
  fold_left (λ w e, step e w) evs w.

(** States reachable from a pool built by the constructor. *)
Inductive reachable (limit : Z) : world → Prop :=
  | reachable_init p : new limit = Normal p → reachable limit (World p [])
  | reachable_step e w : reachable limit w → reachable limit (step e w).

Definition drained (p : pool) : Prop :=
  runningTasks p = 0%Z ∧ waitingTasks p = [].

(** The invariant of the reachable states. *)
Record inv (limit : Z) (w : world) : Prop := Inv {
  inv_limit : maxConcurrency (this w) = limit ∧ (1 ≤ limit)%Z;
  inv_count : runningTasks (this w) = count isPending (calls w);
  inv_bound : (runningTasks (this w) ≤ limit)%Z;
  inv_completed : allCompleted (this w) = true → drained (this w);
  inv_promise :
    completionPromise (this w)
    = if allCompleted (this w) then Some (results (this w)) else None;
  inv_drained :
    drained (this w) → calls w ≠ [] → allCompleted (this w) = true;
  inv_started : allCompleted (this w) = true → calls w ≠ [];
}.

End WithT.
Arguments pool T : clear implicits.
Arguments world T : clear implicits.
Arguments event T : clear implicits.
End AsyncTaskPoolLoop.

(** ** RequestPool (src/unnamed/part_000) *)

Module RequestPool.
Section WithT.
Context {T : Type}.

(** The fields of the class.  [requestQueue] holds the [task] closures that
    [add] builds; each captures its [taskId], the request and the
    [resolve]/[reject] of the promise that [add] returned, and is named by
    its [taskId]. *)
Record pool : Type := Pool {
  maxConcurrent : Z;
  activeCount : Z;
  requestQueue : list nat;
  taskCounter : nat;
}.

(** [constructor(maxConcurrent = 3)] *)
Definition new (maxConcurrent : Z) : pool := Pool maxConcurrent 0 [] 0.

(** [add(request)], up to the first [await] of the closure: the new
    [taskId], and whether the closure was called at once (it then has
    incremented [activeCount] and called the request) or queued. *)
Definition add (p : pool) : pool * nat * bool :=
  let taskId := S (taskCounter p) in
  if (activeCount p <? maxConcurrent p)%Z then
    (Pool (maxConcurrent p) (activeCount p + 1) (requestQueue p) taskId,
     taskId, true)
  else
    (Pool (maxConcurrent p) (activeCount p) (requestQueue p ++ [taskId])
          taskId,
     taskId, false).

(** [runNext()]: calls the head closure, which increments [activeCount]
    and calls its request. *)
Definition runNext (p : pool) : pool * option nat :=
  match requestQueue p with
  | nextTask :: rest =>
      if (activeCount p <? maxConcurrent p)%Z then
        (Pool (maxConcurrent p) (activeCount p + 1) rest (taskCounter p),
         Some nextTask)
      else (p, None)
  | [] => (p, None)
  end.

(** The [finally] block of a closure. *)
Definition onFinally (p : pool) : pool * option nat :=
  runNext (Pool (maxConcurrent p) (activeCount p - 1) (requestQueue p)
                (taskCounter p)).

(** *** The pool in its environment *)

(** What has become of the closure and the promise of one [add] call. *)
Inductive status : Type :=
  | Queued                          (* closure waits in [requestQueue] *)
  | Active                          (* request called, its promise pending *)
  | Resolved (result : T)           (* [resolve(result)] was called *)
  | RejectedWith (error : thrown).  (* [reject(error)] was called *)

Definition isActive (s : status) : bool :=
  match s with Active => true | _ => false end.

(** [tasks]: the status of every [add] call; task ids start at 1, so the
    entry of [taskId] is at position [taskId - 1]. *)
Record world : Type := World {
  this : pool;
  tasks : list status;
}.

Definition init (maxConcurrent : Z) : world := World (new maxConcurrent) [].

Definition statusOf (taskId : nat) (tasks : list status) : option status :=
  match taskId with
  | O => None
  | S k => tasks !! k
  end.

Definition setStatus (taskId : nat) (s : status) (tasks : list status)
  : list status :=
  match taskId with
  | O => tasks
  | S k => <[k:=s]> tasks
  end.

Definition activate (next : option nat) (tasks : list status) : list status :=
  match next with
  | Some taskId => setStatus taskId Active tasks
  | None => tasks
  end.

Definition settled (o : outcome T) : status :=
  match o with
  | Fulfilled result => Resolved result
  | Rejected error => RejectedWith error
  end.

Inductive event : Type :=
  | Add                                 (* a caller runs [pool.add(request)] *)
  | Settle (taskId : nat) (o : outcome T).
      (* the request of [taskId] settles and its closure resumes:
         resolve or reject, then the [finally] block *)

Definition step (e : event) (w : world) : world :=
  match e with
  | Add =>
      let '(p, _, called) := add (this w) in
      World p (tasks w ++ [if called then Active else Queued])
  | Settle taskId o =>
      match statusOf taskId (tasks w) with
      | Some Active =>
          let '(p, next) := onFinally (this w) in
          World p (activate next (setStatus taskId (settled o) (tasks w)))
      | _ => w
      end
  end.

Definition run (evs : list event) (w : world) : world :=
  fold_left (λ w e, step e w) evs w.

Inductive reachable (limit : Z) : world → Prop :=
  | reachable_init : reachable limit (init limit)
  | reachable_step e w : reachable limit w → reachable limit (step e w).

(** The invariant of the reachable states. *)
Record inv (limit : Z) (w : world) : Prop := Inv {
  inv_limit : maxConcurrent (this w) = limit;
  inv_count : activeCount (this w) = count isActive (tasks w);
  inv_bound : (activeCount (this w) ≤ Z.max 0 limit)%Z;
  inv_counter : taskCounter (this w) = length (tasks w);
  inv_queued :
    ∀ taskId, taskId ∈ requestQueue (this w) →
              statusOf taskId (tasks w) = Some Queued;
  inv_nodup : NoDup (requestQueue (this w));
}.

End WithT.
Arguments pool : clear implicits.
Arguments world T : clear implicits.
Arguments event T : clear implicits.
Arguments status T : clear implicits.
End RequestPool.

(** ** Choices of the environment *)

(** The environment picks one of the entries of a list that are ready: any
    number [k] is a valid choice, taken modulo the number of entries. *)
Definition pick {A : Type} (k : nat) (ready : list A) : option A :=
  ready !! (k `mod` length ready).

(** ** runConcurrently (src/RunConcurrently.ts) *)

Module RunConcurrently.
Section WithT.
Context {T : Type}.

Record TaskResult : Type := mkTaskResult {
  success : bool;
  data : option T;
  error : option thrown;
}.

(** The two object literals stored by [runTask]. *)
Definition stored (o : outcome T) : TaskResult :=
  match o with
  | Fulfilled result => mkTaskResult true (Some result) None
  | Rejected err => mkTaskResult false None (Some (toError err))
  end.

(** [results[index] = x] on a JS array: in range it overwrites the slot,
    out of range it extends the array, leaving holes ([None]) between. *)
Definition assign (index : nat) (x : TaskResult)
    (results : list (option TaskResult)) : list (option TaskResult) :=
  if index <? length results then <[index:=Some x]> results
  else results ++ replicate (index - length results) None ++ [Some x].

(** One call of [next] in [initialTasks], followed through its recursive
    calls: it awaits [runTask(index)] whose task promise is pending; or
    [runTask] has stored its result and returned, and [next] has not yet
    resumed; or it has returned. *)
Inductive worker : Type :=
  | Awaiting (index : nat)
  | Resuming
  | Returned.

Definition isReturned (w : worker) : bool :=
  match w with Returned => true | _ => false end.

(** The variables of one call of [runConcurrently], the workers, and the
    log of the indices whose task was called. *)
Record state : Type := State {
  results : list (option TaskResult);
  taskIndex : nat;
  workers : list worker;
  called : list nat;
}.

Section Call.
(** [tasks]: at position [i], how the promise returned by [tasks[i]()]
    settles. *)
Variable tasks : list (outcome T).

(** Calling [tasks[index]]; calling [undefined] throws inside the [try]. *)
Definition callTask (index : nat) : outcome T :=
  match tasks !! index with
  | Some o => o
  | None => Rejected (ErrorObject "task is not a function")
  end.

(** [next()] up to its first [await]: takes the next index, and either
    returns or calls [runTask], which calls the task. *)
Definition next (st : state) : state * worker :=
  let currentIndex := taskIndex st in
  if length tasks <=? currentIndex then
    (State (results st) (S currentIndex) (workers st) (called st), Returned)
  else
    (State (results st) (S currentIndex) (workers st)
           (called st ++ [currentIndex]),
     Awaiting currentIndex).

(** [Array.from({ length }, () => next())] *)
Fixpoint launch (len : nat) (st : state) : state :=
  match len with
  | O => st
  | S len' =>
      let '(st', w) := next st in
      launch len'
        (State (results st') (taskIndex st') (workers st' ++ [w]) (called st'))
  end.

(** Positions of the workers that have not returned. *)
Fixpoint unfinished (pos : nat) (ws : list worker) : list nat :=
  match ws with
  | [] => []
  | w :: ws' =>
      if isReturned w then unfinished (S pos) ws'
      else pos :: unfinished (S pos) ws'
  end.

(** The worker at position [pos] takes its next step: the continuation of
    [runTask] after [await task()], or the continuation of [next] after
    [await runTask(currentIndex)]. *)
Definition advance (pos : nat) (st : state) : state :=
  match workers st !! pos with
  | Some (Awaiting index) =>
      State (assign index (stored (callTask index)) (results st))
            (taskIndex st) (<[pos:=Resuming]> (workers st)) (called st)
  | Some Resuming =>
      let '(st', w) := next st in
      State (results st') (taskIndex st') (<[pos:=w]> (workers st'))
            (called st')
  | _ => st
  end.

(** One choice of the environment: which unfinished worker goes on. *)
Definition step (k : nat) (st : state) : state :=
  match pick k (unfinished 0 (workers st)) with
  | Some pos => advance pos st
  | None => st
  end.

Definition run (schedule : list nat) (st : state) : state :=
  fold_left (λ st k, step k st) schedule st.

Definition invalidError : thrown :=
  ErrorObject "maxConcurrent must be greater than 0".

(** The state after the synchronous part of the call. *)
Definition start (maxConcurrent : Z) : state :=
  launch (Z.to_nat (Z.min maxConcurrent (Z.of_nat (length tasks))))
         (State [] 0 [] []).

(** [runConcurrently(tasks, maxConcurrent)] under a schedule: [None] while
    the returned promise is pending at the end of the schedule, [Throw]
    when it is rejected, [Normal] with the array it is resolved with. *)
Definition runConcurrently (maxConcurrent : Z) (schedule : list nat)
  : option (completion (list (option TaskResult))) :=
  if (maxConcurrent <? 1)%Z then Some (Throw invalidError)
  else
    let st := run schedule (start maxConcurrent) in
    if forallb isReturned (workers st) then Some (Normal (results st))
    else None.

(** What is left to do, counted in steps of the workers, and the invariant
    of the states of one call. *)
Definition isAwaiting (w : worker) : bool :=
  match w with Awaiting _ => true | _ => false end.
Definition isResuming (w : worker) : bool :=
  match w with Resuming => true | _ => false end.

Definition measure (st : state) : Z :=
  2 * (Z.of_nat (length tasks) - Z.of_nat (taskIndex st `min` length tasks))
  + 2 * count isAwaiting (workers st) + count isResuming (workers st).

Record inv (st : state) : Prop := Inv {
  inv_called : called st = seq 0 (taskIndex st `min` length tasks);
  inv_started :
    ∀ i, i < taskIndex st `min` length tasks →
         (∃ pos, workers st !! pos = Some (Awaiting i))
         ∨ results st !! i = Some (Some (stored (callTask i)));
  inv_length : length (results st) ≤ length tasks;
  inv_awaiting :
    ∀ pos i, workers st !! pos = Some (Awaiting i) → i < length tasks;
  inv_progress :
    taskIndex st < length tasks →
    ∃ pos w, workers st !! pos = Some w ∧ isReturned w = false;
}.


End Call.
End WithT.
Arguments TaskResult T : clear implicits.
Arguments state T : clear implicits.
End RunConcurrently.

(** ** executeTasks / retryFailedTasks (src/unnamed/part_001) *)

Module TaskExecutor.

(** A JS [Map]: entries in insertion order; [set] on a key that is present
    replaces its value in place. *)
Section JsMap.
Context {K V : Type} `{EqDecision K}.

Fixpoint Map_set (key : K) (value : V) (m : list (K * V)) : list (K * V) :=
  match m with
  | [] => [(key, value)]
  | (k, v) :: m' =>
      if decide (key = k) then (key, value) :: m'
      else (k, v) :: Map_set key value m'
  end.

Fixpoint Map_get (key : K) (m : list (K * V)) : option V :=
  match m with
  | [] => None
  | (k, v) :: m' => if decide (key = k) then Some v else Map_get key m'
  end.

(** [new Map(entries)] *)
Definition Map_new (entries : list (K * V)) : list (K * V) :=
  fold_left (λ m kv, Map_set kv.1 kv.2 m) entries [].

End JsMap.

Section WithT.
Context {T : Type}.

Record TaskResult : Type := mkTaskResult {
  success : bool;
  index : nat;
  result : option T;
  error : option thrown;
}.

Record TaskExecutorState : Type := mkState {
  successResults : list (nat * T);
  failedTasks : list (nat * Task);
}.

Definition createTaskState : TaskExecutorState := mkState [] [].

(** [taskIndices.get(task) ?? currentIndex] *)
Definition originalIndex (taskIndices : list (Task * nat)) (task : Task)
    (currentIndex : nat) : nat :=
  match Map_get task taskIndices with
  | Some i => i
  | None => currentIndex
  end.

(** The callback of [tasks.map] after [await task()]: what it does to the
    shared state, and the record it returns. *)
Definition onSettled (task : Task) (originalIndex : nat) (o : outcome T)
    (state : TaskExecutorState) : TaskExecutorState :=
  match o with
  | Fulfilled res =>
      mkState (Map_set originalIndex res (successResults state))
              (failedTasks state)
  | Rejected _ =>
      mkState (successResults state)
              (Map_set originalIndex task (failedTasks state))
  end.

Definition returned (originalIndex : nat) (o : outcome T) : TaskResult :=
  match o with
  | Fulfilled res => mkTaskResult true originalIndex (Some res) None
  | Rejected err => mkTaskResult false originalIndex None (Some (toError err))
  end.

(** The callbacks resume one by one, in an order chosen by the environment
    among the positions that are still pending.  [calls]: for each position
    the task and its original index.  Returns the state and the positions
    left pending when the choices are used up. *)
Fixpoint settleAll (calls : list (Task * nat)) (behaviour : nat → outcome T)
    (order : list nat) (pending : list nat) (state : TaskExecutorState)
  : TaskExecutorState * list nat :=
  match order with
  | [] => (state, pending)
  | k :: order' =>
      match pick k pending with
      | Some pos =>
          let state' :=
            match calls !! pos with
            | Some (task, orig) => onSettled task orig (behaviour pos) state
            | None => state
            end in
          settleAll calls behaviour order'
                    (delete (k `mod` length pending) pending) state'
      | None => (state, pending)
      end
  end.

(** [executeTasks(tasks, state, taskIndices)]; [behaviour pos] is how the
    promise of the call [tasks[pos]()] settles.  [None]: [Promise.all] is
    still pending when the choices are used up. *)
Definition executeTasks (tasks : list Task) (behaviour : nat → outcome T)
    (order : list nat) (state : TaskExecutorState)
    (taskIndices : list (Task * nat))
  : option (list TaskResult * TaskExecutorState) :=
  let calls :=
    imap (λ currentIndex task,
            (task, originalIndex taskIndices task currentIndex)) tasks in
  match settleAll calls behaviour order (seq 0 (length tasks)) state with
  | (state', []) =>
      Some (imap (λ pos call, returned call.2 (behaviour pos)) calls, state')
  | _ => None
  end.

(** [runTasks(tasks)] *)
Definition runTasks (tasks : list Task) (behaviour : nat → outcome T)
    (order : list nat) : option (list TaskResult * TaskExecutorState) :=
  executeTasks tasks behaviour order createTaskState [].

(** [retryFailedTasks(state)] *)
Definition retryFailedTasks (state : TaskExecutorState)
    (behaviour : nat → outcome T) (order : list nat)
  : option (list TaskResult * TaskExecutorState) :=
  let failedTasksArray := failedTasks state in
  let taskIndices :=
    Map_new ((λ entry : nat * Task, (entry.2, entry.1)) <$> failedTasksArray) in
  executeTasks (snd <$> failedTasksArray) behaviour order
               (mkState (successResults state) []) taskIndices.

(** What the callback of position [pos] has left in the state. *)
Definition settledAs (calls : list (Task * nat)) (behaviour : nat → outcome T)
    (st st' : TaskExecutorState) (pos : nat) : Prop :=
  ∀ task orig, calls !! pos = Some (task, orig) →
    match behaviour pos with
    | Fulfilled v =>
        Map_get orig (successResults st') = Some v
        ∧ Map_get orig (failedTasks st') = Map_get orig (failedTasks st)
    | Rejected _ =>
        Map_get orig (failedTasks st') = Some task
        ∧ Map_get orig (successResults st') = Map_get orig (successResults st)
    end.

Definition untouched (st st' : TaskExecutorState) (k : nat) : Prop :=
  Map_get k (successResults st') = Map_get k (successResults st)
  ∧ Map_get k (failedTasks st') = Map_get k (failedTasks st).

Definition keysNoDup (st : TaskExecutorState) : Prop :=
  NoDup (successResults st).*1 ∧ NoDup (failedTasks st).*1.

End WithT.
Arguments TaskResult T : clear implicits.
Arguments TaskExecutorState T : clear implicits.
End TaskExecutor.

(** ** retryWrapper (src/unnamed/part_001) *)

Module RetryWrapper.
Section WithT.
Context {T : Type}.

Definition maxRetries : nat := 3.
Definition delay : Z := 1000.

(** How the promise returned by [retryWrapper] settles: resolved with the
    value of [fn()]; resolved with [undefined] (the loop ended); rejected. *)
Inductive settlement : Type :=
  | ResolvedWith (value : T)
  | ResolvedUndefined
  | RejectedBy (error : thrown).

(** What a run did: calls of [fn], timer delays awaited, settlement. *)
Record report : Type := Report {
  calls : nat;
  waited : list Z;
  settles : settlement;
}.

(** The [while] loop; [fn k] is how the [k]-th call of [fn] (from 0)
    settles.  [fuel] bounds the number of iterations. *)
Fixpoint loop (fuel : nat) (fn : nat → outcome T) (retries calls : nat)
    (waited : list Z) : option report :=
  match fuel with
  | O => None
  | S fuel' =>
      if retries <? maxRetries then
        match fn calls with
        | Fulfilled value => Some (Report (S calls) waited (ResolvedWith value))
        | Rejected error =>
            let retries := S retries in
            if retries <? maxRetries then
              loop fuel' fn retries (S calls) (waited ++ [delay])
            else Some (Report (S calls) waited (RejectedBy error))
        end
      else Some (Report calls waited ResolvedUndefined)
  end.

Definition retryWrapper (fn : nat → outcome T) : option report :=
  loop (S maxRetries) fn 0 0 [].

End WithT.
Arguments report T : clear implicits.
Arguments settlement T : clear implicits.
End RetryWrapper.

(** ** paralleTask (src/src/utils/并发任务.ts) *)

Module ParalleTask.

(** The variables of one call, the promise it returned, the indices of
    the tasks called so far (in call order) and of those whose promise is
    pending. *)
Record state : Type := State {
  nextIndex : nat;
  finishCount : nat;
  resolved : option string;
  called : list nat;
  inflight : list nat;
}.

(** [_run()]: takes [tasks[nextIndex]] and calls it. *)
Definition _run (st : state) : state :=
  State (S (nextIndex st)) (finishCount st) (resolved st)
        (called st ++ [nextIndex st]) (inflight st ++ [nextIndex st]).

(** The [for] loop:
    [for (let i = 0; i < parallelCount && i < tasks.length; i++) _run()];
    it makes at most [tasks.length] turns. *)
Fixpoint launch (fuel : nat) (parallelCount : Z) (tasksLength : nat) (i : nat)
    (st : state) : state :=
  match fuel with
  | O => st
  | S fuel' =>
      if (Z.of_nat i <? parallelCount)%Z && (i <? tasksLength) then
        launch fuel' parallelCount tasksLength (S i) (_run st)
      else st
  end.

(** [paralleTask(tasks, parallelCount)] up to its return. *)
Definition paralleTask (tasksLength : nat) (parallelCount : Z) : state :=
  if tasksLength =? 0 then State 0 0 (Some "当前任务队列为空"%string) [] []
  else launch tasksLength parallelCount tasksLength 0 (State 0 0 None [] []).

(** The [then] callback of a task that fulfilled.  A promise is resolved
    once: a second [resolve] does nothing. *)
Definition onFulfilled (tasksLength : nat) (st : state) : state :=
  let st' := State (nextIndex st) (S (finishCount st)) (resolved st)
                   (called st) (inflight st) in
  if nextIndex st' <? tasksLength then _run st'
  else if finishCount st' =? tasksLength then
    State (nextIndex st') (finishCount st')
          (match resolved st' with
           | Some s => Some s
           | None => Some "所有任务都完成了"%string
           end)
          (called st') (inflight st')
  else st'.

(** The environment settles one pending task, chosen by [k]; a rejection
    triggers no callback at all. *)
Definition step (tasksLength : nat) (k : nat) (fulfilled : bool) (st : state)
  : state :=
  match pick k (inflight st) with
  | Some _ =>
      let st' := State (nextIndex st) (finishCount st) (resolved st)
                       (called st)
                       (delete (k `mod` length (inflight st))
                               (inflight st)) in
      if fulfilled then onFulfilled tasksLength st' else st'
  | None => st
  end.

Definition run (tasksLength : nat) (schedule : list (nat * bool)) (st : state)
  : state :=
  fold_left (λ st kb, step tasksLength kb.1 kb.2 st) schedule st.

(** The tasks were called in array order. *)
Definition ordered (st : state) : Prop := called st = seq 0 (nextIndex st).

End ParalleTask.

(** ** Example runs *)

Module Examples.
Import AsyncTaskPool.

(** Three submissions; the first task then fulfils. *)
Definition three_adds : list (event nat) :=
  [Add 1; Add 2; Add 3; Settle 0 (Fulfilled 7); Finally 0].

(** One task that fails three times in a row. *)
Definition rejects : nat → thrown := λ _, ErrorObject "failed".
Definition three_failures : list (event nat) := Add 0 :: failing rejects 3.

(** One task, which fulfils: the pool drains. *)
Definition one_cycle : list (event nat) :=
  [Add 1; Settle 0 (Fulfilled 5); Finally 0].

(** The same cycle on the class with [addTask]. *)
Definition one_cycle_loop : list (AsyncTaskPoolLoop.event nat) :=
  [AsyncTaskPoolLoop.AddTask 1; AsyncTaskPoolLoop.Settle 0 (Fulfilled 5)].

Definition fresh_loop : AsyncTaskPoolLoop.world nat :=
  AsyncTaskPoolLoop.World (AsyncTaskPoolLoop.Pool 2 [] 0 [] false None) [].

(** Three submissions on two slots, run until the pool has drained; the
    third task is called when the first has gone through [finally]. *)
Definition three_adds_done : list (event nat) :=
  three_adds
  ++ [Settle 1 (Fulfilled 8); Finally 1; Settle 2 (Fulfilled 9); Finally 2].

(** Three tasks for [runConcurrently]: the second one rejects with a
    value that is not an [Error]. *)
Definition mixed : list (outcome nat) :=
  [Fulfilled 10; Rejected (OtherValue "timeout"); Fulfilled 30].

(** The workers take turns: last, first, last, ... *)
Definition zigzag : list nat := [1; 0; 3; 2; 5; 4].

(** One request on a [RequestPool], which rejects. *)
Definition boom : thrown := ErrorObject "boom".
Definition one_rejection : list (RequestPool.event nat) :=
  [RequestPool.Add; RequestPool.Settle 1 (Rejected boom)].

(** Two requests on one slot: the second waits in the queue. *)
Definition two_requests : list (RequestPool.event nat) :=
  [RequestPool.Add; RequestPool.Add].

Import TaskExecutor.

(** The same closure submitted twice; both calls fail in the first round
    and fulfil (with 10 and 11) when retried. *)
Definition same_twice : list Task := [7; 7].
Definition first_round : nat → outcome nat :=
  λ _, Rejected (ErrorObject "fail").
Definition second_round : nat → outcome nat := λ pos, Fulfilled (10 + pos).
Definition in_order : list nat := [0; 0].

(** One submission; its task is running. *)
Definition one_running : list (event nat) := [Add 1].

End Examples.

(** ** PriorityEventEmitter (src/PriorityEventEmitter.ts) *)

Module PriorityEventEmitter.

(** A listener function, by object identity ([off] compares with [!==]). *)
Definition Listener := nat.

(** Priorities are JS numbers holding integers. *)
Record PriorityListener : Type := mkPriorityListener {
  listener : Listener;
  priority : Z;
}.

(** [(a, b) => b.priority - a.priority] *)
Definition byPriority (a b : PriorityListener) : Z := priority b - priority a.

(** [Array.prototype.sort(compare)] is a stable sort: [a] stays before [b]
    unless [compare a b > 0].  Written as an insertion sort that takes the
    elements from the last to the first. *)
Section Sort.
Context {A : Type} (compare : A → A → Z).

Fixpoint sort_insert (x : A) (l : list A) : list A :=
  match l with
  | [] => [x]
  | y :: l' =>
      if (compare x y <=? 0)%Z then x :: l else y :: sort_insert x l'
  end.

Definition sort (l : list A) : list A := foldr sort_insert [] l.

End Sort.

(** The class: its one field [listeners], a [Map] from event names to
    arrays. *)
Record emitter : Type := Emitter {
  listeners : gmap string (list PriorityListener);
}.

Definition new : emitter := Emitter ∅.

(** [on(event, listener, priority)] *)
Definition on (event : string) (l : Listener) (p : Z) (this : emitter)
  : emitter :=
  let m := match listeners this !! event with
           | None => <[event:=[]]> (listeners this)
           | Some _ => listeners this
           end in
  let eventListeners := default [] (m !! event) in
  Emitter
    (<[event:=sort byPriority (eventListeners ++ [mkPriorityListener l p])]> m).

(** [off(event, listener)] *)
Definition off (event : string) (l : Listener) (this : emitter) : emitter :=
  match listeners this !! event with
  | None => this
  | Some eventListeners =>
      let m :=
        <[event:=filter (λ pl, listener pl ≠ l) eventListeners]>
          (listeners this) in
      if (length (default [] (m !! event)) =? 0)%nat
      then Emitter (delete event m)
      else Emitter m
  end.

(** [removeAllListeners(event)] *)
Definition removeAllListeners (event : string) (this : emitter) : emitter :=
  Emitter (delete event (listeners this)).

(** What a call [listener(data, skipRemaining)] does, as far as [emit] can
    tell: it returns, having called [skipRemaining] or not, or it throws.
    A listener is a closure with a state of its own, so what it does may
    depend on the calls made before it: [react] takes the listeners that
    this [emit] has called so far.  Listeners do not call back into the
    emitter. *)
Inductive reaction : Type :=
  | Returns (skipped : bool)
  | Throws (e : thrown).

Section WithT.
Context {T : Type}.

(** The [for] loop of [emit]: the listeners called, in call order, and how
    the loop ended. *)
Fixpoint emit_loop (react : list Listener → Listener → T → reaction)
    (data : T) (eventListeners : list PriorityListener) (skip : bool)
    (log : list Listener) : list Listener * completion unit :=
  match eventListeners with
  | [] => (log, Normal ())
  | pl :: rest =>
      if skip then (log, Normal ())
      else
        match react log (listener pl) data with
        | Returns skipped =>
            emit_loop react data rest skipped (log ++ [listener pl])
        | Throws e => (log ++ [listener pl], Throw e)
        end
  end.

(** [emit(event, data)] *)
Definition emit (react : list Listener → Listener → T → reaction)
    (event : string) (data : T) (this : emitter)
  : list Listener * completion unit :=
  match listeners this !! event with
  | None => ([], Normal ())
  | Some eventListeners => emit_loop react data eventListeners false []
  end.

End WithT.

(** The calls that change an emitter. *)
Inductive call : Type :=
  | On (event : string) (l : Listener) (p : Z)
  | Off (event : string) (l : Listener)
  | RemoveAllListeners (event : string).

Definition step (c : call) (this : emitter) : emitter :=
  match c with
  | On event l p => on event l p this
  | Off event l => off event l this
  | RemoveAllListeners event => removeAllListeners event this
  end.

Definition run (cs : list call) (this : emitter) : emitter :=
  fold_left (λ this c, step c this) cs this.

(** The listeners of an event, [[]] for an event that is not a key. *)
Definition listenersOf (event : string) (this : emitter)
  : list PriorityListener :=
  default [] (listeners this !! event).

(** What every emitter built by these calls satisfies: each array is
    sorted by descending priority, and no key holds an empty array. *)
Definition descending (ls : list PriorityListener) : Prop :=
  StronglySorted (λ a b, (priority b ≤ priority a)%Z) ls.

Definition wellFormed (this : emitter) : Prop :=
  ∀ event ls, listeners this !! event = Some ls → ls ≠ [] ∧ descending ls.

End PriorityEventEmitter.

(** ** RequestPool: order of the calls *)

Module RequestPoolOrder.
Import RequestPool.
Section WithT.
Context {T : Type}.

(** The requests called so far are the first [started] ones added; the
    others wait in [requestQueue] in the order of their ids; and a request
    waits only while every slot is taken. *)
Record fifo (w : world T) (started : nat) : Prop := Fifo {
  fifo_started : started ≤ length (tasks w);
  fifo_queue :
    requestQueue (this w) = seq (S started) (length (tasks w) - started);
  fifo_status :
    ∀ taskId s, statusOf taskId (tasks w) = Some s →
                (s = Queued ↔ started < taskId);
  fifo_busy :
    requestQueue (this w) ≠ [] →
    (maxConcurrent (this w) ≤ activeCount (this w))%Z;
}.

Definition isSettled (s : status T) : bool :=
  match s with Resolved _ | RejectedWith _ => true | _ => false end.

End WithT.
End RequestPoolOrder.

(** ** paralleTask: the states of a call *)

Module ParalleTaskRuns.
Import ParalleTask.

(** Number of calls made by the [for] loop of [paralleTask]. *)
Definition initialCalls (tasksLength : nat) (parallelCount : Z) : nat :=
  Z.to_nat (Z.min (Z.max 0 parallelCount) (Z.of_nat tasksLength)).

(** What holds of the variables of a call at all times. *)
Record inv (tasksLength : nat) (parallelCount : Z) (st : state) : Prop := Inv {
  inv_accounted : finishCount st + length (inflight st) ≤ nextIndex st;
  inv_in_range : nextIndex st ≤ tasksLength;
  inv_in_flight :
    length (inflight st) ≤ initialCalls tasksLength parallelCount;
  inv_pending : resolved st = None ∨ inflight st = [];
}.

(** A task has rejected: its [then] callback will never run. *)
Definition blocked (tasksLength : nat) (st : state) : Prop :=
  finishCount st + length (inflight st) < nextIndex st
  ∧ nextIndex st ≤ tasksLength
  ∧ resolved st = None.

(** The state after [j] tasks have fulfilled and none has rejected. *)
Definition fulfilled (tasksLength : nat) (parallelCount : Z) (j : nat)
    (st : state) : Prop :=
  finishCount st = j
  ∧ nextIndex st
    = tasksLength `min` (initialCalls tasksLength parallelCount + j)
  ∧ length (inflight st) = nextIndex st - j
  ∧ resolved st
    = (if j <? tasksLength then None else Some "所有任务都完成了"%string)
  ∧ called st = seq 0 (nextIndex st).

End ParalleTaskRuns.

(** ** isAllSuccess / getTaskStats (src/unnamed/part_001) *)

Module TaskStats.
Import TaskExecutor.
Section WithT.
Context {T : Type}.

(** [isAllSuccess(state)] *)
Definition isAllSuccess (state : TaskExecutorState T) : bool :=
  length (failedTasks state) =? 0.

(** The object returned by [getTaskStats]. *)
Record stats : Type := mkStats {
  totalSuccess : nat;
  totalFailed : nat;
  statsSuccessResults : list (nat * T);
  statsFailedTasks : list (nat * Task);
}.

(** [getTaskStats(state)] *)
Definition getTaskStats (state : TaskExecutorState T) : stats :=
  mkStats (length (successResults state)) (length (failedTasks state))
          (Map_new (successResults state)) (Map_new (failedTasks state)).

Definition isFulfilled (o : outcome T) : bool :=
  match o with Fulfilled _ => true | Rejected _ => false end.

End WithT.
Arguments stats T : clear implicits.
End TaskStats.

(** ** Further example runs *)

Module FurtherExamples.
Import TaskExecutor.
(** Two distinct closures; the second fails in the first round and fulfils
    when retried. *)
Definition two_tasks : list Task := [4; 5].
Definition second_fails : nat → outcome nat :=
  λ pos, if pos =? 1 then Rejected (ErrorObject "fail")
         else Fulfilled (20 + pos).
Definition retry_fulfils : nat → outcome nat := λ pos, Fulfilled (30 + pos).
Definition swapped : list nat := [1; 0].

(** After the rejection of [one_rejection]: a second request, which
    fulfils. *)
Definition next_request : list (RequestPool.event nat) :=
  [RequestPool.Add; RequestPool.Settle 2 (Fulfilled 3)].

Import PriorityEventEmitter.

(** The listeners of the usage example of the emitter: the one of the
    highest priority calls [skipRemaining]. *)
Definition high : Listener := 0.
Definition medium : Listener := 1.
Definition low : Listener := 2.
Definition demo : list call :=
  [On "404" high 10; On "404" medium 5; On "404" low 1].
Definition demo_react : list Listener → Listener → string → reaction :=
  λ _ l _, Returns (l =? high).

(** The array of the event after the three registrations. *)
Definition demo_listeners : list PriorityListener :=
  [mkPriorityListener high 10; mkPriorityListener medium 5;
   mkPriorityListener low 1].

End FurtherExamples.

(** * Properties of the models *)

(** ** Counting *)

Lemma count_nonneg {A} (f : A → bool) l : (0 ≤ count f l)%Z.
Proof. induction l as [|x l IH]; simpl; [lia|]. destruct (f x); lia. Qed.

Lemma count_app {A} (f : A → bool) l1 l2 :
  count f (l1 ++ l2) = (count f l1 + count f l2)%Z.
Proof. induction l1 as [|x l1 IH]; simpl; [lia|]. rewrite IH. lia. Qed.

Lemma count_insert {A} (f : A → bool) (l : list A) i x y :
  l !! i = Some x →
  count f (<[i:=y]> l)
  = (count f l - (if f x then 1 else 0) + (if f y then 1 else 0))%Z.
Proof.
  revert i. induction l as [|a l IH]; intros [|i] H; simplify_eq/=.
  - lia.
  - rewrite (IH i H). lia.
Qed.

Lemma count_lookup_pos {A} (f : A → bool) (l : list A) i x :
  l !! i = Some x → f x = true → (1 ≤ count f l)%Z.
Proof.
  revert i. induction l as [|a l IH]; intros [|i] H Hx; simplify_eq/=.
  - rewrite Hx. pose proof (count_nonneg f l). lia.
  - pose proof (IH i H Hx). destruct (f a); lia.
Qed.

Lemma count_zero_all {A} (f : A → bool) (l : list A) :
  count f l = 0%Z → ∀ i x, l !! i = Some x → f x = false.
Proof.
  intros H i x Hi. destruct (f x) eqn:E; [|done].
  pose proof (count_lookup_pos f l i x Hi E). lia.
Qed.


(** ** AsyncTaskPool: invariants of the reachable states *)

Module AsyncTaskPoolFacts.
Import AsyncTaskPool.
Section WithT.
Context {T : Type}.
Implicit Types (p : pool T) (w : world T) (e : event T).

Lemma runNext_loop_spec limit running queue r q started :
  runNext_loop limit running queue = (r, q, started) →
  queue = started ++ q
  ∧ r = (running + Z.of_nat (length started))%Z
  ∧ (r ≤ Z.max running limit)%Z
  ∧ (q ≠ [] → limit ≤ r)%Z.
Proof.
  revert running r q started.
  induction queue as [|task rest IH]; intros running r q started; simpl.
  - intros [= <- <- <-]. simpl. repeat split; (lia || done).
  - destruct (Z.ltb_spec running limit) as [Hlt|Hge].
    + destruct (runNext_loop limit (running + 1) rest) as [[r' q'] st'] eqn:E.
      intros [= <- <- <-].
      destruct (IH _ _ _ _ E) as (-> & -> & Hmax & Hq).
      simpl. repeat split; first [lia | done | (intros; apply Hq; done)].
    + intros [= <- <- <-]. simpl.
      repeat split; first [lia | done | (intros; lia)].
Qed.

Lemma pendingTasks_app (cs1 cs2 : list (Task * stage)) :
  pendingTasks (cs1 ++ cs2) = pendingTasks cs1 ++ pendingTasks cs2.
Proof.
  induction cs1 as [|[t []] cs1 IH]; simpl; rewrite ?IH; done.
Qed.

Lemma pendingTasks_spawn started : pendingTasks (spawn started) = started.
Proof. induction started as [|t l IH]; csimpl; rewrite ?IH; done. Qed.

Lemma count_live_spawn started :
  count live (spawn started) = Z.of_nat (length started).
Proof.
  induction started as [|t l IH]; [done|].
  change (spawn (t :: l)) with ((t, Pending) :: spawn l).
  cbn [count]. rewrite IH. unfold live; simpl. lia.
Qed.

Lemma fst_spawn started : (spawn started).*1 = started.
Proof. induction started as [|t l IH]; csimpl; rewrite ?IH; done. Qed.

Lemma fst_insert_same (cs : list (Task * stage)) c t s s' :
  cs !! c = Some (t, s) → (<[c:=(t, s')]> cs).*1 = cs.*1.
Proof.
  revert c. induction cs as [|a cs IH]; intros [|c] H; simplify_eq/=; [done|].
  by rewrite (IH c H).
Qed.

Lemma pendingTasks_settle (cs : list (Task * stage)) c t :
  cs !! c = Some (t, Pending) →
  pendingTasks cs ≡ₚ t :: pendingTasks (<[c:=(t, Settled)]> cs).
Proof.
  revert c. induction cs as [|[a []] cs IH]; intros [|c] H; simplify_eq/=;
    try done; try (by apply (IH c)).
  rewrite (IH c H). apply Permutation_swap.
Qed.

Lemma pendingTasks_finally (cs : list (Task * stage)) c t :
  cs !! c = Some (t, Settled) →
  pendingTasks (<[c:=(t, Done)]> cs) = pendingTasks cs.
Proof.
  revert c. induction cs as [|[a []] cs IH]; intros [|c] H; simplify_eq/=;
    try done; by rewrite (IH c H).
Qed.

Lemma runNext_spec p p' started :
  runNext p = (p', started) →
  concurrency p' = concurrency p
  ∧ results p' = results p
  ∧ finished p' = finished p
  ∧ pendingResolvers p' = pendingResolvers p
  ∧ taskQueue p = started ++ taskQueue p'
  ∧ runningCount p' = (runningCount p + Z.of_nat (length started))%Z
  ∧ (runningCount p' ≤ Z.max (runningCount p) (concurrency p))%Z
  ∧ (taskQueue p' ≠ [] → concurrency p ≤ runningCount p')%Z.
Proof.
  unfold runNext.
  destruct (runNext_loop _ _ _) as [[r q] st] eqn:E.
  intros [= <- <-]. simpl.
  destruct (runNext_loop_spec _ _ _ _ _ _ E) as (? & ? & ? & ?).
  repeat split; done.
Qed.

Lemma checkIfDone_spec p p' fired :
  checkIfDone p = (p', fired) →
  concurrency p' = concurrency p
  ∧ results p' = results p
  ∧ taskQueue p' = taskQueue p
  ∧ runningCount p' = runningCount p
  ∧ ((drained p ∧ finished p' = true ∧ pendingResolvers p' = []
      ∧ fired = pendingResolvers p)
     ∨ (¬ drained p ∧ p' = p ∧ fired = [])).
Proof.
  unfold checkIfDone, drained.
  destruct (Z.eqb_spec (runningCount p) 0) as [Hr|Hr]; simpl.
  - destruct (taskQueue p) as [|t q] eqn:Hq; simpl.
    + intros [= <- <-]. simpl. repeat split; try done. left. done.
    + intros [= <- <-]. repeat split; try done. right.
      repeat split; try done. intros [_ ?]. done.
  - intros [= <- <-]. repeat split; try done. right.
    repeat split; try done. intros [? _]. done.
Qed.

Lemma inv_init limit : inv limit (init (T:=T) limit).
Proof.
  split; simpl; try done; try lia.
  intros k r H. by apply elem_of_nil in H.
Qed.

Lemma inv_step_add limit task w : inv limit w → inv limit (step (Add task) w).
Proof.
  intros I. unfold step, add.
  destruct (finished (this w)) eqn:Hf; [done|].
  destruct (runNext _) as [p' started] eqn:E.
  apply runNext_spec in E as (Hc & Hres & Hfin & Hpr & Hq & Hr & Hmax & _).
  simpl in *.
  destruct I as [Il Ic Ib If Ir Id Io Ia Irs Iw Is It].
  pose proof (count_nonneg live (chains w)).
  split; simpl.
  - congruence.
  - rewrite Hr, Ic, count_app, count_live_spawn. done.
  - lia.
  - rewrite Hfin. done.
  - intros H1. apply Ir in H1. congruence.
  - intros [Hr0 Hq0] _. rewrite Hq0, app_nil_r in Hq.
    destruct started; [by destruct (taskQueue (this w))|]. simpl in Hr. lia.
  - rewrite fmap_app, fst_spawn, Io, <- !app_assoc, Hq. done.
  - rewrite pendingTasks_app, pendingTasks_spawn, Ia.
    transitivity ((completed w).*1 ++ (taskQueue (this w) ++ [task])
                  ++ pendingTasks (chains w)).
    { solve_Permutation. }
    rewrite Hq. solve_Permutation.
  - congruence.
  - rewrite Hpr. done.
  - intros k r Hk. rewrite Hres. by eapply Is.
  - rewrite Hfin. done.
Qed.

Lemma inv_step_await limit w : inv limit w → inv limit (step AwaitAll w).
Proof.
  intros [Il Ic Ib If Ir Id Io Ia Irs Iw Is It]. unfold step, awaitAll.
  destruct (finished (this w)) eqn:Hf; split; simpl; try done.
  all: rewrite ?app_nil_r; try done.
  all: try (intros _; by apply If).
  all: try (change (0 :: seq 1 (awaited w)) with (seq 0 (S (awaited w)));
            rewrite ?fmap_app, seq_S; simpl; rewrite <- Iw; solve_Permutation).
  all: try (intros _; by apply It).
  intros k r [Hk|Hk%list_elem_of_singleton]%elem_of_app;
    [by eapply Is|congruence].
Qed.

Lemma inv_step_settle limit c o w :
  inv limit w → inv limit (step (Settle c o) w).
Proof.
  intros I. unfold step.
  destruct (chains w !! c) as [[task []]|] eqn:Hc; try done.
  destruct I as [Il Ic Ib If Ir Id Io Ia Irs Iw Is It].
  assert (Hpos : (1 ≤ runningCount (this w))%Z).
  { rewrite Ic. by apply (count_lookup_pos live _ c (task, Pending)). }
  assert (Hnf : finished (this w) = false).
  { destruct (finished (this w)); [|done].
    destruct If as [[? _] _]; [done|]. lia. }
  assert (Hnone : resolved w = []).
  { destruct (resolved w); [done|]. rewrite Ir in Hnf; done. }
  destruct o as [res|err]; split; simpl; try done.
  all: try (unfold drained; simpl; intros; lia).
  all: try (rewrite (count_insert _ _ _ _ _ Hc), <- Ic; unfold live; simpl;
            lia).
  all: try (rewrite Hnf; done).
  all: try (rewrite Hnone; intros k r Hk; by apply elem_of_nil in Hk).
  - rewrite (fst_insert_same _ _ _ _ _ Hc). done.
  - rewrite fmap_app, Ia, (pendingTasks_settle _ _ _ Hc). simpl.
    solve_Permutation.
  - rewrite fmap_app, Irs. done.
  - rewrite (fst_insert_same _ _ _ _ _ Hc), Io, app_assoc. done.
  - rewrite Ia, (pendingTasks_settle _ _ _ Hc). solve_Permutation.
Qed.

Lemma fst_fire fired (res : list T) : (fire fired res).*1 = fired.
Proof. induction fired as [|k l IH]; csimpl; rewrite ?IH; done. Qed.

Lemma elem_of_fire fired (res : list T) k r :
  (k, r) ∈ fire fired res → r = res.
Proof.
  unfold fire. intros (k' & [= _ ->] & _)%list_elem_of_fmap. done.
Qed.

Lemma inv_step_finally limit c w :
  inv limit w → inv limit (step (Finally c) w).
Proof.
  intros I. unfold step.
  destruct (chains w !! c) as [[task []]|] eqn:Hc; try done.
  destruct I as [Il Ic Ib If Ir Id Io Ia Irs Iw Is It].
  assert (Hpos : (1 ≤ runningCount (this w))%Z).
  { rewrite Ic. by apply (count_lookup_pos live _ c (task, Settled)). }
  assert (Hnf : finished (this w) = false).
  { destruct (finished (this w)); [|done].
    destruct If as [[? _] _]; [done|]. lia. }
  unfold onFinally.
  destruct (runNext _) as [p2 started] eqn:E2.
  destruct (checkIfDone p2) as [p3 fired] eqn:E3.
  apply runNext_spec in E2
    as (Hc2 & Hres2 & Hfin2 & Hpr2 & Hq2 & Hr2 & Hmax2 & _).
  apply checkIfDone_spec in E3 as (Hc3 & Hres3 & Hq3 & Hr3 & Hcase).
  simpl in *.
  split; simpl.
  - congruence.
  - rewrite Hr3, Hr2, count_app, count_live_spawn,
      (count_insert _ _ _ _ _ Hc), <- Ic.
    unfold live; simpl. lia.
  - lia.
  - destruct Hcase as [(Hd & Hf3 & Hp3 & _)|(_ & -> & _)].
    + intros _. split; [|done]. unfold drained in *. rewrite Hr3, Hq3. done.
    + rewrite Hfin2. intros; congruence.
  - destruct Hcase as [(Hd & Hf3 & Hp3 & _)|(_ & -> & ->)]; [done|].
    simpl. rewrite app_nil_r, Hfin2. intros H. apply Ir in H. congruence.
  - destruct Hcase as [(Hd & Hf3 & Hp3 & _)|(Hnd & -> & ->)]; [done|].
    intros Hd. done.
  - rewrite fmap_app, fst_spawn, (fst_insert_same _ _ _ _ _ Hc), Io, Hq2,
      Hq3, app_assoc.
    rewrite <- !app_assoc. done.
  - rewrite pendingTasks_app, pendingTasks_spawn,
      (pendingTasks_finally _ _ _ Hc), Ia, Hq2, Hq3.
    solve_Permutation.
  - congruence.
  - rewrite fmap_app, fst_fire, <- Iw, <- Hpr2.
    destruct Hcase as [(Hd & Hf3 & -> & ->)|(_ & -> & ->)];
      rewrite ?app_nil_r; done.
  - intros k r [Hk|Hk%elem_of_fire]%elem_of_app; [|done].
    rewrite Hres3, Hres2. by eapply Is.
  - intros _ Hnil%app_nil. destruct Hnil as [Hnil _].
    apply (f_equal length) in Hnil. rewrite length_insert in Hnil.
    apply lookup_lt_Some in Hc. simpl in Hnil. lia.
Qed.

Lemma inv_step limit e w : inv limit w → inv limit (step e w).
Proof.
  destruct e.
  - apply inv_step_add.
  - apply inv_step_await.
  - apply inv_step_settle.
  - apply inv_step_finally.
Qed.

Lemma reachable_inv limit w : reachable limit w → inv limit w.
Proof.
  induction 1 as [|e w _ IH]; [apply inv_init | by apply inv_step].
Qed.

Lemma reachable_run limit evs w :
  reachable limit w → reachable limit (run evs w).
Proof.
  revert w. induction evs as [|e evs IH]; intros w Hw; [done|].
  apply IH. by constructor.
Qed.

Lemma run_app (evs1 evs2 : list (event T)) w :
  run (evs1 ++ evs2) w = run evs2 (run evs1 w).
Proof. apply fold_left_app. Qed.

Lemma reachable_events limit (evs : list (event T)) :
  reachable limit (run evs (init limit)).
Proof. apply reachable_run. constructor. Qed.

(** Once [finished] is set nothing moves any more: [add] throws, no
    callback is left to run, and [awaitAll] only reads. *)
Lemma finished_step limit e w :
  inv limit w → finished (this w) = true →
  this (step e w) = this w ∧ chains (step e w) = chains w
  ∧ accepted (step e w) = accepted w.
Proof.
  intros I Hf. pose proof (inv_finished _ _ I Hf) as [[Hr _] _].
  pose proof (inv_count _ _ I) as Hc. rewrite Hr in Hc.
  destruct e as [task| |c o|c]; unfold step.
  - unfold add. rewrite Hf. done.
  - unfold awaitAll. rewrite Hf. done.
  - destruct (chains w !! c) as [[task []]|] eqn:E; try done.
    pose proof (count_lookup_pos live _ _ _ E eq_refl). lia.
  - destruct (chains w !! c) as [[task []]|] eqn:E; try done.
    pose proof (count_lookup_pos live _ _ _ E eq_refl). lia.
Qed.

Lemma finished_run limit evs w :
  inv limit w → finished (this w) = true →
  this (run evs w) = this w ∧ chains (run evs w) = chains w
  ∧ accepted (run evs w) = accepted w.
Proof.
  revert w. induction evs as [|e evs IH]; intros w I Hf; [done|].
  change (run (e :: evs) w) with (run evs (step e w)).
  destruct (finished_step _ e _ I Hf) as (Ht & Hc & Ha).
  destruct (IH (step e w)) as (Ht' & Hc' & Ha').
  - by apply inv_step.
  - by rewrite Ht.
  - rewrite Ht', Hc', Ha'. done.
Qed.

Lemma failing_S errs n :
  failing (T:=T) errs (S n)
  = failing errs n ++ [Settle n (Rejected (errs n)); Finally n].
Proof.
  unfold failing. rewrite seq_S, flat_map_app. simpl. done.
Qed.

Lemma runNext_one limit task (res : list T) fin pr :
  (1 ≤ limit)%Z →
  runNext (Pool limit 0 [task] res fin pr)
  = (Pool limit 1 [] res fin pr, [task]).
Proof.
  intros Hl. unfold runNext. simpl.
  destruct (Z.ltb_spec 0 limit); [done|lia].
Qed.

Lemma onFinally_one limit task :
  (1 ≤ limit)%Z →
  onFinally (Pool (T:=T) limit 1 [task] [] false [])
  = (Pool limit 1 [] [] false [], [task], []).
Proof.
  intros Hl. unfold onFinally. simpl.
  change (1 - 1)%Z with 0%Z. rewrite runNext_one by done.
  unfold checkIfDone. simpl. done.
Qed.

Lemma always_failing_run limit task errs n :
  (1 ≤ limit)%Z →
  run (Add task :: failing errs n) (init (T:=T) limit)
  = World (Pool limit 1 [] [] false [])
          (replicate n (task, Done) ++ [(task, Pending)]) 0 []
          [task] (replicate (S n) task) [].
Proof.
  intros Hl. induction n as [|n IH].
  - unfold failing, run, step, add, init, new. simpl.
    rewrite runNext_one by done. done.
  - rewrite failing_S, app_comm_cons, run_app, IH.
    assert (Hlook : ∀ s, (replicate n (task, Done) ++ [(task, s)]) !! n
                         = Some (task, s)).
    { intros s. rewrite lookup_app_r; rewrite length_replicate; [|done].
      by rewrite Nat.sub_diag. }
    assert (Hins : ∀ s s', <[n:=(task, s')]>
                             (replicate n (task, Done) ++ [(task, s)])
                           = replicate n (task, Done) ++ [(task, s')]).
    { intros s s'. rewrite insert_app_r_alt; rewrite length_replicate; [|done].
      by rewrite Nat.sub_diag. }
    unfold run. cbn [fold_left]. unfold step at 2. cbn [chains this].
    rewrite Hlook. cbn [onRejected]. rewrite Hins.
    unfold step, onRejected. cbn -[onFinally replicate].
    rewrite Hlook, onFinally_one by done. rewrite Hins.
    cbn -[replicate]. f_equal.
    + by rewrite replicate_S_end.
    + by rewrite (replicate_S_end (S n)).
Qed.

(** [runNext] calls as many tasks as there are free slots and queued
    tasks, whichever is smaller. *)
Lemma runNext_length (p p' : pool T) started :
  runNext p = (p', started) →
  Z.of_nat (length started)
  = Z.min (Z.max 0 (concurrency p - runningCount p))
          (Z.of_nat (length (taskQueue p))).
Proof.
  intros (_ & _ & _ & _ & Hq & Hr & Hmax & Hfull)%runNext_spec.
  rewrite Hq, length_app.
  destruct (taskQueue p') as [|t q]; simpl.
  - lia.
  - specialize (Hfull ltac:(done)). lia.
Qed.


End WithT.
End AsyncTaskPoolFacts.

(** ** RequestPool: invariants of the reachable states *)

Module RequestPoolFacts.
Import RequestPool.
Section WithT.
Context {T : Type}.
Implicit Types (p : pool) (w : world T) (e : event T).
Implicit Types (ts : list (status T)).

Lemma request_inv_init limit : inv limit (init (T:=T) limit).
Proof.
  split; simpl; try done; try lia.
  - intros ? H. by apply elem_of_nil in H.
  - constructor.
Qed.

Lemma statusOf_app taskId (ts : list (status T)) s st :
  statusOf taskId ts = Some st → statusOf taskId (ts ++ [s]) = Some st.
Proof.
  destruct taskId as [|k]; simpl; [done|].
  intros H. rewrite lookup_app_l; [done|]. by eapply lookup_lt_Some.
Qed.

Lemma request_inv_step_add limit w : inv limit w → inv limit (step Add w).
Proof.
  intros [Il Ic Ib In Iq Id]. unfold step, add.
  destruct (Z.ltb_spec (activeCount (this w)) (maxConcurrent (this w)));
    split; simpl; try done.
  all: rewrite ?count_app, ?length_app; simpl; try lia.
  - intros id Hid. by apply statusOf_app, Iq.
  - intros id [Hid| ->%list_elem_of_singleton]%elem_of_app.
    + by apply statusOf_app, Iq.
    + simpl. rewrite In, lookup_app_r, Nat.sub_diag; done.
  - apply NoDup_app. repeat split; [done| |apply NoDup_singleton].
    intros id Hid ->%list_elem_of_singleton.
    apply Iq in Hid. simpl in Hid. apply lookup_lt_Some in Hid. lia.
Qed.

Lemma request_inv_step_settle limit taskId o w :
  inv limit w → inv limit (step (Settle taskId o) w).
Proof.
  intros I. unfold step.
  destruct (statusOf taskId (tasks w)) as [[]|] eqn:Hs; try done.
  destruct I as [Il Ic Ib In Iq Id].
  destruct taskId as [|k]; [done|]. simpl in Hs.
  assert (Hpos : (1 ≤ activeCount (this w))%Z).
  { rewrite Ic. by apply (count_lookup_pos isActive _ k Active). }
  assert (Hset : count isActive (<[k:=settled o]> (tasks w))
                 = (activeCount (this w) - 1)%Z).
  { rewrite (count_insert _ _ _ _ _ Hs), <- Ic. destruct o; simpl; lia. }
  assert (Hq : ∀ id, id ∈ requestQueue (this w) →
               statusOf id (<[k:=settled o]> (tasks w)) = Some Queued).
  { intros [|j] Hj; pose proof (Iq _ Hj) as H; simpl in *; [done|].
    rewrite list_lookup_insert_ne; [done|]. intros ->. congruence. }
  unfold onFinally, runNext. simpl.
  destruct (requestQueue (this w)) as [|next rest] eqn:Hqueue; simpl.
  { split; simpl; rewrite ?length_insert, ?Hqueue; try done; try lia. }
  destruct (Z.ltb_spec (activeCount (this w) - 1) (maxConcurrent (this w)));
    simpl.
  - assert (Hnext : statusOf next (<[k:=settled o]> (tasks w)) = Some Queued).
    { apply Hq. left. }
    destruct next as [|n]; [done|]. simpl in Hnext.
    apply NoDup_cons in Id as [Hnotin Hnd].
    split; simpl; rewrite ?length_insert; try done; try lia.
    + rewrite (count_insert _ _ _ _ _ Hnext), Hset. simpl. lia.
    + intros [|j] Hj; [by specialize (Hq 0 ltac:(by right))|].
      pose proof (Hq (S j) ltac:(by right)) as H'. simpl in *.
      rewrite list_lookup_insert_ne; [done|]. intros ->. done.
  - split; simpl; rewrite ?length_insert, ?Hqueue; try done; try lia.
Qed.

Lemma request_inv_step limit e w : inv limit w → inv limit (step e w).
Proof.
  destruct e; [apply request_inv_step_add | apply request_inv_step_settle].
Qed.

Lemma request_reachable_inv limit w : reachable limit w → inv limit w.
Proof.
  induction 1 as [|e w _ IH];
    [apply request_inv_init | by apply request_inv_step].
Qed.

Lemma request_reachable_run limit (evs : list (event T)) w :
  reachable limit w → reachable limit (run evs w).
Proof.
  revert w. induction evs as [|e evs IH]; intros w Hw; [done|].
  apply IH. by constructor.
Qed.

Lemma request_reachable_events limit (evs : list (event T)) :
  reachable limit (run evs (init limit)).
Proof. apply request_reachable_run. constructor. Qed.
Lemma statusOf_setStatus_ne m taskId s ts :
  m ≠ taskId → statusOf m (setStatus taskId s ts) = statusOf m ts.
Proof.
  intros Hne. destruct m as [|m], taskId as [|k]; simpl; try done.
  apply list_lookup_insert_ne. congruence.
Qed.

Lemma statusOf_setStatus_eq taskId s s0 ts :
  statusOf taskId ts = Some s0 →
  statusOf taskId (setStatus taskId s ts) = Some s.
Proof.
  destruct taskId as [|k]; simpl; [done|]. intros H.
  apply list_lookup_insert_eq. by eapply lookup_lt_Some.
Qed.

Lemma statusOf_activate_ne m next ts :
  next ≠ Some m → statusOf m (activate next ts) = statusOf m ts.
Proof.
  destruct next as [n|]; simpl; [|done]. intros Hne.
  apply statusOf_setStatus_ne. congruence.
Qed.


End WithT.
End RequestPoolFacts.

(** ** Choices of the environment *)

Lemma pick_Some {A} (k : nat) (l : list A) :
  l ≠ [] → ∃ x, pick k l = Some x ∧ x ∈ l.
Proof.
  intros Hl. unfold pick.
  assert (Hlt : k `mod` length l < length l).
  { apply Nat.mod_upper_bound. by destruct l. }
  destruct (lookup_lt_is_Some_2 l _ Hlt) as [x Hx].
  exists x. split; [done|]. by eapply list_elem_of_lookup_2.
Qed.

Lemma pick_elem_of {A} (k : nat) (l : list A) x : pick k l = Some x → x ∈ l.
Proof. unfold pick. apply list_elem_of_lookup_2. Qed.

(** ** runConcurrently: every schedule completes *)

Module RunConcurrentlyFacts.
Import RunConcurrently.
Section WithT.
Context {T : Type}.
Implicit Types (st : state T) (ws : list worker).

Lemma elem_of_unfinished ws b pos :
  pos ∈ unfinished b ws ↔
  b ≤ pos ∧ ∃ w, ws !! (pos - b) = Some w ∧ isReturned w = false.
Proof.
  revert b. induction ws as [|w ws IH]; intros b; simpl.
  - rewrite elem_of_nil. split; [done|]. intros (_ & w & H & _). done.
  - assert (Hrec : pos ∈ unfinished (S b) ws ↔
                   S b ≤ pos ∧ ∃ w', (w :: ws) !! (pos - b) = Some w'
                                     ∧ isReturned w' = false).
    { rewrite IH. split.
      - intros (Hle & w' & Hw & Hr). split; [done|]. exists w'.
        replace (pos - b) with (S (pos - S b)) by lia. done.
      - intros (Hle & w' & Hw & Hr). split; [done|]. exists w'.
        replace (pos - b) with (S (pos - S b)) in Hw by lia. done. }
    destruct (isReturned w) eqn:Hw.
    + rewrite Hrec. split.
      * intros (? & ?). split; [lia|done].
      * intros (Hle & w' & Hw' & Hr). split; [|by exists w'].
        destruct (decide (pos = b)) as [->|]; [|lia].
        rewrite Nat.sub_diag in Hw'. simpl in Hw'. congruence.
    + rewrite elem_of_cons, Hrec. split.
      * intros [->|(? & ?)].
        -- split; [done|]. exists w. rewrite Nat.sub_diag. done.
        -- split; [lia|done].
      * intros (Hle & Hex). destruct (decide (pos = b)); [by left|right].
        split; [lia|done].
Qed.

Lemma assign_lookup_eq i x (l : list (option (TaskResult T))) :
  assign i x l !! i = Some (Some x).
Proof.
  unfold assign. destruct (Nat.ltb_spec i (length l)).
  - by apply list_lookup_insert_eq.
  - rewrite lookup_app_r by done.
    rewrite lookup_app_r; rewrite length_replicate; [|done].
    rewrite Nat.sub_diag. done.
Qed.

Lemma assign_lookup_ne i j x y (l : list (option (TaskResult T))) :
  i ≠ j → l !! j = Some y → assign i x l !! j = Some y.
Proof.
  intros Hne Hj. unfold assign. destruct (Nat.ltb_spec i (length l)).
  - by rewrite list_lookup_insert_ne.
  - rewrite lookup_app_l; [done|]. by eapply lookup_lt_Some.
Qed.

Lemma length_assign i x (l : list (option (TaskResult T))) :
  length (assign i x l) = length l `max` S i.
Proof.
  unfold assign. destruct (Nat.ltb_spec i (length l)).
  - rewrite length_insert. lia.
  - rewrite !length_app, length_replicate. simpl. lia.
Qed.

Section Call.
Variable tasks : list (outcome T).
Local Abbreviation n := (length tasks).

Lemma next_spec st st' w :
  next tasks st = (st', w) →
  results st' = results st ∧ workers st' = workers st
  ∧ taskIndex st' = S (taskIndex st)
  ∧ ((taskIndex st < n ∧ w = Awaiting (taskIndex st)
      ∧ called st' = called st ++ [taskIndex st])
     ∨ (n ≤ taskIndex st ∧ w = Returned ∧ called st' = called st)).
Proof.
  unfold next. destruct (Nat.leb_spec n (taskIndex st)); intros [= <- <-];
    simpl; repeat split; auto.
Qed.

Lemma launch_spec k st :
  taskIndex st + k ≤ n →
  launch tasks k st
  = State (results st) (taskIndex st + k)
          (workers st ++ (Awaiting <$> seq (taskIndex st) k))
          (called st ++ seq (taskIndex st) k).
Proof.
  revert st. induction k as [|k IH]; intros st Hk; simpl.
  - destruct st; simpl. rewrite Nat.add_0_r, !app_nil_r. done.
  - destruct (next tasks st) as [st' w] eqn:E.
    apply next_spec in E as (Hr & Hw & Hi & [(Hlt & -> & Hc)|(Hge & _)]);
      [|lia].
    rewrite IH; simpl; [|lia].
    rewrite Hr, Hw, Hi, Hc, <- !app_assoc. simpl. f_equal. lia.
Qed.

Lemma measure_nonneg st : (0 ≤ measure tasks st)%Z.
Proof.
  unfold measure. pose proof (count_nonneg isAwaiting (workers st)).
  pose proof (count_nonneg isResuming (workers st)). lia.
Qed.

Lemma count_awaiting_fmap l :
  count isAwaiting (Awaiting <$> l) = Z.of_nat (length l).
Proof.
  induction l as [|x l IH]; [done|].
  csimpl. cbn [count]. rewrite IH. simpl. lia.
Qed.

Lemma count_resuming_fmap l : count isResuming (Awaiting <$> l) = 0%Z.
Proof.
  induction l as [|x l IH]; [done|].
  csimpl. cbn [count]. rewrite IH. simpl. lia.
Qed.

Lemma start_inv maxConcurrent :
  (1 ≤ maxConcurrent)%Z →
  inv tasks (start tasks maxConcurrent)
  ∧ measure tasks (start tasks maxConcurrent) = (2 * Z.of_nat n)%Z.
Proof.
  intros Hmax. unfold start.
  set (k := Z.to_nat (Z.min maxConcurrent (Z.of_nat n))).
  assert (Hk : k ≤ n) by lia.
  rewrite launch_spec by (simpl; lia). simpl. split.
  - split; simpl.
    + f_equal. lia.
    + intros i Hi. left. exists i.
      rewrite list_lookup_fmap, lookup_seq_lt by lia. done.
    + lia.
    + intros pos i [j [[= ->] [-> Hj]%lookup_seq]]%list_lookup_fmap_Some. lia.
    + intros Hlt. exists 0, (Awaiting 0). split; [|done].
      rewrite list_lookup_fmap, lookup_seq_lt by lia. done.
  - unfold measure. simpl.
    rewrite count_awaiting_fmap, count_resuming_fmap, length_seq. lia.
Qed.

Lemma advance_inv pos w st :
  inv tasks st → workers st !! pos = Some w → isReturned w = false →
  inv tasks (advance tasks pos st)
  ∧ measure tasks (advance tasks pos st) = (measure tasks st - 1)%Z.
Proof.
  intros [Ic Is Il Ia Ip] Hpos Hw. unfold advance. rewrite Hpos.
  destruct w as [index| |]; [| |done].
  - (* the continuation of runTask stores its result *)
    pose proof (Ia _ _ Hpos) as Hidx.
    split; [split; simpl|].
    + done.
    + intros i Hi. destruct (decide (i = index)) as [->|Hne].
      { right. apply assign_lookup_eq. }
      destruct (Is i Hi) as [[pos' Hp']|Hr].
      * left. exists pos'. rewrite list_lookup_insert_ne; [done|].
        intros ->. congruence.
      * right. by apply assign_lookup_ne.
    + rewrite length_assign. lia.
    + intros pos' i Hp'. destruct (decide (pos = pos')) as [->|Hne].
      * rewrite list_lookup_insert_eq in Hp' by (by eapply lookup_lt_Some).
        done.
      * rewrite list_lookup_insert_ne in Hp' by done. by eapply Ia.
    + intros _. exists pos, Resuming.
      rewrite list_lookup_insert_eq by (by eapply lookup_lt_Some). done.
    + unfold measure. simpl.
      rewrite !(count_insert _ _ _ _ _ Hpos). simpl. lia.
  - (* next resumes and calls itself *)
    destruct (next tasks st) as [st' w'] eqn:E.
    apply next_spec in E as (Hr & Hws & Hi & Hcase).
    split; [split; simpl|].
    + rewrite Hi. destruct Hcase as [(Hlt & -> & ->)|(Hge & -> & ->)].
      * rewrite Ic.
        replace (S (taskIndex st) `min` n) with (S (taskIndex st `min` n))
          by lia.
        rewrite seq_S. simpl. do 2 f_equal. lia.
      * rewrite Ic. f_equal. lia.
    + rewrite Hi, Hr, Hws. intros i Hlt.
      destruct (decide (i = taskIndex st)) as [->|Hne].
      * left. exists pos. destruct Hcase as [(_ & -> & _)|(Hge & _)]; [|lia].
        rewrite list_lookup_insert_eq by (by eapply lookup_lt_Some). done.
      * destruct (Is i ltac:(lia)) as [[pos' Hp']|Hres]; [left|by right].
        exists pos'. rewrite list_lookup_insert_ne; [done|].
        intros ->. congruence.
    + by rewrite Hr.
    + rewrite Hws. intros pos' i Hp'.
      destruct (decide (pos = pos')) as [->|Hne].
      * rewrite list_lookup_insert_eq in Hp' by (by eapply lookup_lt_Some).
        destruct Hcase as [(Hlt & -> & _)|(Hge & -> & _)]; by simplify_eq.
      * rewrite list_lookup_insert_ne in Hp' by done. by eapply Ia.
    + rewrite Hi, Hws. intros Hlt.
      destruct Hcase as [(_ & -> & _)|(Hge & _)]; [|lia].
      exists pos, (Awaiting (taskIndex st)).
      rewrite list_lookup_insert_eq by (by eapply lookup_lt_Some). done.
    + unfold measure. cbn [taskIndex workers]. rewrite Hi, Hws.
      rewrite !(count_insert _ _ _ _ _ Hpos).
      destruct Hcase as [(Hlt & -> & _)|(Hge & -> & _)];
        cbn [isAwaiting isResuming]; lia.
Qed.

Lemma measure_pos_unfinished st :
  inv tasks st → (0 < measure tasks st)%Z → unfinished 0 (workers st) ≠ [].
Proof.
  intros [Ic Is Il Ia Ip] Hm Hnil.
  assert (Hall : ∀ pos w, workers st !! pos = Some w → isReturned w = true).
  { intros pos w Hpos. destruct (isReturned w) eqn:Hw; [done|].
    assert (pos ∈ unfinished 0 (workers st)) as Hin.
    { apply elem_of_unfinished. split; [lia|]. exists w.
      rewrite Nat.sub_0_r. done. }
    rewrite Hnil in Hin. by apply elem_of_nil in Hin. }
  assert (HA : count isAwaiting (workers st) = 0%Z).
  { clear -Hall. induction (workers st) as [|w ws IH]; [done|].
    cbn [count]. rewrite IH; [|intros pos w'; apply (Hall (S pos))].
    specialize (Hall 0 w eq_refl). by destruct w. }
  assert (HR : count isResuming (workers st) = 0%Z).
  { clear -Hall. induction (workers st) as [|w ws IH]; [done|].
    cbn [count]. rewrite IH; [|intros pos w'; apply (Hall (S pos))].
    specialize (Hall 0 w eq_refl). by destruct w. }
  unfold measure in Hm. rewrite HA, HR in Hm.
  destruct Ip as (pos & w & Hpos & Hw); [lia|].
  rewrite (Hall _ _ Hpos) in Hw. done.
Qed.

Lemma step_inv k st :
  inv tasks st →
  inv tasks (step tasks k st)
  ∧ measure tasks (step tasks k st) = Z.max 0 (measure tasks st - 1).
Proof.
  intros I. pose proof (measure_nonneg st) as Hnn. unfold step.
  destruct (decide (measure tasks st = 0%Z)) as [Hz|Hnz].
  - (* every worker has returned *)
    assert (Hnil : unfinished 0 (workers st) = []).
    { destruct (unfinished 0 (workers st)) as [|pos l] eqn:E; [done|].
      assert (pos ∈ unfinished 0 (workers st)) as Hin by (rewrite E; left).
      apply elem_of_unfinished in Hin as (_ & w & Hpos & Hw).
      rewrite Nat.sub_0_r in Hpos.
      destruct (advance_inv _ _ _ I Hpos Hw) as [_ Hm].
      pose proof (measure_nonneg (advance tasks pos st)). lia. }
    rewrite Hnil. unfold pick. simpl. split; [done|lia].
  - destruct (pick_Some k (unfinished 0 (workers st))) as (pos & -> & Hin).
    { apply measure_pos_unfinished; [done|lia]. }
    apply elem_of_unfinished in Hin as (_ & w & Hpos & Hw).
    rewrite Nat.sub_0_r in Hpos.
    destruct (advance_inv _ _ _ I Hpos Hw) as [I' Hm].
    split; [done|lia].
Qed.

Lemma run_inv schedule st :
  inv tasks st →
  inv tasks (run tasks schedule st)
  ∧ measure tasks (run tasks schedule st)
    = Z.max 0 (measure tasks st - Z.of_nat (length schedule)).
Proof.
  revert st. induction schedule as [|k sched IH]; intros st I.
  - pose proof (measure_nonneg st). simpl. split; [done|lia].
  - change (run tasks (k :: sched) st) with (run tasks sched (step tasks k st)).
    destruct (step_inv k st I) as [I' Hm].
    destruct (IH _ I') as [I'' Hm'']. split; [done|].
    rewrite Hm'', Hm. cbn [length]. lia.
Qed.

Lemma inv_done st :
  inv tasks st → measure tasks st = 0%Z →
  forallb isReturned (workers st) = true
  ∧ results st = (λ o, Some (stored o)) <$> tasks
  ∧ called st = seq 0 n.
Proof.
  intros I Hm. pose proof I as [Ic Is Il Ia Ip].
  pose proof (count_nonneg isAwaiting (workers st)) as HA.
  pose proof (count_nonneg isResuming (workers st)) as HR.
  unfold measure in Hm.
  assert (Hidx : n ≤ taskIndex st) by lia.
  assert (HA0 : count isAwaiting (workers st) = 0%Z) by lia.
  assert (HR0 : count isResuming (workers st) = 0%Z) by lia.
  split; [|split].
  - apply forallb_forall.
    intros w [pos Hpos]%list_elem_of_In%list_elem_of_lookup.
    pose proof (count_zero_all _ _ HA0 _ _ Hpos).
    pose proof (count_zero_all _ _ HR0 _ _ Hpos).
    by destruct w.
  - apply list_eq. intros i. rewrite list_lookup_fmap.
    destruct (decide (i < n)) as [Hlt|Hge].
    + destruct (Is i ltac:(lia)) as [[pos Hpos]|Hres].
      * by pose proof (count_zero_all _ _ HA0 _ _ Hpos).
      * rewrite Hres. unfold callTask.
        destruct (lookup_lt_is_Some_2 tasks i Hlt) as [o ->]. done.
    + rewrite !lookup_ge_None_2; [done|lia|lia].
  - rewrite Ic. f_equal. lia.
Qed.

End Call.
Lemma all_returned_measure (tasks : list (outcome T)) st :
  inv tasks st → forallb isReturned (workers st) = true →
  measure tasks st = 0%Z.
Proof.
  intros I Hall. pose proof I as [Ic Is Il Ia Ip].
  rewrite forallb_forall in Hall.
  assert (Hret : ∀ pos w, workers st !! pos = Some w → isReturned w = true).
  { intros pos w Hpos. apply Hall, list_elem_of_In.
    by eapply list_elem_of_lookup_2. }
  assert (HA : count isAwaiting (workers st) = 0%Z).
  { clear -Hret. induction (workers st) as [|w ws IH]; [done|].
    cbn [count]. rewrite IH; [|intros pos w'; apply (Hret (S pos))].
    specialize (Hret 0 w eq_refl). by destruct w. }
  assert (HR : count isResuming (workers st) = 0%Z).
  { clear -Hret. induction (workers st) as [|w ws IH]; [done|].
    cbn [count]. rewrite IH; [|intros pos w'; apply (Hret (S pos))].
    specialize (Hret 0 w eq_refl). by destruct w. }
  unfold measure. rewrite HA, HR.
  destruct (decide (taskIndex st < length tasks)) as [Hlt|Hge]; [|lia].
  destruct (Ip Hlt) as (pos & w & Hpos & Hw).
  rewrite (Hret _ _ Hpos) in Hw. done.
Qed.

(** Whatever the schedule, the promise is pending or resolved with the
    results of the tasks in input order; after [2 * tasks.length] steps of
    the workers it is resolved. *)
Lemma runConcurrently_spec (tasks : list (outcome T)) maxConcurrent schedule :
  (1 ≤ maxConcurrent)%Z →
  (runConcurrently tasks maxConcurrent schedule = None
   ∨ runConcurrently tasks maxConcurrent schedule
     = Some (Normal ((λ o, Some (stored o)) <$> tasks)))
  ∧ (2 * length tasks ≤ length schedule →
     runConcurrently tasks maxConcurrent schedule
     = Some (Normal ((λ o, Some (stored o)) <$> tasks))).
Proof.
  intros Hmax. unfold runConcurrently.
  destruct (Z.ltb_spec maxConcurrent 1); [lia|].
  destruct (start_inv tasks maxConcurrent Hmax) as [I0 Hm0].
  destruct (run_inv tasks schedule _ I0) as [I Hm].
  set (st := run tasks schedule (start tasks maxConcurrent)) in *.
  split.
  - destruct (forallb isReturned (workers st)) eqn:Hall; [right|by left].
    pose proof (all_returned_measure _ _ I Hall) as Hz.
    destruct (inv_done _ _ I Hz) as (_ & -> & _). done.
  - intros Hlen. assert (Hz : measure tasks st = 0%Z) by lia.
    destruct (inv_done _ _ I Hz) as (-> & -> & _). done.
Qed.


End WithT.
End RunConcurrentlyFacts.

(** ** AsyncTaskPool (addTask / waitForAll): invariants *)

Module AsyncTaskPoolLoopFacts.
Import AsyncTaskPoolLoop.
Section WithT.
Context {T : Type}.
Implicit Types (p : pool T) (w : world T) (e : event T).

Lemma loop_runTasks_spec p p' started :
  runTasks p = (p', started) →
  maxConcurrency p' = maxConcurrency p
  ∧ results p' = results p
  ∧ allCompleted p' = allCompleted p
  ∧ completionPromise p' = completionPromise p
  ∧ ((∃ task, started = Some task
              ∧ waitingTasks p = task :: waitingTasks p'
              ∧ runningTasks p' = (runningTasks p + 1)%Z
              ∧ (runningTasks p < maxConcurrency p)%Z)
     ∨ (started = None ∧ p' = p
        ∧ (waitingTasks p = [] ∨ (maxConcurrency p ≤ runningTasks p)%Z))).
Proof.
  unfold runTasks. destruct (waitingTasks p) as [|task rest] eqn:Hq.
  - intros [= <- <-]. repeat split; try done. right. auto.
  - destruct (Z.ltb_spec (runningTasks p) (maxConcurrency p)).
    + intros [= <- <-]. simpl. repeat split; try done. left. exists task. done.
    + intros [= <- <-]. repeat split; try done. right. auto.
Qed.

Lemma loop_inv_init limit p : new limit = Normal p → inv limit (World p []).
Proof.
  unfold new. destruct (Z.ltb_spec limit 1); [done|].
  intros [= <-]. split; simpl; try done; try lia.
Qed.

Lemma loop_inv_step_add limit task w :
  inv limit w → inv limit (step (AddTask task) w).
Proof.
  intros I. unfold step, addTask.
  destruct (allCompleted (this w)) eqn:Hac; [done|].
  destruct (runTasks _) as [p' started] eqn:E.
  apply loop_runTasks_spec in E as (Hm & Hres & Hc & Hp & Hcase). simpl in *.
  destruct I as [[Il Hl] Ic Ib Id Ip In It].
  pose proof (count_nonneg isPending (calls w)).
  rewrite Hac in Ip.
  destruct Hcase as [(t & -> & Hq & Hr & Hlt)|(-> & -> & Hor)]; split; simpl;
    rewrite ?Hc, ?Hp, ?Hac, ?app_nil_r; try done; try lia.
  all: try (split; [congruence|done]).
  all: try (rewrite count_app, Hr; simpl; lia).
  all: try (intros [? _]; simpl in *; lia).
  all: try (intros [_ Hq'] _; simpl in *; by destruct (waitingTasks (this w))).
Qed.

Lemma loop_inv_step_settle limit c o w :
  inv limit w → inv limit (step (Settle c o) w).
Proof.
  intros I. unfold step.
  destruct (calls w !! c) as [[task []]|] eqn:Hcall; try done.
  destruct I as [[Il Hl] Ic Ib Id Ip In It].
  assert (Hpos : (1 ≤ runningTasks (this w))%Z).
  { rewrite Ic. by apply (count_lookup_pos isPending _ c (task, true)). }
  assert (Hac : allCompleted (this w) = false).
  { destruct (allCompleted (this w)); [|done].
    destruct Id as [? _]; [done|lia]. }
  rewrite Hac in Ip.
  destruct (resume task o (this w)) as [p' started] eqn:E.
  unfold resume in E.
  set (p1 := match o with Fulfilled _ => _ | Rejected _ => _ end) in E.
  assert (Hp1 : maxConcurrency p1 = limit
                ∧ runningTasks p1 = runningTasks (this w)
                ∧ allCompleted p1 = false ∧ completionPromise p1 = None).
  { destruct o; simpl; auto. }
  destruct Hp1 as (Hm1 & Hr1 & Hac1 & Hcp1).
  clearbody p1. unfold checkAllCompleted in E. simpl in E.
  rewrite Hac1, Hcp1 in E. simpl in E.
  assert (Hcnt : count isPending (<[c:=(task, false)]> (calls w))
                 = (runningTasks (this w) - 1)%Z).
  { rewrite (count_insert _ _ _ _ _ Hcall), <- Ic. simpl. lia. }
  assert (Hne : ∀ l, <[c:=(task, false)]> (calls w) ++ l ≠ []).
  { intros l Hnil%app_nil. destruct Hnil as [Hnil _].
    apply (f_equal length) in Hnil. rewrite length_insert in Hnil.
    apply lookup_lt_Some in Hcall. simpl in Hnil. lia. }
  destruct (Z.eqb_spec (runningTasks p1 - 1) 0) as [Hz|Hnz]; simpl in E.
  - destruct (waitingTasks p1) as [|t q] eqn:Hq1; simpl in E.
    + (* the last task: the pool completes *)
      unfold runTasks in E. simpl in E. injection E as <- <-.
      split; simpl; rewrite ?Hcnt; try done; try lia.
      all: try (split; simpl; [lia|done]).
      all: rewrite ?count_app, ?Hcnt; simpl; lia.
    + apply loop_runTasks_spec in E as (Hm & Hres & Hc & Hp & Hcase).
      simpl in *.
      destruct Hcase as [(t' & -> & Hq & Hr & Hlt)|(-> & -> & Hor)];
        split; simpl;
        rewrite ?Hc, ?Hp, ?Hac1, ?Hcp1, ?count_app, ?Hcnt;
        simpl; try done; try lia.
      all: try (split; [congruence|done]).
      all: try (intros [? _]; simpl in *; lia).
      all: try (intros [_ ?]; simpl in *; congruence).
  - apply loop_runTasks_spec in E as (Hm & Hres & Hc & Hp & Hcase). simpl in *.
    destruct Hcase as [(t' & -> & Hq & Hr & Hlt)|(-> & -> & Hor)];
      split; simpl;
      rewrite ?Hc, ?Hp, ?Hac1, ?Hcp1, ?count_app, ?Hcnt;
      simpl; try done; try lia.
    all: try (split; [congruence|done]).
    all: try (intros [? _]; simpl in *; lia).
Qed.

Lemma loop_inv_step limit e w : inv limit w → inv limit (step e w).
Proof. destruct e; [apply loop_inv_step_add | apply loop_inv_step_settle]. Qed.

Lemma loop_reachable_inv limit w : reachable limit w → inv limit w.
Proof.
  induction 1 as [p Hp|e w _ IH];
    [by apply loop_inv_init | by apply loop_inv_step].
Qed.

Lemma loop_reachable_run limit evs w :
  reachable limit w → reachable limit (run evs w).
Proof.
  revert w. induction evs as [|e evs IH]; intros w Hw; [done|].
  apply IH. by constructor.
Qed.

(** Once [allCompleted] is set nothing moves any more. *)
Lemma completed_step limit e w :
  inv limit w → allCompleted (this w) = true → step e w = w.
Proof.
  intros I Hf. pose proof (inv_completed _ _ I Hf) as [Hr _].
  pose proof (inv_count _ _ I) as Hc. rewrite Hr in Hc.
  destruct e as [task|c o]; unfold step.
  - unfold addTask. rewrite Hf. done.
  - destruct (calls w !! c) as [[task []]|] eqn:E; try done.
    pose proof (count_lookup_pos isPending _ _ _ E eq_refl). lia.
Qed.

Lemma completed_run limit evs w :
  inv limit w → allCompleted (this w) = true → run evs w = w.
Proof.
  intros I Hf. induction evs as [|e evs IH]; [done|].
  change (run (e :: evs) w) with (run evs (step e w)).
  by rewrite (completed_step _ _ _ I Hf).
Qed.

Lemma loop_reachable_events limit p (evs : list (event T)) :
  new limit = Normal p → reachable limit (run evs (World p [])).
Proof. intros H. apply loop_reachable_run. by constructor. Qed.
End WithT.
End AsyncTaskPoolLoopFacts.

(** ** executeTasks / retryFailedTasks *)

Module TaskExecutorFacts.
Import TaskExecutor.

Section JsMap.
Context {K V : Type} `{EqDecision K}.
Implicit Types (m : list (K * V)).

Lemma Map_get_set_eq k v m : Map_get k (Map_set k v m) = Some v.
Proof.
  induction m as [|[k' v'] m IH]; simpl.
  - by rewrite decide_True.
  - destruct (decide (k = k')) as [->|Hne]; simpl.
    + by rewrite decide_True.
    + by rewrite decide_False.
Qed.

Lemma Map_get_set_ne k k' v m :
  k ≠ k' → Map_get k' (Map_set k v m) = Map_get k' m.
Proof.
  intros Hne. induction m as [|[k0 v0] m IH]; simpl.
  - by rewrite decide_False.
  - destruct (decide (k = k0)) as [->|Hne0]; simpl.
    + by rewrite !decide_False.
    + destruct (decide (k' = k0)); [done|]. apply IH.
Qed.

Lemma Map_set_keys k v m :
  ∀ k0, k0 ∈ (Map_set k v m).*1 ↔ k0 = k ∨ k0 ∈ m.*1.
Proof.
  induction m as [|[k' v'] m IH]; intros k0; csimpl.
  - rewrite list_elem_of_singleton, elem_of_nil. tauto.
  - destruct (decide (k = k')) as [->|Hne]; csimpl.
    + rewrite !elem_of_cons. tauto.
    + rewrite !elem_of_cons, IH. tauto.
Qed.

Lemma Map_set_NoDup k v m : NoDup m.*1 → NoDup (Map_set k v m).*1.
Proof.
  induction m as [|[k' v'] m IH]; csimpl; intros Hnd.
  - apply NoDup_singleton.
  - apply NoDup_cons in Hnd as [Hnotin Hnd].
    destruct (decide (k = k')) as [->|Hne]; csimpl.
    + by apply NoDup_cons.
    + apply NoDup_cons. split; [|by apply IH].
      rewrite Map_set_keys. intros [?|?]; congruence.
Qed.

Lemma Map_get_Some k v m : Map_get k m = Some v → (k, v) ∈ m.
Proof.
  induction m as [|[k' v'] m IH]; simpl; [done|].
  destruct (decide (k = k')) as [->|Hne].
  - intros [= ->]. left.
  - intros H. right. by apply IH.
Qed.

Lemma Map_get_elem_of k v m : NoDup m.*1 → (k, v) ∈ m → Map_get k m = Some v.
Proof.
  induction m as [|[k' v'] m IH]; csimpl; intros Hnd Hin.
  - by apply elem_of_nil in Hin.
  - apply NoDup_cons in Hnd as [Hnotin Hnd].
    apply elem_of_cons in Hin as [[= <- <-]|Hin].
    + by rewrite decide_True.
    + rewrite decide_False; [by apply IH|].
      intros ->. apply Hnotin. apply list_elem_of_fmap. by exists (k', v).
Qed.

Lemma Map_get_None k m : k ∉ m.*1 → Map_get k m = None.
Proof.
  intros Hk. destruct (Map_get k m) as [v|] eqn:E; [|done].
  destruct Hk. apply Map_get_Some in E. apply list_elem_of_fmap.
  by exists (k, v).
Qed.

Lemma Map_new_fold_notin k (l m : list (K * V)) :
  k ∉ l.*1 →
  Map_get k (fold_left (λ m kv, Map_set kv.1 kv.2 m) l m) = Map_get k m.
Proof.
  revert m. induction l as [|[k' v'] l IH]; intros m; csimpl; [done|].
  rewrite not_elem_of_cons. intros [Hne Hk].
  rewrite IH by done. by apply Map_get_set_ne.
Qed.

Lemma Map_new_get k v (l : list (K * V)) :
  NoDup l.*1 → (k, v) ∈ l → Map_get k (Map_new l) = Some v.
Proof.
  unfold Map_new. generalize (@nil (K * V)) as m.
  induction l as [|[k' v'] l IH]; intros m; csimpl; intros Hnd Hin.
  - by apply elem_of_nil in Hin.
  - apply NoDup_cons in Hnd as [Hnotin Hnd].
    apply elem_of_cons in Hin as [[= <- <-]|Hin].
    + rewrite Map_new_fold_notin by done. apply Map_get_set_eq.
    + by apply IH.
Qed.

End JsMap.

Section WithT.
Context {T : Type}.
Implicit Types (st : TaskExecutorState T) (calls : list (Task * nat)).
Implicit Types (beh : nat → outcome T).

Lemma onSettled_spec task orig (o : outcome T) st :
  (match o with
   | Fulfilled v =>
       Map_get orig (successResults (onSettled task orig o st)) = Some v
       ∧ failedTasks (onSettled task orig o st) = failedTasks st
   | Rejected _ =>
       Map_get orig (failedTasks (onSettled task orig o st)) = Some task
       ∧ successResults (onSettled task orig o st) = successResults st
   end)
  ∧ (∀ k, k ≠ orig → untouched st (onSettled task orig o st) k)
  ∧ (keysNoDup st → keysNoDup (onSettled task orig o st)).
Proof.
  unfold untouched, keysNoDup.
  destruct o as [v|err]; simpl; repeat split;
    try apply Map_get_set_eq; try done.
  all: try (intros; rewrite ?Map_get_set_ne by done; done).
  all: try (intros [? ?]; split; [|done]; by apply Map_set_NoDup).
  all: try (intros [? ?]; split; [done|]; by apply Map_set_NoDup).
  all: try (apply Map_get_set_ne; done).
  all: try (apply Map_set_NoDup); tauto.
Qed.

Lemma untouched_trans st1 st2 st3 k :
  untouched st1 st2 k → untouched st2 st3 k → untouched st1 st3 k.
Proof. unfold untouched. intros [-> ->] [-> ->]. done. Qed.

Lemma settleAll_spec calls beh order pending st st' :
  NoDup pending →
  (∀ p1 p2 t1 t2 o, p1 ∈ pending → p2 ∈ pending →
     calls !! p1 = Some (t1, o) → calls !! p2 = Some (t2, o) → p1 = p2) →
  settleAll calls beh order pending st = (st', []) →
  (∀ pos, pos ∈ pending → settledAs calls beh st st' pos)
  ∧ (∀ k, (∀ pos task, pos ∈ pending → calls !! pos ≠ Some (task, k)) →
          untouched st st' k)
  ∧ (keysNoDup st → keysNoDup st').
Proof.
  revert pending st.
  induction order as [|k order IH]; intros pending st Hnd Hinj; simpl.
  { intros [= -> ->]. split; [|split]; [|by intros|done].
    intros pos Hpos. by apply elem_of_nil in Hpos. }
  destruct (pick k pending) as [pos|] eqn:Hpick.
  2:{ intros [= -> ->]. split; [|split]; [|by intros|done].
      intros pos Hpos. by apply elem_of_nil in Hpos. }
  unfold pick in Hpick.
  pose proof (delete_Permutation _ _ _ Hpick) as Hperm.
  set (pending' := delete (k `mod` length pending) pending) in *.
  assert (Hin : ∀ x, x ∈ pending ↔ x = pos ∨ x ∈ pending').
  { intros x. rewrite Hperm, elem_of_cons. done. }
  rewrite Hperm in Hnd. apply NoDup_cons in Hnd as [Hnotin Hnd'].
  set (st1 := match calls !! pos with
              | Some (task, orig) => onSettled task orig (beh pos) st
              | None => st
              end).
  intros Hrun.
  destruct (IH pending' st1 Hnd') as (Hset & Hun & Hkeys); [|done|].
  { intros p1 p2 t1 t2 o H1 H2. apply Hinj; apply Hin; by right. }
  assert (Hfirst : ∀ k0, (∀ task, calls !! pos ≠ Some (task, k0)) →
                         untouched st st1 k0).
  { intros k0 Hk0. unfold st1. destruct (calls !! pos) as [[task orig]|];
      [|done].
    apply onSettled_spec. intros ->. by eapply Hk0. }
  assert (Hrest : ∀ task orig, calls !! pos = Some (task, orig) →
                               untouched st1 st' orig).
  { intros task orig Hc. apply Hun. intros pos' task' Hp' Hc'.
    assert (pos' = pos); [|congruence].
    eapply Hinj; [apply Hin; by right|apply Hin; by left|done|done]. }
  split; [|split].
  - intros pos0 [->|Hp0]%Hin task orig Hc.
    + pose proof (Hrest _ _ Hc) as [Hs Hf].
      unfold st1 in Hs, Hf. rewrite Hc in Hs, Hf.
      pose proof (onSettled_spec task orig (beh pos) st) as (Hon & _ & _).
      destruct (beh pos); destruct Hon as [H1 H2]; rewrite Hs, Hf, ?H2; done.
    + specialize (Hset pos0 Hp0 task orig Hc).
      assert (Hu : untouched st st1 orig).
      { apply Hfirst. intros task' Hc'.
        assert (pos0 = pos); [|congruence].
        eapply Hinj; [apply Hin; by right|apply Hin; by left|done|done]. }
      destruct Hu as [Hs Hf].
      destruct (beh pos0); destruct Hset as [H1 H2]; rewrite H1, H2; done.
  - intros k0 Hk0. eapply untouched_trans.
    + apply Hfirst. intros task. apply Hk0, Hin. by left.
    + apply Hun. intros pos' task Hp'. apply Hk0, Hin. by right.
  - intros Hk. apply Hkeys. unfold st1.
    destruct (calls !! pos) as [[task orig]|]; [|done].
    by apply onSettled_spec.
Qed.

Lemma executeTasks_spec (tasks : list Task) beh order st ti res st' :
  (∀ p1 p2 t1 t2, tasks !! p1 = Some t1 → tasks !! p2 = Some t2 →
     originalIndex ti t1 p1 = originalIndex ti t2 p2 → p1 = p2) →
  executeTasks tasks beh order st ti = Some (res, st') →
  (∀ pos task, tasks !! pos = Some task →
     res !! pos = Some (returned (originalIndex ti task pos) (beh pos))
     ∧ match beh pos with
       | Fulfilled v =>
           Map_get (originalIndex ti task pos) (successResults st') = Some v
           ∧ Map_get (originalIndex ti task pos) (failedTasks st')
             = Map_get (originalIndex ti task pos) (failedTasks st)
       | Rejected _ =>
           Map_get (originalIndex ti task pos) (failedTasks st') = Some task
           ∧ Map_get (originalIndex ti task pos) (successResults st')
             = Map_get (originalIndex ti task pos) (successResults st)
       end)
  ∧ length res = length tasks
  ∧ (∀ k, (∀ pos task, tasks !! pos = Some task →
                       originalIndex ti task pos ≠ k) →
          untouched st st' k)
  ∧ (keysNoDup st → keysNoDup st').
Proof.
  intros Hinj. unfold executeTasks.
  set (calls := imap _ tasks).
  assert (Hcalls : ∀ pos task orig,
            calls !! pos = Some (task, orig)
            ↔ tasks !! pos = Some task ∧ orig = originalIndex ti task pos).
  { intros pos task orig. unfold calls. rewrite list_lookup_imap.
    destruct (tasks !! pos) as [t|]; simpl.
    - split; [by intros [= -> ->]|]. intros [Ht ->]. by injection Ht as ->.
    - split; [done|]. by intros [? _]. }
  destruct (settleAll _ _ _ _ _) as [st'' [|? ?]] eqn:E; [|done].
  intros [= <- <-].
  apply settleAll_spec in E as (Hset & Hun & Hkeys).
  - split; [|split; [|split]]; [| |intros k Hk|done].
    + intros pos task Htask.
      assert (Hc : calls !! pos = Some (task, originalIndex ti task pos))
        by (by apply Hcalls).
      split.
      * rewrite list_lookup_imap, Hc. done.
      * assert (Hin : pos ∈ seq 0 (length tasks)).
        { apply elem_of_seq. apply lookup_lt_Some in Htask. lia. }
        exact (Hset pos Hin task _ Hc).
    + unfold calls. by rewrite !length_imap.
    + apply Hun. intros pos task _ [Ht ->]%Hcalls. by eapply Hk.
  - apply NoDup_seq.
  - intros p1 p2 t1 t2 o _ _ [H1 ->]%Hcalls [H2 Ho]%Hcalls. by eapply Hinj.
Qed.

(** After [runTasks] every index is filed under itself. *)
Lemma runTasks_spec (tasks : list Task) beh order res st' :
  runTasks tasks beh order = Some (res, st') →
  (∀ pos task, tasks !! pos = Some task →
     res !! pos = Some (returned pos (beh pos))
     ∧ match beh pos with
       | Fulfilled v =>
           Map_get pos (successResults st') = Some v
           ∧ Map_get pos (failedTasks st') = None
       | Rejected _ =>
           Map_get pos (failedTasks st') = Some task
           ∧ Map_get pos (successResults st') = None
       end)
  ∧ (∀ k, length tasks ≤ k →
          Map_get k (successResults st') = None
          ∧ Map_get k (failedTasks st') = None)
  ∧ keysNoDup st'.
Proof.
  intros H. apply executeTasks_spec in H as (Hpos & _ & Hun & Hkeys); [|done].
  split; [|split].
  - intros pos task Ht. apply (Hpos pos task Ht).
  - intros k Hk. apply (Hun k). intros pos task Ht.
    apply lookup_lt_Some in Ht. unfold originalIndex. simpl. lia.
  - apply Hkeys. split; constructor.
Qed.

(** Retrying with pairwise distinct closures: every task keeps the index
    it had in the first round, whether it succeeded at once, succeeded on
    retry, or failed again. *)
Lemma retry_keeps_original_index (tasks : list Task) beh1 order1 res1 st1
    beh2 order2 res2 st2 :
  NoDup tasks →
  runTasks tasks beh1 order1 = Some (res1, st1) →
  retryFailedTasks st1 beh2 order2 = Some (res2, st2) →
  ∀ i task, tasks !! i = Some task →
    match beh1 i with
    | Fulfilled v =>
        Map_get i (successResults st2) = Some v
        ∧ Map_get i (failedTasks st2) = None
    | Rejected _ =>
        ∃ q, failedTasks st1 !! q = Some (i, task)
             ∧ res2 !! q = Some (returned i (beh2 q))
             ∧ match beh2 q with
               | Fulfilled v' =>
                   Map_get i (successResults st2) = Some v'
                   ∧ Map_get i (failedTasks st2) = None
               | Rejected _ =>
                   Map_get i (failedTasks st2) = Some task
                   ∧ Map_get i (successResults st2) = None
               end
    end.
Proof.
  intros Hnd H1 H2.
  apply runTasks_spec in H1 as (Hpos1 & Hout1 & [Hks Hkf]).
  set (arr := failedTasks st1) in *.
  (* the entries of failedTasks are the failed indices with their tasks *)
  assert (Harr : ∀ q i t, arr !! q = Some (i, t) →
                          tasks !! i = Some t ∧ ∃ e, beh1 i = Rejected e).
  { intros q i t Hq.
    assert (Hget : Map_get i arr = Some t).
    { apply Map_get_elem_of; [done|]. by eapply list_elem_of_lookup_2. }
    destruct (decide (i < length tasks)) as [Hlt|Hge].
    - destruct (lookup_lt_is_Some_2 tasks i Hlt) as [t' Ht'].
      destruct (Hpos1 i t' Ht') as [_ Hb].
      destruct (beh1 i) as [v|e]; destruct Hb as [Hb1 Hb2]; [congruence|].
      split; [congruence|eauto].
    - destruct (Hout1 i ltac:(lia)) as [_ Hn]. congruence. }
  assert (Hkeys : ∀ q1 q2 i t1 t2, arr !! q1 = Some (i, t1) →
                                   arr !! q2 = Some (i, t2) → q1 = q2).
  { intros q1 q2 i t1 t2 Hq1 Hq2.
    eapply (NoDup_lookup _ q1 q2 i Hkf);
      rewrite list_lookup_fmap; [by rewrite Hq1|by rewrite Hq2]. }
  assert (Hti : ∀ q i t, arr !! q = Some (i, t) →
            originalIndex
              (Map_new ((λ entry : nat * Task, (entry.2, entry.1)) <$> arr))
              t q = i).
  { intros q i t Hq. unfold originalIndex.
    rewrite (Map_new_get t i); [done| |].
    - rewrite <- list_fmap_compose. apply NoDup_alt.
      intros q1 q2 t0. rewrite !list_lookup_fmap.
      destruct (arr !! q1) as [[i1 t1]|] eqn:E1; [|done].
      destruct (arr !! q2) as [[i2 t2]|] eqn:E2; [|done].
      simpl. intros [= ->] [= ->].
      destruct (Harr _ _ _ E1) as [Ht1 _]. destruct (Harr _ _ _ E2) as [Ht2 _].
      pose proof (NoDup_lookup _ _ _ _ Hnd Ht1 Ht2) as ->. by eapply Hkeys.
    - apply list_elem_of_fmap. exists (i, t). split; [done|].
      by eapply list_elem_of_lookup_2. }
  unfold retryFailedTasks in H2. fold arr in H2.
  apply executeTasks_spec in H2 as (Hpos2 & _ & Hun2 & _).
  2:{ intros q1 q2 t1 t2. rewrite !list_lookup_fmap.
      destruct (arr !! q1) as [[i1 t1']|] eqn:E1; [|done].
      destruct (arr !! q2) as [[i2 t2']|] eqn:E2; [|done].
      simpl. intros [= ->] [= ->].
      rewrite (Hti _ _ _ E1), (Hti _ _ _ E2). intros ->. by eapply Hkeys. }
  intros i task Hi. destruct (Hpos1 i task Hi) as [_ Hb].
  destruct (beh1 i) as [v|e]; destruct Hb as [Hb1 Hb2].
  - (* succeeded in the first round: not retried, left as it was *)
    destruct (Hun2 i) as [Hs Hf]; [|simpl in *; by rewrite Hs, Hf].
    intros q t. rewrite list_lookup_fmap.
    destruct (arr !! q) as [[i' t']|] eqn:E; [|done].
    simpl. intros [= ->]. rewrite (Hti _ _ _ E). intros ->.
    assert (Map_get i arr = Some t); [|congruence].
    apply Map_get_elem_of; [done|]. by eapply list_elem_of_lookup_2.
  - (* failed in the first round: retried at some position q *)
    apply Map_get_Some, list_elem_of_lookup_1 in Hb1 as [q Hq].
    exists q. split; [done|].
    destruct (Hpos2 q task) as [Hres Hst].
    { by rewrite list_lookup_fmap, Hq. }
    rewrite (Hti _ _ _ Hq) in Hres, Hst. split; [done|].
    destruct (beh2 q); simpl in Hst; destruct Hst as [-> ->]; done.
Qed.

End WithT.
End TaskExecutorFacts.

(** ** retryWrapper *)

Module RetryWrapperFacts.
Import RetryWrapper.
Section WithT.
Context {T : Type}.

(** The loop never runs out of fuel: [retryWrapper] always settles. *)
Lemma retryWrapper_total (fn : nat → outcome T) :
  ∃ r, retryWrapper fn = Some r ∧ 1 ≤ calls r ≤ maxRetries.
Proof.
  unfold retryWrapper, maxRetries. simpl.
  destruct (fn 0); [eexists; split; [done|simpl; lia]|].
  destruct (fn 1); [eexists; split; [done|simpl; lia]|].
  destruct (fn 2); eexists; (split; [done|simpl; lia]).
Qed.

Lemma retryWrapper_always_failing (fn : nat → outcome T) errs :
  (∀ k, fn k = Rejected (errs k)) →
  retryWrapper fn = Some (Report 3 [delay; delay] (RejectedBy (errs 2))).
Proof.
  intros H. unfold retryWrapper, maxRetries. simpl. by rewrite !H.
Qed.

End WithT.
End RetryWrapperFacts.

(** ** paralleTask *)

Module ParalleTaskFacts.
Import ParalleTask.

Lemma _run_ordered st : ordered st → ordered (_run st).
Proof.
  unfold ordered, _run. cbn [called nextIndex]. intros ->. by rewrite seq_S.
Qed.

Lemma launch_ordered fuel parallelCount len i st :
  ordered st → ordered (launch fuel parallelCount len i st).
Proof.
  revert i st. induction fuel as [|fuel IH]; intros i st H; simpl; [done|].
  destruct (_ && _); [|done]. by apply IH, _run_ordered.
Qed.

Lemma step_ordered len k b st : ordered st → ordered (step len k b st).
Proof.
  intros H. unfold step. destruct (pick k (inflight st)); [|done].
  destruct b; [|done]. unfold onFulfilled. cbn [nextIndex finishCount].
  destruct (_ <? _); [by apply _run_ordered|].
  by destruct (_ =? _).
Qed.

Lemma run_ordered len schedule st : ordered st → ordered (run len schedule st).
Proof.
  revert st. induction schedule as [|[k b] l IH]; intros st H; [done|].
  apply IH. by apply step_ordered.
Qed.

Lemma paralleTask_ordered len parallelCount schedule :
  ordered (run len schedule (paralleTask len parallelCount)).
Proof.
  apply run_ordered. unfold paralleTask.
  destruct (len =? 0); [done|]. by apply launch_ordered.
Qed.

End ParalleTaskFacts.

(** ** paralleTask: the first calls, and the states of a call *)

Module ParalleTaskRunsFacts.
Import ParalleTask ParalleTaskRuns.

Lemma launch_initial fuel parallelCount n i :
  i ≤ initialCalls n parallelCount →
  initialCalls n parallelCount - i ≤ fuel →
  launch fuel parallelCount n i (State i 0 None (seq 0 i) (seq 0 i))
  = State (initialCalls n parallelCount) 0 None
          (seq 0 (initialCalls n parallelCount))
          (seq 0 (initialCalls n parallelCount)).
Proof.
  revert i. induction fuel as [|fuel IH]; intros i Hi Hf.
  - simpl. by replace i with (initialCalls n parallelCount) by lia.
  - cbn [launch]. unfold initialCalls in *.
    destruct (Z.ltb_spec (Z.of_nat i) parallelCount);
      destruct (Nat.ltb_spec i n); cbn [andb].
    + unfold _run. cbn [nextIndex finishCount resolved called inflight].
      rewrite <- seq_S. apply IH; lia.
    + f_equal; f_equal; lia.
    + f_equal; f_equal; lia.
    + f_equal; f_equal; lia.
Qed.

Lemma paralleTask_initial n parallelCount :
  1 ≤ n →
  paralleTask n parallelCount
  = State (initialCalls n parallelCount) 0 None
          (seq 0 (initialCalls n parallelCount))
          (seq 0 (initialCalls n parallelCount)).
Proof.
  intros Hn. unfold paralleTask.
  destruct (Nat.eqb_spec n 0); [lia|].
  apply (launch_initial n parallelCount n 0); unfold initialCalls; lia.
Qed.

Lemma pick_nil {A} k : pick k (@nil A) = None.
Proof. done. Qed.

Lemma pick_length {A} k (l : list A) x :
  pick k l = Some x →
  l ≠ [] ∧ length (delete (k `mod` length l) l) = length l - 1.
Proof.
  unfold pick. intros H. split; [by intros ->|].
  rewrite length_delete; [done|]. by exists x.
Qed.

Lemma paralle_inv_init n parallelCount :
  inv n parallelCount (paralleTask n parallelCount).
Proof.
  destruct n as [|n].
  - unfold paralleTask. simpl. split; simpl; try lia. by right.
  - rewrite paralleTask_initial by lia.
    split; cbn [nextIndex finishCount resolved called inflight];
      rewrite ?length_seq; unfold initialCalls; try lia. by left.
Qed.

Lemma paralle_inv_step n parallelCount k b st :
  inv n parallelCount st → inv n parallelCount (step n k b st).
Proof.
  intros [Hs Hi Hf Hr]. unfold step.
  destruct (pick k (inflight st)) as [x|] eqn:Hp; [|done].
  apply pick_length in Hp as [Hne Hlen].
  destruct Hr as [Hr|Hr]; [|done].
  assert (1 ≤ length (inflight st)) by (destruct (inflight st); [done|simpl; lia]).
  destruct b.
  - unfold onFulfilled. cbn [nextIndex finishCount resolved called inflight].
    destruct (Nat.ltb_spec (nextIndex st) n).
    + unfold _run. split; cbn [nextIndex finishCount resolved called inflight];
        rewrite ?length_app; simpl; try lia. by left.
    + destruct (Nat.eqb_spec (S (finishCount st)) n).
      * split; cbn [nextIndex finishCount resolved called inflight]; try lia.
        right. apply length_zero_iff_nil. lia.
      * split; cbn [nextIndex finishCount resolved called inflight]; try lia.
        by left.
  - split; cbn [nextIndex finishCount resolved called inflight]; try lia.
    by left.
Qed.

Lemma paralle_inv_run n parallelCount schedule st :
  inv n parallelCount st → inv n parallelCount (run n schedule st).
Proof.
  revert st. induction schedule as [|[k b] s IH]; intros st H; [done|].
  apply IH. by apply paralle_inv_step.
Qed.

Lemma blocked_step n k b st : blocked n st → blocked n (step n k b st).
Proof.
  intros (Hs & Hi & Hr). unfold step.
  destruct (pick k (inflight st)) as [x|] eqn:Hp; [|done].
  apply pick_length in Hp as [Hne Hlen].
  assert (1 ≤ length (inflight st)) by (destruct (inflight st); [done|simpl; lia]).
  destruct b.
  - unfold onFulfilled. cbn [nextIndex finishCount resolved called inflight].
    destruct (Nat.ltb_spec (nextIndex st) n).
    + unfold _run, blocked. cbn [nextIndex finishCount resolved called inflight].
      rewrite ?length_app; simpl. split; [lia|]. split; [lia|done].
    + destruct (Nat.eqb_spec (S (finishCount st)) n); [lia|].
      unfold blocked. cbn [nextIndex finishCount resolved called inflight].
      split; [lia|]. split; [lia|done].
  - unfold blocked. cbn [nextIndex finishCount resolved called inflight].
    split; [lia|]. split; [lia|done].
Qed.

Lemma blocked_run n schedule st : blocked n st → blocked n (run n schedule st).
Proof.
  revert st. induction schedule as [|[k b] s IH]; intros st H; [done|].
  apply IH. by apply blocked_step.
Qed.

Lemma paralle_run_app n s1 s2 st : run n (s1 ++ s2) st = run n s2 (run n s1 st).
Proof. apply fold_left_app. Qed.

Lemma fulfilled_step n parallelCount j k st :
  (1 ≤ parallelCount)%Z → j < n →
  fulfilled n parallelCount j st →
  fulfilled n parallelCount (S j) (step n k true st).
Proof.
  intros HP Hj (Hf & Hn & Hl & Hr & Hc).
  assert (1 ≤ initialCalls n parallelCount) as Hm by (unfold initialCalls; lia).
  unfold step.
  assert (inflight st ≠ []) as Hne.
  { intros E. rewrite E in Hl. simpl in Hl. lia. }
  destruct (pick_Some k (inflight st) Hne) as (x & Hp & _). rewrite Hp.
  apply pick_length in Hp as [_ Hlen].
  unfold onFulfilled. cbn [nextIndex finishCount resolved called inflight].
  destruct (Nat.ltb_spec j n); [|lia]. rewrite Hr.
  destruct (Nat.ltb_spec (nextIndex st) n).
  - unfold _run, fulfilled. cbn [nextIndex finishCount resolved called inflight].
    rewrite length_app, Hlen, Hc, <- seq_S. simpl.
    destruct (Nat.ltb_spec (S j) n); [|lia].
    repeat split; lia.
  - destruct (Nat.eqb_spec (S (finishCount st)) n).
    + unfold fulfilled. cbn [nextIndex finishCount resolved called inflight].
      destruct (Nat.ltb_spec (S j) n); [lia|].
      repeat split; (lia || done).
    + unfold fulfilled. cbn [nextIndex finishCount resolved called inflight].
      destruct (Nat.ltb_spec (S j) n); [|lia].
      repeat split; (lia || done).
Qed.

Lemma fulfilled_done n parallelCount k b st :
  fulfilled n parallelCount n st → step n k b st = st.
Proof.
  intros (Hf & Hn & Hl & Hr & Hc). unfold step.
  assert (inflight st = []) as ->; [|done].
  apply length_zero_iff_nil. lia.
Qed.

Lemma fulfilled_run n parallelCount schedule :
  (1 ≤ parallelCount)%Z → 1 ≤ n →
  Forall (λ kb : nat * bool, kb.2 = true) schedule →
  fulfilled n parallelCount (length schedule `min` n)
    (run n schedule (paralleTask n parallelCount)).
Proof.
  intros HP Hn. induction schedule as [|[k b] s IH] using rev_ind; intros Hall.
  - rewrite paralleTask_initial by done. unfold fulfilled; simpl.
    rewrite length_seq. destruct n; [lia|].
    repeat split; unfold initialCalls; lia.
  - apply Forall_app in Hall as [Hs [Hb _]%Forall_cons]. simpl in Hb. subst b.
    specialize (IH Hs). rewrite paralle_run_app, length_app. simpl.
    destruct (decide (length s < n)).
    + replace ((length s + 1) `min` n) with (S (length s `min` n)) by lia.
      apply fulfilled_step; [done|lia|done].
    + replace ((length s + 1) `min` n) with n by lia.
      replace (length s `min` n) with n in IH by lia.
      by rewrite (fulfilled_done _ _ _ _ _ IH).
Qed.

End ParalleTaskRunsFacts.


(** ** The models on small runs *)

Example pool_three_adds :
  let w := AsyncTaskPool.run Examples.three_adds (AsyncTaskPool.init 2) in
  AsyncTaskPool.this w = AsyncTaskPool.Pool 2 2 [] [7] false []
  ∧ AsyncTaskPool.chains w
    = [(1, AsyncTaskPool.Done); (2, AsyncTaskPool.Pending);
       (3, AsyncTaskPool.Pending)].
Proof. vm_compute. done. Qed.

Example pool_three_adds_done :
  AsyncTaskPool.this
    (AsyncTaskPool.run Examples.three_adds_done (AsyncTaskPool.init 2))
  = AsyncTaskPool.Pool 2 0 [] [7; 8; 9] true [].
Proof. vm_compute. done. Qed.

Example pool_negative_limit :
  AsyncTaskPool.this
    (AsyncTaskPool.run Examples.one_running (AsyncTaskPool.init (-1)))
  = AsyncTaskPool.Pool (-1) 0 [1] [] false [].
Proof. vm_compute. done. Qed.

Example loop_rejects_limit_zero :
  AsyncTaskPoolLoop.new (T:=nat) 0 = Throw AsyncTaskPoolLoop.invalidError.
Proof. done. Qed.

Example request_pool_queues_second :
  let w := RequestPool.run Examples.two_requests (RequestPool.init 1) in
  RequestPool.this w = RequestPool.Pool 1 1 [2] 2
  ∧ RequestPool.tasks w = [RequestPool.Active; RequestPool.Queued].
Proof. vm_compute. done. Qed.

Example runConcurrently_mixed :
  RunConcurrently.runConcurrently Examples.mixed 2 Examples.zigzag
  = Some (Normal
      [Some (RunConcurrently.mkTaskResult true (Some 10) None);
       Some (RunConcurrently.mkTaskResult false None
               (Some (ErrorObject "timeout")));
       Some (RunConcurrently.mkTaskResult true (Some 30) None)]).
Proof. vm_compute. done. Qed.

Example runConcurrently_pending :
  RunConcurrently.runConcurrently Examples.mixed 2 [0; 0; 0] = None.
Proof. vm_compute. done. Qed.

Example runConcurrently_invalid :
  RunConcurrently.runConcurrently Examples.mixed 0 Examples.zigzag
  = Some (Throw RunConcurrently.invalidError).
Proof. done. Qed.

Example retryWrapper_second_attempt :
  RetryWrapper.retryWrapper
    (λ k, if k =? 0 then Rejected (ErrorObject "down") else Fulfilled 5)
  = Some (RetryWrapper.Report 2 [1000%Z] (RetryWrapper.ResolvedWith 5)).
Proof. done. Qed.

Example paralleTask_three :
  ParalleTask.run 3 [(1, true); (0, true); (0, true)]
    (ParalleTask.paralleTask 3 2)
  = ParalleTask.State 3 3 (Some "所有任务都完成了"%string) [0; 1; 2] [].
Proof. vm_compute. done. Qed.

Example paralleTask_stuck_on_rejection :
  ParalleTask.run 3 [(0, false); (0, true)] (ParalleTask.paralleTask 3 2)
  = ParalleTask.State 3 1 None [0; 1; 2] [2].
Proof. vm_compute. done. Qed.

(** * The claims *)

(** C1: in every state a pool can reach, under any sequence of submissions
    and task settlements, the number of running tasks is at least 0 and at
    most the configured limit (a limit of at least 0).  Holds for
    [AsyncTaskPool] ([runningCount], [runningTasks]) and [RequestPool]
    ([activeCount]). *)
Theorem C1_running_within_limit (T : Type) (limit : Z) :
  (0 ≤ limit)%Z →
  (∀ evs : list (AsyncTaskPool.event T),
     let w := AsyncTaskPool.run evs (AsyncTaskPool.init limit) in
     (0 ≤ AsyncTaskPool.runningCount (AsyncTaskPool.this w) ≤ limit)%Z)
  ∧ (∀ evs : list (RequestPool.event T),
       let w := RequestPool.run evs (RequestPool.init limit) in
       (0 ≤ RequestPool.activeCount (RequestPool.this w) ≤ limit)%Z)
  ∧ (∀ p (evs : list (AsyncTaskPoolLoop.event T)),
       AsyncTaskPoolLoop.new limit = Normal p →
       let w := AsyncTaskPoolLoop.run evs (AsyncTaskPoolLoop.World p []) in
       (0 ≤ AsyncTaskPoolLoop.runningTasks (AsyncTaskPoolLoop.this w)
        ≤ limit)%Z).
Proof.
  intros Hl. repeat split.
  - pose proof (AsyncTaskPoolFacts.reachable_inv _ _
                  (AsyncTaskPoolFacts.reachable_events limit evs)) as I.
    rewrite (AsyncTaskPool.inv_count _ _ I). apply count_nonneg.
  - pose proof (AsyncTaskPoolFacts.reachable_inv _ _
                  (AsyncTaskPoolFacts.reachable_events limit evs)) as I.
    pose proof (AsyncTaskPool.inv_bound _ _ I). lia.
  - pose proof (RequestPoolFacts.request_reachable_inv _ _
                  (RequestPoolFacts.request_reachable_events limit evs)) as I.
    rewrite (RequestPool.inv_count _ _ I). apply count_nonneg.
  - pose proof (RequestPoolFacts.request_reachable_inv _ _
                  (RequestPoolFacts.request_reachable_events limit evs)) as I.
    pose proof (RequestPool.inv_bound _ _ I). lia.
  - pose proof (AsyncTaskPoolLoopFacts.loop_reachable_inv _ _
                  (AsyncTaskPoolLoopFacts.loop_reachable_events limit p evs
                     H)) as I.
    rewrite (AsyncTaskPoolLoop.inv_count _ _ I). apply count_nonneg.
  - pose proof (AsyncTaskPoolLoopFacts.loop_reachable_inv _ _
                  (AsyncTaskPoolLoopFacts.loop_reachable_events limit p evs
                     H)) as I.
    apply (AsyncTaskPoolLoop.inv_bound _ _ I).
Qed.

Lemma C1_witness :
  (0 ≤ AsyncTaskPool.runningCount
         (AsyncTaskPool.this
            (AsyncTaskPool.run Examples.three_adds (AsyncTaskPool.init 2)))
   ≤ 2)%Z
  ∧ (0 ≤ RequestPool.activeCount
           (RequestPool.this
              (RequestPool.run Examples.two_requests (RequestPool.init 2)))
     ≤ 2)%Z
  ∧ (0 ≤ AsyncTaskPoolLoop.runningTasks
           (AsyncTaskPoolLoop.this
              (AsyncTaskPoolLoop.run Examples.one_cycle_loop
                 Examples.fresh_loop))
     ≤ 2)%Z.
Proof.
  destruct (C1_running_within_limit nat 2) as (H1 & H2 & H3); [lia|].
  split; [apply H1|]. split; [apply H2|].
  apply (H3 _ Examples.one_cycle_loop eq_refl).
Defined.


(** C2 (as amended): [retryWrapper], whose bound is the constant
    [maxRetries = 3], calls a function that fails every time exactly 3
    times, waits [delay] between the attempts and then rejects with the
    third error.  [AsyncTaskPool] has no bound on attempts: a task that
    fails every time is put back on the queue and called again after each
    failure, so after [n] failures it has been called [n + 1] times, is
    running, and nothing records it as failed. *)
Theorem C2_wrapper_bounded_pool_unbounded (T : Type)
    (fn : nat → outcome T) (errs : nat → thrown) (limit : Z) (task : Task)
    (n : nat) :
  (∀ k, fn k = Rejected (errs k)) →
  (1 ≤ limit)%Z →
  RetryWrapper.retryWrapper fn
  = Some (RetryWrapper.Report 3 [RetryWrapper.delay; RetryWrapper.delay]
            (RetryWrapper.RejectedBy (errs 2)))
  ∧ let w := AsyncTaskPool.run
               (AsyncTaskPool.Add task :: AsyncTaskPool.failing errs n)
               (AsyncTaskPool.init (T:=T) limit) in
    AsyncTaskPool.chains w
    = replicate n (task, AsyncTaskPool.Done) ++ [(task, AsyncTaskPool.Pending)]
    ∧ AsyncTaskPool.results (AsyncTaskPool.this w) = []
    ∧ AsyncTaskPool.finished (AsyncTaskPool.this w) = false.
Proof.
  intros Hfn Hl. split.
  - by apply RetryWrapperFacts.retryWrapper_always_failing.
  - cbv zeta. by rewrite AsyncTaskPoolFacts.always_failing_run.
Qed.

Lemma C2_witness :
  RetryWrapper.retryWrapper (λ _, Rejected (T:=nat) (ErrorObject "down"))
  = Some (RetryWrapper.Report 3 [1000; 1000]%Z
            (RetryWrapper.RejectedBy (ErrorObject "down")))
  ∧ AsyncTaskPool.chains
      (AsyncTaskPool.run Examples.three_failures (AsyncTaskPool.init 1))
    = [(0, AsyncTaskPool.Done); (0, AsyncTaskPool.Done);
       (0, AsyncTaskPool.Done); (0, AsyncTaskPool.Pending)].
Proof.
  pose proof (C2_wrapper_bounded_pool_unbounded nat
                (λ _, Rejected (ErrorObject "down"))
                (λ _, ErrorObject "down") 1 0 3
                (λ _, eq_refl) ltac:(lia)) as [H1 [H2 _]].
  split; [exact H1|exact H2].
Defined.

(** With three failures behind it the task of [three_failures] runs for the
    fourth time, and the pool holds no record of a failure. *)
Lemma C2_counterexample :
  let w := AsyncTaskPool.run Examples.three_failures (AsyncTaskPool.init 1) in
  AsyncTaskPool.chains w !! 3 = Some (0, AsyncTaskPool.Pending)
  ∧ AsyncTaskPool.results (AsyncTaskPool.this w) = []
  ∧ AsyncTaskPool.finished (AsyncTaskPool.this w) = false.
Proof. vm_compute. done. Qed.


(** C3 (as amended): a promise returned by [awaitAll] / [waitForAll] is
    never resolved while a task is running or queued.  Once the pool has
    called at least one task, it is resolved exactly in the states where
    the running count is 0 and the queue is empty: the pool is then
    [finished], no resolver is left pending and every promise handed out is
    resolved; before that none is.  On a pool that has not called any task
    the promise stays pending. *)
Theorem C3_resolved_iff_drained_after_start (T : Type) (limit : Z) :
  (∀ evs : list (AsyncTaskPool.event T),
     let w := AsyncTaskPool.run evs (AsyncTaskPool.init limit) in
     (AsyncTaskPool.resolved w ≠ [] →
      AsyncTaskPool.drained (AsyncTaskPool.this w))
     ∧ (AsyncTaskPool.chains w ≠ [] →
        (AsyncTaskPool.finished (AsyncTaskPool.this w) = true
         ↔ AsyncTaskPool.drained (AsyncTaskPool.this w)))
     ∧ (AsyncTaskPool.finished (AsyncTaskPool.this w) = true →
        AsyncTaskPool.pendingResolvers (AsyncTaskPool.this w) = []
        ∧ (AsyncTaskPool.resolved w).*1 ≡ₚ seq 0 (AsyncTaskPool.awaited w))
     ∧ (AsyncTaskPool.finished (AsyncTaskPool.this w) = false →
        AsyncTaskPool.resolved w = [])
     ∧ (AsyncTaskPool.chains w = [] → AsyncTaskPool.resolved w = []))
  ∧ (∀ p (evs : list (AsyncTaskPoolLoop.event T)),
       AsyncTaskPoolLoop.new limit = Normal p →
       let w := AsyncTaskPoolLoop.run evs (AsyncTaskPoolLoop.World p []) in
       let promise := AsyncTaskPoolLoop.waitForAll (AsyncTaskPoolLoop.this w) in
       (promise ≠ None → AsyncTaskPoolLoop.drained (AsyncTaskPoolLoop.this w))
       ∧ (AsyncTaskPoolLoop.calls w ≠ [] →
          (promise = Some (AsyncTaskPoolLoop.results (AsyncTaskPoolLoop.this w))
           ↔ AsyncTaskPoolLoop.drained (AsyncTaskPoolLoop.this w)))
       ∧ (AsyncTaskPoolLoop.calls w = [] → promise = None)).
Proof.
  split.
  - intros evs w.
    pose proof (AsyncTaskPoolFacts.reachable_inv _ _
                  (AsyncTaskPoolFacts.reachable_events limit evs)) as I.
    fold w in I. destruct I as [Il Ic Ib If Ir Id Io Ia Irs Iw Is It].
    assert (Hnone : AsyncTaskPool.finished (AsyncTaskPool.this w) = false →
                    AsyncTaskPool.resolved w = []).
    { intros Hf. destruct (AsyncTaskPool.resolved w); [done|].
      rewrite Ir in Hf; done. }
    repeat split.
    + by apply If, Ir.
    + by apply If, Ir.
    + by apply If.
    + by apply If.
    + intros Hd. by apply Id.
    + by apply If.
    + destruct (If H) as [_ Hp]. rewrite Hp, app_nil_r in Iw. done.
    + done.
    + intros Hc. apply Hnone.
      destruct (AsyncTaskPool.finished (AsyncTaskPool.this w)) eqn:Hf; [|done].
      by destruct (It eq_refl).
  - intros p evs Hnew w promise.
    pose proof (AsyncTaskPoolLoopFacts.loop_reachable_inv _ _
                  (AsyncTaskPoolLoopFacts.loop_reachable_events limit p evs
                     Hnew)) as I.
    fold w in I. destruct I as [[Il Hl] Ic Ib Id Ip In It].
    unfold promise, AsyncTaskPoolLoop.waitForAll. rewrite Ip.
    destruct (AsyncTaskPoolLoop.allCompleted (AsyncTaskPoolLoop.this w))
      eqn:Hac.
    + repeat split; try done; try (by apply Id).
      intros Hc. by destruct (It eq_refl).
    + assert (Hnd : AsyncTaskPoolLoop.drained (AsyncTaskPoolLoop.this w) →
                    AsyncTaskPoolLoop.calls w ≠ [] → False).
      { intros Hd Hc. by specialize (In Hd Hc). }
      repeat split; try done. intros Hd. exfalso. by apply Hnd.
Qed.

Lemma C3_witness :
  AsyncTaskPool.finished
    (AsyncTaskPool.this
       (AsyncTaskPool.run Examples.one_cycle (AsyncTaskPool.init 2))) = true
  ∧ AsyncTaskPoolLoop.waitForAll
      (AsyncTaskPoolLoop.this
         (AsyncTaskPoolLoop.run Examples.one_cycle_loop Examples.fresh_loop))
    = Some [5].
Proof.
  pose proof (C3_resolved_iff_drained_after_start nat 2) as [H1 H2].
  split.
  - destruct (H1 Examples.one_cycle) as (_ & H & _).
    apply H; vm_compute; done.
  - specialize (H2 _ Examples.one_cycle_loop eq_refl).
    destruct H2 as (_ & H & _).
    apply (H ltac:(vm_compute; done)). vm_compute. done.
Defined.

(** A new pool: nothing runs, nothing is queued, and the promise of
    [awaitAll] is pending, its resolver waiting in [pendingResolvers]. *)
Lemma C3_counterexample :
  let w := AsyncTaskPool.run [AsyncTaskPool.AwaitAll]
             (AsyncTaskPool.init (T:=nat) 3) in
  AsyncTaskPool.runningCount (AsyncTaskPool.this w) = 0%Z
  ∧ AsyncTaskPool.taskQueue (AsyncTaskPool.this w) = []
  ∧ AsyncTaskPool.pendingResolvers (AsyncTaskPool.this w) = [0]
  ∧ AsyncTaskPool.resolved w = [].
Proof. vm_compute. done. Qed.


(** C4 (as amended): after a drain the pool is closed for good.  [add]
    ([addTask]) throws and changes nothing, the flag [finished]
    ([allCompleted]) is never reset, and no later event changes the pool
    object or calls a task: one instance serves one submission/drain
    cycle. *)
Theorem C4_submission_after_drain_rejected (T : Type) (limit : Z) :
  (∀ (evs evs' : list (AsyncTaskPool.event T)) (task : Task),
     let w := AsyncTaskPool.run evs (AsyncTaskPool.init limit) in
     AsyncTaskPool.finished (AsyncTaskPool.this w) = true →
     AsyncTaskPool.add task (AsyncTaskPool.this w)
     = Throw AsyncTaskPool.closedError
     ∧ AsyncTaskPool.step (AsyncTaskPool.Add task) w = w
     ∧ AsyncTaskPool.this (AsyncTaskPool.run evs' w) = AsyncTaskPool.this w
     ∧ AsyncTaskPool.chains (AsyncTaskPool.run evs' w) = AsyncTaskPool.chains w)
  ∧ (∀ p (evs evs' : list (AsyncTaskPoolLoop.event T)) (task : Task),
       AsyncTaskPoolLoop.new limit = Normal p →
       let w := AsyncTaskPoolLoop.run evs (AsyncTaskPoolLoop.World p []) in
       AsyncTaskPoolLoop.allCompleted (AsyncTaskPoolLoop.this w) = true →
       AsyncTaskPoolLoop.addTask task (AsyncTaskPoolLoop.this w)
       = Throw AsyncTaskPoolLoop.completedError
       ∧ AsyncTaskPoolLoop.run evs' w = w).
Proof.
  split.
  - intros evs evs' task w Hf.
    pose proof (AsyncTaskPoolFacts.reachable_inv _ _
                  (AsyncTaskPoolFacts.reachable_events limit evs)) as I.
    fold w in I.
    destruct (AsyncTaskPoolFacts.finished_run _ evs' _ I Hf) as (Ht & Hc & _).
    unfold AsyncTaskPool.step, AsyncTaskPool.add. rewrite Hf. done.
  - intros p evs evs' task Hnew w Hf.
    pose proof (AsyncTaskPoolLoopFacts.loop_reachable_inv _ _
                  (AsyncTaskPoolLoopFacts.loop_reachable_events limit p evs
                     Hnew)) as I.
    fold w in I. split.
    + unfold AsyncTaskPoolLoop.addTask. by rewrite Hf.
    + by eapply AsyncTaskPoolLoopFacts.completed_run.
Qed.

Lemma C4_witness :
  (let w := AsyncTaskPool.run Examples.one_cycle (AsyncTaskPool.init 2) in
   AsyncTaskPool.add 2 (AsyncTaskPool.this w)
   = Throw AsyncTaskPool.closedError
   ∧ AsyncTaskPool.this
       (AsyncTaskPool.run [AsyncTaskPool.Add 2; AsyncTaskPool.AwaitAll] w)
     = AsyncTaskPool.this w)
  ∧ (let w := AsyncTaskPoolLoop.run Examples.one_cycle_loop
                Examples.fresh_loop in
     AsyncTaskPoolLoop.addTask 2 (AsyncTaskPoolLoop.this w)
     = Throw AsyncTaskPoolLoop.completedError
     ∧ AsyncTaskPoolLoop.run [AsyncTaskPoolLoop.AddTask 2] w = w).
Proof.
  pose proof (C4_submission_after_drain_rejected nat 2) as [Ha Hb].
  split.
  - destruct (Ha Examples.one_cycle
                [AsyncTaskPool.Add 2; AsyncTaskPool.AwaitAll] 2 eq_refl)
      as (H1 & _ & H2 & _).
    split; [exact H1|exact H2].
  - exact (Hb _ Examples.one_cycle_loop [AsyncTaskPoolLoop.AddTask 2] 2
              eq_refl eq_refl).
Defined.

(** After the cycle of [one_cycle] the pool is drained; a new [add] throws,
    the task is not queued and [finished] is still set. *)
Lemma C4_counterexample :
  let w := AsyncTaskPool.run Examples.one_cycle (AsyncTaskPool.init 2) in
  AsyncTaskPool.runningCount (AsyncTaskPool.this w) = 0%Z
  ∧ AsyncTaskPool.taskQueue (AsyncTaskPool.this w) = []
  ∧ AsyncTaskPool.add 2 (AsyncTaskPool.this w)
    = Throw AsyncTaskPool.closedError
  ∧ AsyncTaskPool.taskQueue
      (AsyncTaskPool.this (AsyncTaskPool.step (AsyncTaskPool.Add 2) w)) = []
  ∧ AsyncTaskPool.finished
      (AsyncTaskPool.this (AsyncTaskPool.step (AsyncTaskPool.Add 2) w)) = true.
Proof. vm_compute. done. Qed.


(** C5: [runNext] takes tasks from the head of the queue, as many as there
    are free slots (or queued tasks, if fewer), in queue order; and over
    any run of the pool the tasks have been called in exactly the order in
    which they were put on the queue.  [paralleTask] starts with the first
    [min(parallelCount, tasks.length)] tasks, in array order (none when
    [parallelCount <= 0]); every fulfilment of a task in flight, while
    tasks are left, calls exactly the next task of the array; and at any
    time the tasks called so far are those of the indices below
    [nextIndex], in array order. *)
Theorem C5_dispatch_in_queue_order (T : Type) (limit : Z) :
  (∀ p : AsyncTaskPool.pool T,
     let p' := (AsyncTaskPool.runNext p).1 in
     let started := (AsyncTaskPool.runNext p).2 in
     AsyncTaskPool.taskQueue p = started ++ AsyncTaskPool.taskQueue p'
     ∧ Z.of_nat (length started)
       = Z.min (Z.max 0 (AsyncTaskPool.concurrency p
                         - AsyncTaskPool.runningCount p))
               (Z.of_nat (length (AsyncTaskPool.taskQueue p)))
     ∧ AsyncTaskPool.runningCount p'
       = (AsyncTaskPool.runningCount p + Z.of_nat (length started))%Z)
  ∧ (∀ evs : list (AsyncTaskPool.event T),
       let w := AsyncTaskPool.run evs (AsyncTaskPool.init limit) in
       AsyncTaskPool.enqueued w
       = (AsyncTaskPool.chains w).*1
         ++ AsyncTaskPool.taskQueue (AsyncTaskPool.this w))
  ∧ (∀ (tasksLength : nat) (parallelCount : Z),
       let st := ParalleTask.paralleTask tasksLength parallelCount in
       ParalleTask.called st
       = seq 0 (Z.to_nat (Z.min (Z.max 0 parallelCount)
                                (Z.of_nat tasksLength)))
       ∧ ParalleTask.inflight st = ParalleTask.called st)
  ∧ (∀ (tasksLength : nat) (parallelCount : Z) schedule,
       let st := ParalleTask.run tasksLength schedule
                   (ParalleTask.paralleTask tasksLength parallelCount) in
       ParalleTask.called st = seq 0 (ParalleTask.nextIndex st)
       ∧ ∀ k : nat,
           is_Some (pick k (ParalleTask.inflight st)) →
           ParalleTask.nextIndex st < tasksLength →
           let st' := ParalleTask.step tasksLength k true st in
           ParalleTask.called st'
           = ParalleTask.called st ++ [ParalleTask.nextIndex st]
           ∧ ParalleTask.nextIndex st' = S (ParalleTask.nextIndex st)
           ∧ ParalleTask.nextIndex st ∈ ParalleTask.inflight st').
Proof.
  split; [|split; [|split]].
  - intros p p' started. subst p' started.
    destruct (AsyncTaskPool.runNext p) as [p' started] eqn:E.
    pose proof (AsyncTaskPoolFacts.runNext_length _ _ _ E) as Hlen.
    apply AsyncTaskPoolFacts.runNext_spec
      in E as (_ & _ & _ & _ & Hq & Hr & _).
    done.
  - intros evs w.
    apply (AsyncTaskPool.inv_fifo limit), AsyncTaskPoolFacts.reachable_inv,
      AsyncTaskPoolFacts.reachable_events.
  - intros tasksLength parallelCount st. subst st.
    destruct tasksLength as [|n].
    + unfold ParalleTask.paralleTask. cbn [Nat.eqb ParalleTask.called
        ParalleTask.inflight].
      by replace (Z.to_nat (Z.min (Z.max 0 parallelCount) (Z.of_nat 0)))
        with 0 by lia.
    + by rewrite ParalleTaskRunsFacts.paralleTask_initial by lia.
  - intros tasksLength parallelCount schedule st. split.
    + apply ParalleTaskFacts.paralleTask_ordered.
    + intros k [x Hx] Hlt st'. subst st'.
      unfold ParalleTask.step. rewrite Hx.
      unfold ParalleTask.onFulfilled.
      cbn [ParalleTask.nextIndex ParalleTask.finishCount ParalleTask.resolved
           ParalleTask.called ParalleTask.inflight].
      destruct (Nat.ltb_spec (ParalleTask.nextIndex st) tasksLength); [|lia].
      unfold ParalleTask._run.
      cbn [ParalleTask.nextIndex ParalleTask.finishCount ParalleTask.resolved
           ParalleTask.called ParalleTask.inflight].
      split; [done|]. split; [done|].
      apply elem_of_app. right. apply list_elem_of_singleton. done.
Qed.



(** C9: once the pool has drained, every later [awaitAll] ([waitForAll])
    returns the same [results], whatever was attempted in between, and no
    task is called again: two calls in a row leave the pool object and the
    list of task calls as they were and resolve both promises with the
    same array. *)
Theorem C9_awaitAll_idempotent (T : Type) (limit : Z) :
  (∀ (evs evs' : list (AsyncTaskPool.event T)) (k : nat),
     let w := AsyncTaskPool.run evs (AsyncTaskPool.init limit) in
     AsyncTaskPool.finished (AsyncTaskPool.this w) = true →
     let snapshot := AsyncTaskPool.results (AsyncTaskPool.this w) in
     let w2 := AsyncTaskPool.step AsyncTaskPool.AwaitAll
                 (AsyncTaskPool.step AsyncTaskPool.AwaitAll w) in
     AsyncTaskPool.awaitAll k (AsyncTaskPool.this (AsyncTaskPool.run evs' w))
     = (AsyncTaskPool.this w, Some snapshot)
     ∧ AsyncTaskPool.chains (AsyncTaskPool.run evs' w)
       = AsyncTaskPool.chains w
     ∧ AsyncTaskPool.this w2 = AsyncTaskPool.this w
     ∧ AsyncTaskPool.chains w2 = AsyncTaskPool.chains w
     ∧ AsyncTaskPool.resolved w2
       = AsyncTaskPool.resolved w
         ++ [(AsyncTaskPool.awaited w, snapshot);
             (S (AsyncTaskPool.awaited w), snapshot)])
  ∧ (∀ p (evs evs' : list (AsyncTaskPoolLoop.event T)),
       AsyncTaskPoolLoop.new limit = Normal p →
       let w := AsyncTaskPoolLoop.run evs (AsyncTaskPoolLoop.World p []) in
       AsyncTaskPoolLoop.allCompleted (AsyncTaskPoolLoop.this w) = true →
       AsyncTaskPoolLoop.waitForAll
         (AsyncTaskPoolLoop.this (AsyncTaskPoolLoop.run evs' w))
       = Some (AsyncTaskPoolLoop.results (AsyncTaskPoolLoop.this w))
       ∧ AsyncTaskPoolLoop.calls (AsyncTaskPoolLoop.run evs' w)
         = AsyncTaskPoolLoop.calls w).
Proof.
  split.
  - intros evs evs' k w Hf snapshot w2.
    pose proof (AsyncTaskPoolFacts.reachable_inv _ _
                  (AsyncTaskPoolFacts.reachable_events limit evs)) as I.
    fold w in I.
    destruct (AsyncTaskPoolFacts.finished_run _ evs' _ I Hf) as (Ht & Hc & _).
    rewrite Ht, Hc. unfold AsyncTaskPool.awaitAll. rewrite Hf.
    repeat split; try done.
    all: unfold w2, AsyncTaskPool.step, AsyncTaskPool.awaitAll; rewrite Hf;
      simpl; rewrite ?Hf; simpl; try done.
    by rewrite <- app_assoc.
  - intros p evs evs' Hnew w Hf.
    pose proof (AsyncTaskPoolLoopFacts.loop_reachable_inv _ _
                  (AsyncTaskPoolLoopFacts.loop_reachable_events limit p evs
                     Hnew)) as I.
    fold w in I.
    rewrite (AsyncTaskPoolLoopFacts.completed_run _ evs' _ I Hf).
    split; [|done].
    unfold AsyncTaskPoolLoop.waitForAll.
    by rewrite (AsyncTaskPoolLoop.inv_promise _ _ I), Hf.
Qed.

Lemma C9_witness :
  (let w := AsyncTaskPool.run Examples.three_adds_done
              (AsyncTaskPool.init 2) in
   AsyncTaskPool.awaitAll 1
     (AsyncTaskPool.this (AsyncTaskPool.run [AsyncTaskPool.AwaitAll] w))
   = (AsyncTaskPool.this w,
      Some (AsyncTaskPool.results (AsyncTaskPool.this w))))
  ∧ (let w := AsyncTaskPoolLoop.run Examples.one_cycle_loop
                Examples.fresh_loop in
     AsyncTaskPoolLoop.waitForAll
       (AsyncTaskPoolLoop.this
          (AsyncTaskPoolLoop.run [AsyncTaskPoolLoop.AddTask 2] w))
     = Some (AsyncTaskPoolLoop.results (AsyncTaskPoolLoop.this w))).
Proof.
  pose proof (C9_awaitAll_idempotent nat 2) as [Ha Hb].
  split.
  - assert (Hf : AsyncTaskPool.finished
                   (AsyncTaskPool.this
                      (AsyncTaskPool.run Examples.three_adds_done
                         (AsyncTaskPool.init 2))) = true)
      by (vm_compute; reflexivity).
    destruct (Ha Examples.three_adds_done [AsyncTaskPool.AwaitAll] 1 Hf)
      as (H1 & _).
    exact H1.
  - destruct (Hb _ Examples.one_cycle_loop [AsyncTaskPoolLoop.AddTask 2]
                eq_refl eq_refl) as (H1 & _).
    exact H1.
Defined.


(** What [runConcurrently] resolves with: one entry per task, the entry of
    a task that fulfilled being [{ success: true, data }], the entry of a
    task that rejected [{ success: false, error }] with the error made an
    [Error]. *)
Lemma runConcurrently_entries (T : Type) (tasks : list (outcome T))
    (maxConcurrent : Z) (schedule : list nat)
    (results : list (option (RunConcurrently.TaskResult T))) :
  (1 ≤ maxConcurrent)%Z →
  RunConcurrently.runConcurrently tasks maxConcurrent schedule
  = Some (Normal results) →
  length results = length tasks
  ∧ ∀ i o, tasks !! i = Some o →
      results !! i
      = Some (Some
          match o with
          | Fulfilled value =>
              RunConcurrently.mkTaskResult true (Some value) None
          | Rejected (ErrorObject message) =>
              RunConcurrently.mkTaskResult false None
                (Some (ErrorObject message))
          | Rejected (OtherValue text) =>
              RunConcurrently.mkTaskResult false None
                (Some (ErrorObject text))
          end).
Proof.
  intros Hmax E.
  destruct (RunConcurrentlyFacts.runConcurrently_spec tasks maxConcurrent
              schedule Hmax) as [[H1|H1] _]; rewrite H1 in E; [done|].
  injection E as <-. split; [by rewrite length_fmap|].
  intros i o Hi. rewrite list_lookup_fmap, Hi. by destruct o as [v|[m|t]].
Qed.

(** C10: for every task array, every [maxConcurrent >= 1] and every order
    in which the tasks settle, the promise returned by [runConcurrently] is
    either still pending or resolved with an array that has exactly one
    entry per task; the entry at index [i] is [{ success: true, data }]
    with the value of [tasks[i]] when that task fulfilled, and
    [{ success: false, error }] with its error (made an [Error] if it was
    not one) when it rejected.  Once the workers have taken
    [2 * tasks.length] steps the promise is resolved. *)
Theorem C10_results_aligned_with_tasks (T : Type) (tasks : list (outcome T))
    (maxConcurrent : Z) (schedule : list nat) :
  (1 ≤ maxConcurrent)%Z →
  (RunConcurrently.runConcurrently tasks maxConcurrent schedule = None
   ∨ ∃ results,
       RunConcurrently.runConcurrently tasks maxConcurrent schedule
       = Some (Normal results)
       ∧ length results = length tasks
       ∧ ∀ i o, tasks !! i = Some o →
           results !! i
           = Some (Some
               match o with
               | Fulfilled value =>
                   RunConcurrently.mkTaskResult true (Some value) None
               | Rejected (ErrorObject message) =>
                   RunConcurrently.mkTaskResult false None
                     (Some (ErrorObject message))
               | Rejected (OtherValue text) =>
                   RunConcurrently.mkTaskResult false None
                     (Some (ErrorObject text))
               end))
  ∧ (2 * length tasks ≤ length schedule →
     RunConcurrently.runConcurrently tasks maxConcurrent schedule ≠ None).
Proof.
  intros Hmax.
  destruct (RunConcurrentlyFacts.runConcurrently_spec tasks maxConcurrent
              schedule Hmax) as [H1 H2].
  split.
  - destruct H1 as [H1|H1]; [by left|]. right.
    eexists. split; [exact H1|].
    by apply (runConcurrently_entries T tasks maxConcurrent schedule).
  - intros Hlen. by rewrite (H2 Hlen).
Qed.

Lemma C10_witness :
  ∃ results,
    RunConcurrently.runConcurrently Examples.mixed 2 Examples.zigzag
    = Some (Normal results)
    ∧ length results = length Examples.mixed
    ∧ results !! 0
      = Some (Some (RunConcurrently.mkTaskResult true (Some 10) None))
    ∧ results !! 1
      = Some (Some (RunConcurrently.mkTaskResult false None
                      (Some (ErrorObject "timeout")))).
Proof.
  destruct (C10_results_aligned_with_tasks nat Examples.mixed 2
              Examples.zigzag ltac:(lia)) as [H1 H2].
  assert (Hlen : 2 * length Examples.mixed ≤ length Examples.zigzag)
    by (simpl; lia).
  destruct H1 as [H1|(results & E & Hl & Hent)]; [destruct (H2 Hlen H1)|].
  exists results. split; [exact E|]. split; [exact Hl|]. split.
  - exact (Hent 0 (Fulfilled 10) eq_refl).
  - exact (Hent 1 (Rejected (OtherValue "timeout")) eq_refl).
Defined.






(** C8, on the input where it fails: with the same closure at indices 0
    and 1, both failing and then both succeeding on retry,
    [retryFailedTasks] files both successes under index 1 (the second
    overwrites the first) and index 0 is left with no outcome at all:
    [taskIndices] is keyed by the closure, so one closure can remember only
    one original index. *)
Theorem C8_same_closure_twice_loses_index :
  TaskExecutor.runTasks Examples.same_twice Examples.first_round
    Examples.in_order
  = Some ([TaskExecutor.mkTaskResult false 0 None (Some (ErrorObject "fail"));
           TaskExecutor.mkTaskResult false 1 None (Some (ErrorObject "fail"))],
          TaskExecutor.mkState [] [(0, 7); (1, 7)])
  ∧ TaskExecutor.retryFailedTasks
      (TaskExecutor.mkState [] [(0, 7); (1, 7)]) Examples.second_round
      Examples.in_order
    = Some ([TaskExecutor.mkTaskResult true 1 (Some 10) None;
             TaskExecutor.mkTaskResult true 1 (Some 11) None],
            TaskExecutor.mkState [(1, 11)] [])
  ∧ TaskExecutor.Map_get 0 [(1, 11)] = None.
Proof. vm_compute. done. Qed.


(** * Further properties of the code *)

(** ** Lists *)

Lemma filter_none {A} (P : A → Prop) `{∀ x, Decision (P x)} (l : list A) :
  Forall (λ x, ¬ P x) l → filter P l = [].
Proof.
  induction 1 as [|x l Hx _ IH]; [done|].
  by rewrite filter_cons_False.
Qed.

Lemma filter_all {A} (P : A → Prop) `{∀ x, Decision (P x)} (l : list A) :
  Forall P l → filter P l = l.
Proof.
  induction 1 as [|x l Hx _ IH]; [done|].
  rewrite filter_cons_True by done. by rewrite IH.
Qed.

Lemma filter_split {A} (f : A → bool) (l : list A) :
  length (filter (λ x, f x = true) l) + length (filter (λ x, f x = false) l)
  = length l.
Proof.
  induction l as [|x l IH]; [done|].
  destruct (f x) eqn:E.
  - rewrite filter_cons_True, filter_cons_False by congruence. simpl. lia.
  - rewrite filter_cons_False, filter_cons_True by congruence. simpl. lia.
Qed.

Lemma count_le_length {A} (f : A → bool) (l : list A) :
  (count f l ≤ Z.of_nat (length l))%Z.
Proof.
  induction l as [|x l IH]; [done|].
  cbn [count length]. destruct (f x); lia.
Qed.

(** ** PriorityEventEmitter *)

Module PriorityEventEmitterFacts.
Import PriorityEventEmitter.

Implicit Types (this : emitter) (ls : list PriorityListener).

Lemma on_eq event l p this :
  on event l p this
  = Emitter (<[event:=sort byPriority
                        (listenersOf event this ++ [mkPriorityListener l p])]>
               (listeners this)).
Proof.
  unfold on, listenersOf. destruct (listeners this !! event) as [ls|] eqn:E.
  - cbn zeta. by rewrite E.
  - cbn zeta. rewrite lookup_insert_eq, insert_insert_eq. done.
Qed.

Lemma off_eq event l this :
  off event l this
  = match filter (λ pl, listener pl ≠ l) (listenersOf event this) with
    | [] => Emitter (delete event (listeners this))
    | ls => Emitter (<[event:=ls]> (listeners this))
    end.
Proof.
  unfold off, listenersOf. destruct this as [m]. cbn [listeners].
  destruct (m !! event) as [ls|] eqn:E; csimpl.
  - rewrite lookup_insert_eq. csimpl.
    destruct (filter _ ls) as [|a ls'] eqn:F; csimpl; [|done].
    by rewrite delete_insert_eq.
  - by rewrite delete_id.
Qed.

Lemma sort_insert_head x ls :
  Forall (λ y, (priority y ≤ priority x)%Z) ls →
  sort_insert byPriority x ls = x :: ls.
Proof.
  destruct ls as [|y ls]; [done|]. intros [Hy _]%Forall_cons. simpl.
  unfold byPriority.
  destruct (Z.leb_spec (priority y - priority x) 0); [done|lia].
Qed.

Lemma sort_descending ls : descending ls → sort byPriority ls = ls.
Proof.
  induction 1 as [|a l Hl IH Ha]; [done|]. simpl.
  fold (sort byPriority l). rewrite IH. by apply sort_insert_head.
Qed.

(** Where [push] and [sort] leave a new entry: behind the entries of the
    same or a higher priority, before those of a lower one. *)
Lemma sort_push ls x :
  descending ls →
  sort byPriority (ls ++ [x])
  = filter (λ y, (priority x ≤ priority y)%Z) ls
    ++ x :: filter (λ y, (priority y < priority x)%Z) ls.
Proof.
  induction 1 as [|a l Hl IH Ha]; [done|].
  change (sort byPriority ((a :: l) ++ [x]))
    with (sort_insert byPriority a (sort byPriority (l ++ [x]))).
  rewrite IH. destruct (decide (priority x ≤ priority a)%Z) as [Hx|Hx].
  - rewrite filter_cons_True by done. rewrite filter_cons_False by lia.
    apply sort_insert_head. rewrite Forall_app, Forall_cons.
    split; [|split; [done|]].
    + apply Forall_forall. intros y [_ Hy]%list_elem_of_filter.
      by eapply Forall_forall in Ha.
    + apply Forall_forall. intros y [_ Hy]%list_elem_of_filter.
      by eapply Forall_forall in Ha.
  - rewrite filter_cons_False by done. rewrite filter_cons_True by lia.
    rewrite filter_none, filter_all.
    + simpl. unfold byPriority at 1.
      destruct (Z.leb_spec (priority x - priority a) 0); [lia|].
      by rewrite sort_insert_head.
    + eapply Forall_impl; [exact Ha|]. simpl. lia.
    + eapply Forall_impl; [exact Ha|]. simpl. lia.
Qed.

Lemma descending_filter (P : PriorityListener → Prop) `{∀ x, Decision (P x)}
    ls :
  descending ls → descending (filter P ls).
Proof.
  induction 1 as [|a l Hl IH Ha]; [constructor|].
  destruct (decide (P a)).
  - rewrite filter_cons_True by done. constructor; [done|].
    apply Forall_forall. intros y [_ Hy]%list_elem_of_filter.
    by eapply Forall_forall in Ha.
  - by rewrite filter_cons_False.
Qed.

Lemma descending_split ls p :
  descending ls →
  filter (λ y, (p ≤ priority y)%Z) ls ++ filter (λ y, (priority y < p)%Z) ls
  = ls.
Proof.
  induction 1 as [|a l Hl IH Ha]; [done|].
  destruct (decide (p ≤ priority a)%Z) as [Hx|Hx].
  - rewrite filter_cons_True by done. rewrite filter_cons_False by lia.
    simpl. by rewrite IH.
  - rewrite filter_cons_False by done. rewrite filter_cons_True by lia.
    rewrite filter_none, filter_all; [done| |].
    + eapply Forall_impl; [exact Ha|]. simpl. lia.
    + eapply Forall_impl; [exact Ha|]. simpl. lia.
Qed.

Lemma descending_push ls x :
  descending ls → descending (sort byPriority (ls ++ [x])).
Proof.
  intros Hd. rewrite sort_push by done.
  pose proof (descending_filter (λ y, (priority x ≤ priority y)%Z) ls Hd) as H1.
  pose proof (descending_filter (λ y, (priority y < priority x)%Z) ls Hd) as H2.
  revert H1.
  assert (Forall (λ y, (priority x ≤ priority y)%Z)
            (filter (λ y, (priority x ≤ priority y)%Z) ls)) as Hge.
  { apply Forall_forall. by intros y [? _]%list_elem_of_filter. }
  assert (Forall (λ y, (priority y < priority x)%Z)
            (filter (λ y, (priority y < priority x)%Z) ls)) as Hlt.
  { apply Forall_forall. by intros y [? _]%list_elem_of_filter. }
  revert Hge. generalize (filter (λ y, (priority x ≤ priority y)%Z) ls).
  intros l1. induction l1 as [|a l1 IH]; intros Hge H1.
  - simpl. constructor; [done|]. eapply Forall_impl; [exact Hlt|]. simpl. lia.
  - apply Forall_cons in Hge as [Ha Hge]. inversion H1 as [|? ? Hs Hf]; subst.
    simpl. constructor; [by apply IH|].
    rewrite Forall_app, Forall_cons. split; [done|split; [done|]].
    eapply Forall_impl; [exact Hlt|]. simpl. lia.
Qed.

Lemma descending_lookup ls i j a b :
  descending ls → i < j → ls !! i = Some a → ls !! j = Some b →
  (priority b ≤ priority a)%Z.
Proof.
  intros Hd. revert i j. induction Hd as [|x l Hl IH Hx]; intros i j Hij Hi Hj.
  - done.
  - destruct j as [|j]; [lia|]. destruct i as [|i]; simplify_eq/=.
    + eapply Forall_forall in Hx; [exact Hx|]. by eapply list_elem_of_lookup_2.
    + eapply IH; [|done..]. lia.
Qed.

Lemma wellFormed_new : wellFormed new.
Proof.
  intros event ls. unfold new. cbn [listeners]. by rewrite lookup_empty.
Qed.

Lemma listenersOf_descending event this :
  wellFormed this → descending (listenersOf event this).
Proof.
  intros Hw. unfold listenersOf.
  destruct (listeners this !! event) as [ls|] eqn:E; [|constructor].
  by apply (Hw _ _ E).
Qed.

Lemma wellFormed_step c this : wellFormed this → wellFormed (step c this).
Proof.
  intros Hw. destruct c as [event l p|event l|event]; cbn [step].
  - rewrite on_eq. intros event' ls. cbn [listeners].
    destruct (decide (event' = event)) as [->|Hne].
    + rewrite lookup_insert_eq. intros [= <-]. split.
      * rewrite sort_push by by apply listenersOf_descending.
        by destruct (filter _ _).
      * apply descending_push. by apply listenersOf_descending.
    + rewrite lookup_insert_ne by done. apply Hw.
  - rewrite off_eq.
    destruct (filter _ (listenersOf event this)) as [|a ls'] eqn:F.
    + intros event' ls. cbn [listeners].
      destruct (decide (event' = event)) as [->|Hne].
      * by rewrite lookup_delete_eq.
      * rewrite lookup_delete_ne by done. apply Hw.
    + intros event' ls. cbn [listeners].
      destruct (decide (event' = event)) as [->|Hne].
      * rewrite lookup_insert_eq. intros [= <-]. split; [done|].
        rewrite <- F. apply descending_filter. by apply listenersOf_descending.
      * rewrite lookup_insert_ne by done. apply Hw.
  - intros event' ls. unfold removeAllListeners. cbn [listeners].
    destruct (decide (event' = event)) as [->|Hne].
    + by rewrite lookup_delete_eq.
    + rewrite lookup_delete_ne by done. apply Hw.
Qed.

Lemma wellFormed_run cs this : wellFormed this → wellFormed (run cs this).
Proof.
  revert this. induction cs as [|c cs IH]; intros this Hw; [done|].
  apply IH. by apply wellFormed_step.
Qed.

Section WithT.
Context {T : Type}.
Implicit Types (react : list Listener → Listener → T → reaction).

Lemma emit_loop_skip react data ls log :
  emit_loop react data ls true log = (log, Normal ()).
Proof. by destruct ls. Qed.

(** The loop calls the first [k] listeners, where [k] is the position
    after the first one that skips or throws. *)
Lemma emit_loop_spec react data ls log0 :
  ∃ k, k ≤ length ls
    ∧ (emit_loop react data ls false log0).1
      = log0 ++ (listener <$> take k ls)
    ∧ (∀ i, i < length ls →
        (i < k ↔ ∀ j pl, j < i → ls !! j = Some pl →
                  react (log0 ++ (listener <$> take j ls)) (listener pl) data
                  = Returns false))
    ∧ ∀ e, (emit_loop react data ls false log0).2 = Throw e ↔
           ∃ j pl, k = S j ∧ ls !! j = Some pl
                   ∧ react (log0 ++ (listener <$> take j ls)) (listener pl)
                       data = Throws e.
Proof.
  revert log0. induction ls as [|pl rest IH]; intros log0.
  - exists 0. split; [done|]. split; [by rewrite app_nil_r|].
    split; [simpl; lia|]. intros e. split; [done|]. by intros (j & ? & ? & _).
  - cbn [emit_loop].
    destruct (react log0 (listener pl) data) as [[|]|e0] eqn:R.
    + exists 1. split; [simpl; lia|]. rewrite emit_loop_skip. cbn [fst snd].
      split; [done|]. split.
      * intros i Hi. split; [intros; lia|].
        intros H. destruct i as [|i]; [lia|].
        specialize (H 0 pl ltac:(lia) eq_refl). cbn in H.
        rewrite app_nil_r in H. congruence.
      * intros e. split; [done|]. intros (j & pl' & [= <-] & [= <-] & H).
        cbn in H. rewrite app_nil_r in H. congruence.
    + destruct (IH (log0 ++ [listener pl])) as (k & Hk & Hlog & Hiff & Hthrow).
      exists (S k). split; [simpl; lia|]. split; [|split].
      * rewrite Hlog. csimpl. by rewrite <- app_assoc.
      * intros [|i] Hi.
        -- split; [intros _ j pl' Hj; lia|lia].
        -- simpl in Hi. rewrite <- Nat.succ_lt_mono, (Hiff i) by lia.
           split.
           ++ intros H [|j] pl' Hj Hl; simplify_eq/=.
              ** by rewrite app_nil_r.
              ** specialize (H j pl' ltac:(lia) Hl).
                 by rewrite <- app_assoc in H.
           ++ intros H j pl' Hj Hl.
              specialize (H (S j) pl' ltac:(lia) Hl). csimpl in H.
              by rewrite <- app_assoc.
      * intros e. rewrite Hthrow. split.
        -- intros (j & pl' & -> & Hl & H). exists (S j), pl'.
           split; [done|]. split; [done|]. csimpl.
           by rewrite <- app_assoc in H.
        -- intros (j & pl' & [= ->] & Hl & H). destruct j as [|j].
           ++ simplify_eq/=. rewrite app_nil_r in H. congruence.
           ++ exists j, pl'. split; [done|]. split; [done|].
              csimpl in H. by rewrite <- app_assoc.
    + exists 1. split; [simpl; lia|]. cbn [fst snd].
      split; [done|]. split.
      * intros i Hi. split; [intros; lia|].
        intros H. destruct i as [|i]; [lia|].
        specialize (H 0 pl ltac:(lia) eq_refl). cbn in H.
        rewrite app_nil_r in H. congruence.
      * intros e. split.
        -- intros [= <-]. exists 0, pl. split; [done|]. split; [done|].
           cbn. by rewrite app_nil_r.
        -- intros (j & pl' & [= <-] & [= <-] & H).
           cbn in H. rewrite app_nil_r in H. congruence.
Qed.

Lemma emit_log_prefix react event data this :
  ∃ k, (emit react event data this).1
       = listener <$> take k (listenersOf event this).
Proof.
  unfold emit, listenersOf.
  destruct (listeners this !! event) as [ls|]; cbn [default].
  - destruct (emit_loop_spec react data ls []) as (k & _ & Hlog & _).
    by exists k.
  - by exists 0.
Qed.

End WithT.
End PriorityEventEmitterFacts.

Section EmitterProperties.
Import PriorityEventEmitter PriorityEventEmitterFacts.

(** X1: in every emitter built from [new] by calls of [on], [off] and
    [removeAllListeners], the array kept under an event name is never
    empty and is sorted by descending priority. *)
Theorem emitter_listeners_sorted (cs : list call) (event : string)
    (ls : list PriorityListener) :
  listeners (run cs new) !! event = Some ls →
  ls ≠ []
  ∧ ∀ i j a b, i < j → ls !! i = Some a → ls !! j = Some b →
               (priority b ≤ priority a)%Z.
Proof.
  intros E.
  destruct (wellFormed_run cs new wellFormed_new event ls E) as [Hne Hd].
  split; [done|]. intros i j a b. by apply descending_lookup.
Qed.

Lemma emitter_listeners_sorted_witness :
  FurtherExamples.demo_listeners ≠ []
  ∧ ∀ i j a b, i < j →
      FurtherExamples.demo_listeners !! i = Some a →
      FurtherExamples.demo_listeners !! j = Some b →
      (priority b ≤ priority a)%Z.
Proof.
  apply (emitter_listeners_sorted FurtherExamples.demo "404").
  vm_compute. reflexivity.
Defined.

(** X2: [emit] calls the listeners of the event in the order of the array,
    and the listener at position [i] is called exactly when every listener
    before it has returned without calling [skipRemaining]: the first
    listener that calls [skipRemaining] or throws is the last one called.
    [emit] throws exactly when the last listener called has thrown. *)
Theorem emit_calls_until_skip (T : Type)
    (react : list Listener → Listener → T → reaction)
    (event : string) (data : T) (this : emitter) :
  let ls := listenersOf event this in
  let log := (emit react event data this).1 in
  log = listener <$> take (length log) ls
  ∧ (∀ i pl, ls !! i = Some pl →
       (i < length log ↔
        ∀ j pl', j < i → ls !! j = Some pl' →
                 react (listener <$> take j ls) (listener pl') data
                 = Returns false))
  ∧ (∀ e, (emit react event data this).2 = Throw e ↔
          ∃ j pl, length log = S j ∧ ls !! j = Some pl
                  ∧ react (listener <$> take j ls) (listener pl) data
                    = Throws e).
Proof.
  unfold emit, listenersOf.
  destruct (listeners this !! event) as [ls|] eqn:E; cbn [default].
  - destruct (emit_loop_spec react data ls [])
      as (k & Hk & Hlog & Hiff & Hthrow).
    cbn zeta. rewrite Hlog. cbn [app].
    rewrite length_fmap, length_take, Nat.min_l by done.
    split; [done|]. split.
    + intros i pl Hi. apply Hiff. by eapply lookup_lt_Some.
    + intros e. by rewrite Hthrow.
  - cbn zeta. cbn [fst snd]. split; [done|]. split; [done|].
    intros e. split; [done|]. by intros (j & ? & ? & _).
Qed.

(** X3: [on] puts the new listener behind the listeners of the event that
    have the same or a higher priority and before those with a lower one;
    the order of the others and the listeners of other events are
    unchanged. *)
Theorem on_places_by_priority (cs : list call) (event : string) (l : Listener)
    (p : Z) :
  let this := run cs new in
  let old := listenersOf event this in
  listeners (on event l p this) !! event
  = Some (filter (λ y, (p ≤ priority y)%Z) old
          ++ mkPriorityListener l p :: filter (λ y, (priority y < p)%Z) old)
  ∧ ∀ event', event' ≠ event →
      listeners (on event l p this) !! event' = listeners this !! event'.
Proof.
  intros this old. rewrite on_eq. cbn [listeners]. split.
  - rewrite lookup_insert_eq. f_equal.
    apply (sort_push old (mkPriorityListener l p)).
    apply listenersOf_descending, wellFormed_run, wellFormed_new.
  - intros event' Hne. by rewrite lookup_insert_ne.
Qed.

(** X4: registering a listener that the event does not have yet and
    removing it again gives back the emitter as it was. *)
Theorem on_off_round_trip (cs : list call) (event : string) (l : Listener)
    (p : Z) :
  let this := run cs new in
  (∀ pl, pl ∈ listenersOf event this → listener pl ≠ l) →
  off event l (on event l p this) = this.
Proof.
  intros this Hl.
  assert (wellFormed this) as Hw by apply wellFormed_run, wellFormed_new.
  pose proof (listenersOf_descending event this Hw) as Hd.
  assert (filter (λ pl, listener pl ≠ l) (listenersOf event (on event l p this))
          = listenersOf event this) as Hfil.
  { rewrite on_eq. unfold listenersOf at 1. cbn [listeners].
    rewrite lookup_insert_eq. unfold default, id.
    rewrite sort_push by done.
    rewrite filter_app, filter_cons_False by naive_solver.
    rewrite !(filter_all (λ pl, listener pl ≠ l)).
    - apply descending_split. done.
    - apply Forall_forall. intros y [_ Hy]%list_elem_of_filter. by apply Hl.
    - apply Forall_forall. intros y [_ Hy]%list_elem_of_filter. by apply Hl. }
  rewrite off_eq, Hfil, on_eq. cbn [listeners]. unfold listenersOf.
  destruct (listeners this !! event) as [ls|] eqn:E; cbn [default].
  - destruct (Hw _ _ E) as [Hne _]. destruct ls as [|a ls]; [done|].
    unfold id. rewrite insert_insert_eq, insert_id by done. by destruct this.
  - rewrite delete_insert_eq, delete_id by done. by destruct this.
Qed.

Lemma on_off_round_trip_witness :
  off "404" 7 (on "404" 7 5 (run FurtherExamples.demo new))
  = run FurtherExamples.demo new.
Proof.
  apply (on_off_round_trip FurtherExamples.demo "404" 7 5).
  assert (listenersOf "404" (run FurtherExamples.demo new)
          = FurtherExamples.demo_listeners) as Hdemo
    by (vm_compute; reflexivity).
  rewrite Hdemo. unfold FurtherExamples.demo_listeners. intros pl Hpl.
  repeat (apply elem_of_cons in Hpl; destruct Hpl as [->|Hpl]; [done|]).
  by apply elem_of_nil in Hpl.
Defined.

(** X5: [off] removes every registration of the listener for the event,
    whatever its priority, so that [emit] does not call it any more; the
    other listeners of the event keep their order and other events keep
    their listeners.  After [removeAllListeners] [emit] calls nothing. *)
Theorem off_removes_listener (T : Type)
    (react : list Listener → Listener → T → reaction)
    (event : string) (data : T) (l : Listener) (this : emitter) :
  (let log := (emit react event data (off event l this)).1 in l ∉ log)
  ∧ listenersOf event (off event l this)
    = filter (λ pl, listener pl ≠ l) (listenersOf event this)
  ∧ (∀ event', event' ≠ event →
       listeners (off event l this) !! event' = listeners this !! event')
  ∧ emit react event data (removeAllListeners event this) = ([], Normal ()).
Proof.
  assert (listenersOf event (off event l this)
          = filter (λ pl, listener pl ≠ l) (listenersOf event this)) as Hf.
  { rewrite off_eq. destruct (filter _ (listenersOf event this)) eqn:F.
    - unfold listenersOf. cbn [listeners]. by rewrite lookup_delete_eq.
    - unfold listenersOf. cbn [listeners]. by rewrite lookup_insert_eq. }
  split; [|split; [done|split]].
  - destruct (emit_log_prefix react event data (off event l this))
      as [k Hlog].
    cbn zeta. rewrite Hlog, Hf.
    intros (pl & -> & Hin)%list_elem_of_fmap.
    apply elem_of_take in Hin as (i & Hin%list_elem_of_lookup_2 & _).
    by apply list_elem_of_filter in Hin as [Hne _].
  - intros event' Hne. rewrite off_eq.
    destruct (filter _ (listenersOf event this)); cbn [listeners].
    + by rewrite lookup_delete_ne.
    + by rewrite lookup_insert_ne.
  - unfold emit, removeAllListeners. cbn [listeners].
    by rewrite lookup_delete_eq.
Qed.

(** The usage example of the source file: only the listener of priority
    10 is called; once it is removed, the other two are. *)
Example emitter_demo :
  let this := run FurtherExamples.demo new in
  (emit FurtherExamples.demo_react "404" "Page not found"%string this).1
  = [FurtherExamples.high]
  ∧ (emit FurtherExamples.demo_react "404" "x"%string
       (off "404" FurtherExamples.high this)).1
    = [FurtherExamples.medium; FurtherExamples.low].
Proof. vm_compute. done. Qed.

End EmitterProperties.

(** ** paralleTask: bounds, completion, rejection *)

Section ParalleTaskProperties.
Import ParalleTask ParalleTaskRuns ParalleTaskRunsFacts.

(** X11: [paralleTask] never has more than [parallelCount] tasks in
    flight, never reads [tasks] past its end, and counts as finished only
    tasks that it has called. *)
Theorem paralleTask_in_flight_bound (n : nat) (parallelCount : Z)
    (schedule : list (nat * bool)) :
  let st := run n schedule (paralleTask n parallelCount) in
  (Z.of_nat (length (inflight st)) ≤ Z.max 0 parallelCount)%Z
  ∧ nextIndex st ≤ n
  ∧ finishCount st + length (inflight st) ≤ nextIndex st.
Proof.
  intros st.
  destruct (paralle_inv_run n parallelCount schedule _
              (paralle_inv_init n parallelCount)) as [Hs Hi Hf _].
  fold st in Hs, Hi, Hf. unfold initialCalls in Hf. lia.
Qed.

(** X12: when no task rejects, with [parallelCount >= 1] and a task list
    that is not empty: after [j] settlements [finishCount] is [j]; the
    promise is pending, with a task in flight, until the last task has
    fulfilled; it is then resolved with the final message, every task
    having been called once, in array order. *)
Theorem paralleTask_resolves_when_all_fulfil (n : nat) (parallelCount : Z)
    (schedule : list (nat * bool)) :
  (1 ≤ parallelCount)%Z → 1 ≤ n →
  Forall (λ kb : nat * bool, kb.2 = true) schedule →
  let st := run n schedule (paralleTask n parallelCount) in
  finishCount st = length schedule `min` n
  ∧ (length schedule < n → resolved st = None ∧ inflight st ≠ [])
  ∧ (n ≤ length schedule →
     st = State n n (Some "所有任务都完成了"%string) (seq 0 n) []).
Proof.
  intros HP Hn Hall st.
  destruct (fulfilled_run n parallelCount schedule HP Hn Hall)
    as (Hf & Hi & Hl & Hr & Hc).
  fold st in Hf, Hi, Hl, Hr, Hc.
  assert (1 ≤ initialCalls n parallelCount) as Hm by (unfold initialCalls; lia).
  split; [done|]. split.
  - intros Hlt. destruct (Nat.ltb_spec (length schedule `min` n) n); [|lia].
    split; [done|]. intros E. rewrite E in Hl. simpl in Hl. lia.
  - intros Hge. destruct (Nat.ltb_spec (length schedule `min` n) n); [lia|].
    destruct st as [ni fc rs cl inf]; simpl in *.
    assert (ni = n) as Hni by lia. clear Hi. subst ni.
    assert (inf = []) as -> by (apply length_zero_iff_nil; lia).
    f_equal; (lia || done).
Qed.

Lemma paralleTask_resolves_when_all_fulfil_witness :
  let st := run 3 [(1, true); (0, true); (0, true)] (paralleTask 3 2) in
  finishCount st = length [(1, true); (0, true); (0, true)] `min` 3
  ∧ (length [(1, true); (0, true); (0, true)] < 3 →
     resolved st = None ∧ inflight st ≠ [])
  ∧ (3 ≤ length [(1, true); (0, true); (0, true)] →
     st = State 3 3 (Some "所有任务都完成了"%string) (seq 0 3) []).
Proof.
  apply (paralleTask_resolves_when_all_fulfil 3 2); [lia|lia|].
  repeat constructor.
Defined.

(** X13: one rejection blocks [paralleTask] for good: the [then] callback
    of a rejected task never runs, so whatever happens before and after,
    the returned promise is never resolved. *)
Theorem paralleTask_rejection_blocks (n : nat) (parallelCount : Z)
    (before after : list (nat * bool)) (k : nat) :
  inflight (run n before (paralleTask n parallelCount)) ≠ [] →
  resolved (run n (before ++ (k, false) :: after) (paralleTask n parallelCount))
  = None.
Proof.
  intros Hne. rewrite paralle_run_app.
  set (st := run n before (paralleTask n parallelCount)) in *.
  destruct (paralle_inv_run n parallelCount before _
              (paralle_inv_init n parallelCount)) as [Hs Hi Hf Hr].
  fold st in Hs, Hi, Hf, Hr. destruct Hr as [Hr|Hr]; [|done].
  change (run n ((k, false) :: after) st)
    with (run n after (step n k false st)).
  apply blocked_run. unfold step.
  destruct (pick_Some k (inflight st) Hne) as (x & Hp & _). rewrite Hp.
  apply pick_length in Hp as [_ Hlen].
  assert (1 ≤ length (inflight st)) by (destruct (inflight st); [done|simpl; lia]).
  unfold blocked. cbn [nextIndex finishCount resolved called inflight].
  split; [lia|]. split; [lia|done].
Qed.

Lemma paralleTask_rejection_blocks_witness :
  resolved (run 3 ([(0, true)] ++ (0, false) :: [(0, true); (0, true)])
              (paralleTask 3 2)) = None.
Proof.
  apply (paralleTask_rejection_blocks 3 2 [(0, true)] [(0, true); (0, true)] 0).
  vm_compute. discriminate.
Defined.

(** X14: [paralleTask] on an empty task list resolves at once with its
    own message and calls nothing; with [parallelCount <= 0] and tasks to
    run it calls nothing either, and the promise is never resolved. *)
Theorem paralleTask_nothing_to_run (n : nat) (parallelCount : Z)
    (schedule : list (nat * bool)) :
  n = 0 ∨ (parallelCount ≤ 0)%Z →
  let st := run n schedule (paralleTask n parallelCount) in
  called st = []
  ∧ resolved st = (if n =? 0 then Some "当前任务队列为空"%string else None).
Proof.
  intros H st.
  assert (paralleTask n parallelCount
          = State 0 0 (if n =? 0 then Some "当前任务队列为空"%string else None)
                  [] []) as E.
  { destruct n as [|n]; [done|]. destruct H as [|H]; [done|].
    rewrite paralleTask_initial by lia.
    replace (initialCalls (S n) parallelCount) with 0
      by (unfold initialCalls; lia). done. }
  assert (∀ s st0, inflight st0 = [] → run n s st0 = st0) as Hidle.
  { induction s as [|[k b] s IH]; intros st0 E0; [done|].
    simpl. unfold step. rewrite E0. simpl. by apply IH. }
  subst st. rewrite E, Hidle by done. done.
Qed.

Lemma paralleTask_nothing_to_run_witness :
  let st := run 2 [(0, true)] (paralleTask 2 0) in
  called st = []
  ∧ resolved st = (if 2 =? 0 then Some "当前任务队列为空"%string else None).
Proof.
  apply (paralleTask_nothing_to_run 2 0 [(0, true)]). right. lia.
Defined.

End ParalleTaskProperties.

(** ** The pools: order of the calls, free slots, accounting *)

Module RequestPoolOrderFacts.
Import RequestPool RequestPoolOrder RequestPoolFacts.
Section WithT.
Context {T : Type}.
Implicit Types (w : world T) (e : event T).

Lemma statusOf_lt taskId (ts : list (status T)) s :
  statusOf taskId ts = Some s → 1 ≤ taskId ≤ length ts.
Proof.
  destruct taskId as [|k]; [done|]. simpl. intros H%lookup_lt_Some. lia.
Qed.

Lemma statusOf_snoc taskId (ts : list (status T)) s s' :
  statusOf taskId (ts ++ [s]) = Some s' →
  (taskId = S (length ts) ∧ s' = s) ∨ statusOf taskId ts = Some s'.
Proof.
  destruct taskId as [|k]; [done|]. simpl. intros H.
  destruct (decide (k < length ts)).
  - right. by rewrite lookup_app_l in H.
  - left. rewrite lookup_app_r in H by lia.
    destruct (k - length ts) as [|d] eqn:E.
    + simpl in H. injection H as <-. split; [f_equal; lia|done].
    + simpl in H. by destruct d.
Qed.

Lemma fifo_init limit : fifo (init (T:=T) limit) 0.
Proof. split; simpl; try done. by intros [|k] s. Qed.

Lemma fifo_step_add limit w k :
  inv limit w → fifo w k → ∃ k', fifo (step Add w) k'.
Proof.
  intros [Il Ic Ib In Iq Id] [Fs Fq Ft Fb]. unfold step, add.
  destruct (Z.ltb_spec (activeCount (this w)) (maxConcurrent (this w))).
  - assert (requestQueue (this w) = []) as Hq.
    { destruct (requestQueue (this w)) eqn:E; [done|].
      assert (maxConcurrent (this w) ≤ activeCount (this w))%Z by by apply Fb.
      lia. }
    assert (k = length (tasks w)) as ->.
    { rewrite Hq in Fq. destruct (length (tasks w) - k) eqn:E; [lia|done]. }
    exists (S (length (tasks w))).
    split; cbn [this tasks requestQueue maxConcurrent activeCount];
      rewrite ?length_app; simpl.
    + lia.
    + rewrite Hq.
      by replace (length (tasks w) + 1 - S (length (tasks w))) with 0 by lia.
    + intros taskId s [[-> ->]|Hs]%statusOf_snoc.
      * split; [done|lia].
      * pose proof (statusOf_lt _ _ _ Hs). rewrite (Ft _ _ Hs). lia.
    + by rewrite Hq.
  - exists k.
    split; cbn [this tasks requestQueue maxConcurrent activeCount];
      rewrite ?length_app; simpl.
    + lia.
    + rewrite Fq, In.
      replace (length (tasks w) + 1 - k) with (S (length (tasks w) - k)) by lia.
      rewrite seq_S. do 2 f_equal. lia.
    + intros taskId s [[-> ->]|Hs]%statusOf_snoc.
      * split; [lia|done].
      * by apply Ft.
    + intros _. lia.
Qed.

Lemma fifo_step_settle limit taskId o w k :
  inv limit w → fifo w k → ∃ k', fifo (step (Settle taskId o) w) k'.
Proof.
  intros [Il Ic Ib In Iq Id] [Fs Fq Ft Fb]. unfold step.
  destruct (statusOf taskId (tasks w)) as [[| | |]|] eqn:Hs; eauto using Fifo.
  assert (1 ≤ activeCount (this w))%Z as Hpos.
  { rewrite Ic. destruct taskId as [|i]; [done|].
    by eapply (count_lookup_pos isActive). }
  assert (¬ k < taskId) as Hk by (rewrite <- (Ft _ _ Hs); done).
  unfold onFinally, runNext. cbn [requestQueue activeCount maxConcurrent].
  destruct (requestQueue (this w)) as [|next rest] eqn:Hq.
  - exists k.
    split; cbn [this tasks requestQueue activeCount maxConcurrent activate].
    + destruct taskId; simpl; rewrite ?length_insert; done.
    + destruct taskId; simpl; rewrite ?length_insert; done.
    + intros m s Hm. destruct (decide (m = taskId)) as [->|Hne].
      * rewrite (statusOf_setStatus_eq _ _ _ _ Hs) in Hm.
        injection Hm as <-. split; [by destruct o|lia].
      * rewrite statusOf_setStatus_ne in Hm by done. by apply Ft.
    + done.
  - assert (maxConcurrent (this w) ≤ activeCount (this w))%Z as Hbusy
      by by apply Fb.
    assert (activeCount (this w) - 1 < maxConcurrent (this w))%Z as Hfree by lia.
    destruct (Z.ltb_spec (activeCount (this w) - 1) (maxConcurrent (this w)));
      [|lia].
    assert (k < length (tasks w) ∧ next = S k
            ∧ rest = seq (S (S k)) (length (tasks w) - S k)) as (Hlt & -> & ->).
    { destruct (length (tasks w) - k) as [|d] eqn:E; [done|].
      simpl in Fq. injection Fq as -> ->. repeat split; [lia|].
      f_equal. lia. }
    assert (taskId ≠ S k) as Hne by lia.
    exists (S k).
    split; cbn [this tasks requestQueue activeCount maxConcurrent activate].
    + simpl. rewrite length_insert.
      destruct taskId; simpl; rewrite ?length_insert; lia.
    + simpl. rewrite length_insert.
      destruct taskId; simpl; rewrite ?length_insert; done.
    + intros m s Hm. destruct (decide (m = S k)) as [->|Hm'].
      * simpl in Hm. rewrite list_lookup_insert_eq in Hm.
        -- injection Hm as <-. split; [done|lia].
        -- destruct taskId; simpl; rewrite ?length_insert; lia.
      * rewrite statusOf_setStatus_ne in Hm by done.
        destruct (decide (m = taskId)) as [->|Hne'].
        -- rewrite (statusOf_setStatus_eq _ _ _ _ Hs) in Hm.
           injection Hm as <-. split; [by destruct o|lia].
        -- rewrite statusOf_setStatus_ne in Hm by done.
           rewrite (Ft _ _ Hm). lia.
    + intros _. lia.
Qed.

Lemma fifo_reachable limit w : reachable limit w → ∃ k, fifo w k.
Proof.
  induction 1 as [|e w Hr [k IH]].
  - exists 0. apply fifo_init.
  - apply request_reachable_inv in Hr.
    destruct e; [by eapply fifo_step_add|by eapply fifo_step_settle].
Qed.

Lemma settled_step limit e w taskId s :
  inv limit w → statusOf taskId (tasks w) = Some s → isSettled s = true →
  statusOf taskId (tasks (step e w)) = Some s.
Proof.
  intros [Il Ic Ib In Iq Id] Hs Hset. destruct e as [|taskId' o]; simpl.
  - destruct (add (this w)) as [[p i] c]. cbn [tasks]. by apply statusOf_app.
  - destruct (statusOf taskId' (tasks w)) as [[| | |]|] eqn:Hs'; try done.
    destruct (onFinally (this w)) as [p next] eqn:E. cbn [tasks].
    assert (taskId ≠ taskId') as Hne.
    { intros ->. rewrite Hs in Hs'. by injection Hs' as ->. }
    rewrite statusOf_activate_ne.
    + by rewrite statusOf_setStatus_ne.
    + intros ->. unfold onFinally, runNext in E.
      cbn [requestQueue activeCount maxConcurrent] in E.
      destruct (requestQueue (this w)) as [|n' rest] eqn:Hq; [done|].
      destruct (_ <? _)%Z; [|done]. injection E as _ ->.
      assert (statusOf taskId (tasks w) = Some Queued) as Hq'.
      { apply Iq. left. }
      rewrite Hs in Hq'. by injection Hq' as ->.
Qed.

Lemma settled_run limit evs w taskId s :
  reachable limit w → statusOf taskId (tasks w) = Some s →
  isSettled s = true →
  statusOf taskId (tasks (run evs w)) = Some s.
Proof.
  revert w. induction evs as [|e evs IH]; intros w Hr Hs Hset; [done|].
  simpl. apply IH; [by constructor| |done].
  eapply settled_step; [|done..]. by apply request_reachable_inv.
Qed.

Lemma starved_run limit (evs : list (event T)) :
  (limit ≤ 0)%Z →
  ∃ n, run evs (init limit)
       = World (Pool limit 0 (seq 1 n) n) (replicate n Queued).
Proof.
  intros Hl. induction evs as [|e evs [n IH]] using rev_ind.
  - by exists 0.
  - unfold run in *. rewrite fold_left_app, IH. cbn [fold_left].
    destruct e as [|taskId o].
    + exists (S n). unfold step, add.
      cbn [this tasks requestQueue activeCount maxConcurrent taskCounter].
      destruct (Z.ltb_spec 0 limit); [lia|].
      rewrite seq_S, replicate_S_end. done.
    + exists n. unfold step. cbn [this tasks].
      destruct (statusOf taskId (replicate n Queued)) as [s|] eqn:Hs; [|done].
      destruct taskId as [|i]; [done|]. simpl in Hs.
      apply lookup_replicate in Hs as [-> _]. done.
Qed.

End WithT.
End RequestPoolOrderFacts.

Module AsyncTaskPoolQueueFacts.
Import AsyncTaskPool AsyncTaskPoolFacts.
Section WithT.
Context {T : Type}.
Implicit Types (p : pool T) (w : world T) (e : event T).

Lemma busy_or_due limit w :
  reachable limit w →
  taskQueue (this w) ≠ [] →
  (concurrency (this w) ≤ runningCount (this w))%Z
  ∨ ∃ c task, chains w !! c = Some (task, Settled).
Proof.
  induction 1 as [|e w Hr IH]; [done|].
  destruct e as [task| |c o|c]; cbn [step].
  - unfold add. destruct (finished (this w)); [done|].
    destruct (runNext _) as [p started] eqn:E. cbn [this chains].
    apply runNext_spec in E as (Hc & _ & _ & _ & _ & _ & _ & H).
    intros Hq. left. rewrite Hc. by apply H.
  - unfold awaitAll. by destruct (finished (this w)).
  - destruct (chains w !! c) as [[task [| |]]|] eqn:E; try done.
    intros _. right. exists c, task.
    destruct o; cbn [chains]; apply list_lookup_insert_eq;
      by eapply lookup_lt_Some.
  - destruct (chains w !! c) as [[task [| |]]|] eqn:E; try done.
    unfold onFinally.
    destruct (runNext _) as [p2 started] eqn:E2.
    destruct (checkIfDone p2) as [p3 fired] eqn:E3. cbn [this chains].
    apply runNext_spec in E2 as (Hc & _ & _ & _ & _ & _ & _ & H).
    apply checkIfDone_spec in E3 as (Hc3 & _ & Hq3 & Hr3 & _).
    intros Hq. left. rewrite Hc3, Hr3, Hc. apply H. by rewrite <- Hq3.
Qed.

Lemma starved limit (evs : list (event T)) :
  (limit ≤ 0)%Z →
  ∃ queue n,
    run evs (init limit)
    = World (Pool limit 0 queue [] false (seq 0 n)) [] n [] queue queue [].
Proof.
  intros Hl. induction evs as [|e evs (queue & n & IH)] using rev_ind.
  - by exists [], 0.
  - rewrite run_app, IH. cbn [run fold_left].
    destruct e as [task| |c o|c].
    + exists (queue ++ [task]), n. unfold step, add. cbn [this finished].
      unfold runNext.
      cbn [concurrency runningCount taskQueue results finished pendingResolvers].
      assert (runNext_loop limit 0 (queue ++ [task])
              = (0%Z, queue ++ [task], [])) as ->.
      { destruct (queue ++ [task]) eqn:E; [done|]. simpl.
        by destruct (Z.ltb_spec 0 limit); [lia|]. }
      simpl. done.
    + exists queue, (S n). rewrite seq_S. done.
    + exists queue, n. done.
    + exists queue, n. done.
Qed.

Lemma conservation limit w :
  inv limit w →
  length (accepted w)
  = length (results (this w)) + length (taskQueue (this w))
    + length (pendingTasks (chains w)).
Proof.
  intros I. rewrite (inv_accounting _ _ I), (inv_results _ _ I).
  rewrite !length_app, !length_fmap. lia.
Qed.

End WithT.
End AsyncTaskPoolQueueFacts.

Module AsyncTaskPoolLoopQueueFacts.
Import AsyncTaskPoolLoop AsyncTaskPoolLoopFacts.
Section WithT.
Context {T : Type}.
Implicit Types (p : pool T) (w : world T) (e : event T).

Lemma checkAllCompleted_fields p :
  maxConcurrency (checkAllCompleted p) = maxConcurrency p
  ∧ waitingTasks (checkAllCompleted p) = waitingTasks p
  ∧ runningTasks (checkAllCompleted p) = runningTasks p.
Proof. unfold checkAllCompleted. by destruct (_ && _). Qed.

Lemma loop_busy limit w :
  reachable limit w →
  waitingTasks (this w) ≠ [] →
  runningTasks (this w) = maxConcurrency (this w).
Proof.
  induction 1 as [p Hnew|e w Hr IH].
  - unfold new in Hnew. destruct (_ <? _)%Z; [done|]. by injection Hnew as <-.
  - pose proof (loop_reachable_inv _ _ Hr) as [[Il Hl] Ic Ib Id Ip In It].
    destruct e as [task|c o]; cbn [step].
    + unfold addTask. destruct (allCompleted (this w)); [done|].
      destruct (runTasks _) as [p started] eqn:E. cbn [this].
      apply loop_runTasks_spec in E as (Hm & _ & _ & _ & Hcase).
      cbn [maxConcurrency waitingTasks runningTasks] in *.
      destruct Hcase as [(t & -> & Hw & Hrun & Hlt)|(-> & -> & Hcase)].
      * intros Hq. destruct (waitingTasks (this w)) eqn:Ew.
        -- simpl in Hw. injection Hw as _ Hw. by rewrite <- Hw in Hq.
        -- rewrite IH in Hlt by done. lia.
      * intros _. cbn [maxConcurrency waitingTasks runningTasks].
        destruct Hcase as [Hcase|Hcase]; [by destruct (waitingTasks (this w))|].
        lia.
    + destruct (calls w !! c) as [[task [|]]|] eqn:E; try done.
      unfold resume.
      destruct o as [result|err];
        cbn [maxConcurrency waitingTasks runningTasks results allCompleted
             completionPromise];
        match goal with
        | |- context [runTasks (checkAllCompleted ?q)] =>
            destruct (checkAllCompleted_fields q) as (Hc1 & Hc2 & Hc3);
            destruct (runTasks (checkAllCompleted q)) as [p started] eqn:E2
        end;
        cbn [this];
        apply loop_runTasks_spec in E2 as (Hm & _ & _ & _ & Hcase);
        rewrite Hc1 in Hm; rewrite Hc1, Hc2, Hc3 in Hcase;
        cbn [maxConcurrency waitingTasks runningTasks] in Hm, Hcase;
        (destruct Hcase as [(t & -> & Hw & Hrun & Hlt)|(-> & -> & Hcase)];
         [ intros Hne; rewrite Hm, Hrun;
           assert (waitingTasks (this w) ≠ []) as Hold;
           [ intros Hold; rewrite Hold in Hw; simpl in Hw;
             first [ done | injection Hw as _ Hw; by rewrite <- Hw in Hne ]
           | rewrite <- (IH Hold); lia ]
         | rewrite Hc1, Hc2, Hc3;
           cbn [maxConcurrency waitingTasks runningTasks]; intros Hne;
           destruct Hcase as [Hcase|Hcase];
           [ by destruct (waitingTasks (this w)) | lia ] ]).
Qed.

End WithT.
End AsyncTaskPoolLoopQueueFacts.

(** ** runConcurrently: the workers *)

Module RunConcurrentlyWorkersFacts.
Import RunConcurrently RunConcurrentlyFacts.
Section WithT.
Context {T : Type}.
Implicit Types (st : state T) (ws : list worker).

Lemma workers_length_step (tasks : list (outcome T)) k st :
  length (workers (step tasks k st)) = length (workers st).
Proof.
  unfold step. destruct (pick k _) as [pos|]; [|done].
  unfold advance. destruct (workers st !! pos) as [[i| |]|]; try done.
  - cbn [workers]. by rewrite length_insert.
  - destruct (next tasks st) as [st' w] eqn:E.
    apply next_spec in E as (_ & Hw & _).
    cbn [workers]. by rewrite length_insert, Hw.
Qed.

Lemma workers_length_run (tasks : list (outcome T)) schedule st :
  length (workers (run tasks schedule st)) = length (workers st).
Proof.
  revert st. induction schedule as [|k s IH]; intros st; [done|].
  simpl. by rewrite IH, workers_length_step.
Qed.

Lemma workers_length_start (tasks : list (outcome T)) maxConcurrent :
  length (workers (start tasks maxConcurrent))
  = Z.to_nat (Z.min maxConcurrent (Z.of_nat (length tasks))).
Proof.
  unfold start. rewrite launch_spec by (simpl; lia).
  cbn [workers app]. by rewrite length_fmap, length_seq.
Qed.

End WithT.
End RunConcurrentlyWorkersFacts.

(** ** runTasks: what the state holds *)

Module TaskStatsFacts.
Import TaskExecutor TaskExecutorFacts TaskStats.

Section JsMap.
Context {K V : Type} `{EqDecision K}.
Implicit Types (m : list (K * V)).

Lemma Map_get_None_inv k m : Map_get k m = None → k ∉ m.*1.
Proof.
  induction m as [|[k' v'] m IH]; csimpl; [intros _; apply not_elem_of_nil|].
  destruct (decide (k = k')); [done|]. intros H.
  apply not_elem_of_cons. split; [done|]. by apply IH.
Qed.

Lemma Map_set_fresh k v m : k ∉ m.*1 → Map_set k v m = m ++ [(k, v)].
Proof.
  induction m as [|[k' v'] m IH]; csimpl; [done|].
  intros [Hne Hin]%not_elem_of_cons.
  destruct (decide (k = k')); [done|]. by rewrite IH.
Qed.

Lemma Map_new_fold (l m : list (K * V)) :
  NoDup (m ++ l).*1 →
  fold_left (λ m kv, Map_set kv.1 kv.2 m) l m = m ++ l.
Proof.
  revert m. induction l as [|[k v] l IH]; intros m Hnd.
  - by rewrite app_nil_r.
  - cbn [fold_left fst snd]. rewrite Map_set_fresh.
    + rewrite IH; rewrite <- app_assoc; done.
    + rewrite fmap_app in Hnd. apply NoDup_app in Hnd as (_ & Hnd & _).
      intros Hin. apply (Hnd _ Hin). csimpl. left.
Qed.

(** Copying a map whose keys are pairwise distinct gives the same map. *)
Lemma Map_new_id m : NoDup m.*1 → Map_new m = m.
Proof. intros H. unfold Map_new. by rewrite Map_new_fold. Qed.

End JsMap.

Section WithT.
Context {T : Type}.
Implicit Types (st : TaskExecutorState T) (calls : list (Task * nat)).
Implicit Types (beh : nat → outcome T).

Lemma settleAll_total calls beh order pending st :
  length pending ≤ length order →
  (settleAll calls beh order pending st).2 = [].
Proof.
  revert pending st. induction order as [|k order IH]; intros pending st Hl.
  - destruct pending; [done|simpl in Hl; lia].
  - cbn [settleAll]. destruct (pick k pending) as [pos|] eqn:Hp.
    + apply IH. unfold pick in Hp. rewrite length_delete by by exists pos.
      simpl in Hl. lia.
    + unfold pick in Hp. destruct pending as [|x pending]; [done|].
      apply lookup_ge_None in Hp.
      pose proof (Nat.mod_upper_bound k (length (x :: pending))) as Hb.
      simpl in *. lia.
Qed.

Lemma runTasks_total (tasks : list Task) beh order :
  length tasks ≤ length order →
  ∃ res st, runTasks tasks beh order = Some (res, st).
Proof.
  intros Hl. unfold runTasks, executeTasks.
  destruct (settleAll _ _ _ _ _) as [st pending] eqn:E.
  assert (pending = []) as ->.
  { change pending with (st, pending).2. rewrite <- E.
    apply settleAll_total. by rewrite length_seq. }
  eauto.
Qed.

Lemma executeTasks_total (tasks : list Task) beh order st
    (taskIndices : list (Task * nat)) :
  length tasks ≤ length order →
  ∃ res st', executeTasks tasks beh order st taskIndices = Some (res, st').
Proof.
  intros Hl. unfold executeTasks.
  destruct (settleAll _ _ _ _ _) as [st' pending] eqn:E.
  assert (pending = []) as ->.
  { change pending with (st', pending).2. rewrite <- E.
    apply settleAll_total. by rewrite length_seq. }
  eauto.
Qed.

(** [retryFailedTasks] returns once the retried tasks have settled. *)
Lemma retryFailedTasks_total st beh order :
  length (failedTasks st) ≤ length order →
  ∃ res st', retryFailedTasks st beh order = Some (res, st').
Proof.
  intros Hl. unfold retryFailedTasks. apply executeTasks_total.
  by rewrite length_fmap.
Qed.

Lemma runTasks_keys (tasks : list Task) beh order res st :
  runTasks tasks beh order = Some (res, st) →
  (successResults st).*1
  ≡ₚ filter (λ pos, isFulfilled (beh pos) = true) (seq 0 (length tasks))
  ∧ (failedTasks st).*1
    ≡ₚ filter (λ pos, isFulfilled (beh pos) = false) (seq 0 (length tasks)).
Proof.
  intros H. apply runTasks_spec in H as (Hpos & Hout & [Hks Hkf]).
  split.
  - apply NoDup_Permutation; [done|apply NoDup_filter, NoDup_seq|].
    intros k. rewrite list_elem_of_filter, elem_of_seq. split.
    + intros Hin. destruct (decide (k < length tasks)) as [Hlt|Hge].
      * destruct (lookup_lt_is_Some_2 tasks k Hlt) as [task Ht].
        destruct (Hpos _ _ Ht) as [_ Hb].
        destruct (beh k); [split; [done|lia]|].
        destruct Hb as [_ Hb]. by apply Map_get_None_inv in Hb.
      * destruct (Hout k ltac:(lia)) as [Hb _].
        by apply Map_get_None_inv in Hb.
    + intros [Hf [_ Hlt]]. simpl in Hlt.
      destruct (lookup_lt_is_Some_2 tasks k Hlt) as [task Ht].
      destruct (Hpos _ _ Ht) as [_ Hb].
      destruct (beh k); [|done]. destruct Hb as [Hb _].
      apply Map_get_Some in Hb. apply list_elem_of_fmap. by exists (k, value).
  - apply NoDup_Permutation; [done|apply NoDup_filter, NoDup_seq|].
    intros k. rewrite list_elem_of_filter, elem_of_seq. split.
    + intros Hin. destruct (decide (k < length tasks)) as [Hlt|Hge].
      * destruct (lookup_lt_is_Some_2 tasks k Hlt) as [task Ht].
        destruct (Hpos _ _ Ht) as [_ Hb].
        destruct (beh k); [|split; [done|lia]].
        destruct Hb as [_ Hb]. by apply Map_get_None_inv in Hb.
      * destruct (Hout k ltac:(lia)) as [_ Hb].
        by apply Map_get_None_inv in Hb.
    + intros [Hf [_ Hlt]]. simpl in Hlt.
      destruct (lookup_lt_is_Some_2 tasks k Hlt) as [task Ht].
      destruct (Hpos _ _ Ht) as [_ Hb].
      destruct (beh k); [done|]. destruct Hb as [Hb _].
      apply Map_get_Some in Hb. apply list_elem_of_fmap. by exists (k, task).
Qed.

End WithT.
End TaskStatsFacts.

(** ** The pools *)

(** X6: No slot stays free while a task waits.  In [AsyncTaskPool] (with
    [add]) a task is in the queue only while every slot is taken or while
    a [finally] callback, which calls [runNext], is still due; in
    [RequestPool] and in [AsyncTaskPool] (with [addTask]) only while every
    slot is taken. *)
Theorem pools_never_idle_while_queued (T : Type) (limit : Z) :
  (∀ evs : list (AsyncTaskPool.event T),
     let w := AsyncTaskPool.run evs (AsyncTaskPool.init limit) in
     AsyncTaskPool.taskQueue (AsyncTaskPool.this w) ≠ [] →
     (limit ≤ AsyncTaskPool.runningCount (AsyncTaskPool.this w))%Z
     ∨ ∃ c task,
         AsyncTaskPool.chains w !! c = Some (task, AsyncTaskPool.Settled))
  ∧ (∀ evs : list (RequestPool.event T),
       let w := RequestPool.run evs (RequestPool.init limit) in
       RequestPool.requestQueue (RequestPool.this w) ≠ [] →
       (limit ≤ RequestPool.activeCount (RequestPool.this w))%Z)
  ∧ (∀ p (evs : list (AsyncTaskPoolLoop.event T)),
       AsyncTaskPoolLoop.new limit = Normal p →
       let w := AsyncTaskPoolLoop.run evs (AsyncTaskPoolLoop.World p []) in
       AsyncTaskPoolLoop.waitingTasks (AsyncTaskPoolLoop.this w) ≠ [] →
       AsyncTaskPoolLoop.runningTasks (AsyncTaskPoolLoop.this w) = limit).
Proof.
  split; [|split].
  - intros evs w Hq.
    pose proof (AsyncTaskPoolFacts.reachable_events limit evs) as Hr.
    rewrite <- (AsyncTaskPool.inv_limit _ _
                  (AsyncTaskPoolFacts.reachable_inv _ _ Hr)).
    by apply (AsyncTaskPoolQueueFacts.busy_or_due limit).
  - intros evs w Hq.
    pose proof (RequestPoolFacts.request_reachable_events limit evs) as Hr.
    destruct (RequestPoolOrderFacts.fifo_reachable _ _ Hr) as [k F].
    rewrite <- (RequestPool.inv_limit _ _
                  (RequestPoolFacts.request_reachable_inv _ _ Hr)).
    by apply (RequestPoolOrder.fifo_busy _ _ F).
  - intros p evs Hnew w Hq.
    pose proof (AsyncTaskPoolLoopFacts.loop_reachable_events limit p evs Hnew)
      as Hr.
    destruct (AsyncTaskPoolLoop.inv_limit _ _
                (AsyncTaskPoolLoopFacts.loop_reachable_inv _ _ Hr)) as [Hlim _].
    rewrite <- Hlim. by apply (AsyncTaskPoolLoopQueueFacts.loop_busy limit).
Qed.

(** X7: [RequestPool] calls the requests in the order of [add]: at any time
    the requests called so far are the first [started] ones added, and
    the others wait in [requestQueue] in the order of their ids. *)
Theorem request_started_in_add_order (T : Type) (limit : Z)
    (evs : list (RequestPool.event T)) :
  let w := RequestPool.run evs (RequestPool.init limit) in
  ∃ started,
    started ≤ length (RequestPool.tasks w)
    ∧ RequestPool.requestQueue (RequestPool.this w)
      = seq (S started) (length (RequestPool.tasks w) - started)
    ∧ ∀ taskId s,
        RequestPool.statusOf taskId (RequestPool.tasks w) = Some s →
        (s = RequestPool.Queued ↔ started < taskId).
Proof.
  intros w.
  destruct (RequestPoolOrderFacts.fifo_reachable _ _
              (RequestPoolFacts.request_reachable_events limit evs))
    as [k [F1 F2 F3 _]].
  by exists k.
Qed.

(** X8: Once the promise that [add] returned is settled, nothing that happens
    to the pool later touches it: the closure of a request runs once, and
    the request is never called again. *)
Theorem request_settles_once (T : Type) (limit : Z)
    (evs evs' : list (RequestPool.event T)) (taskId : nat)
    (s : RequestPool.status T) :
  let w := RequestPool.run evs (RequestPool.init limit) in
  RequestPool.statusOf taskId (RequestPool.tasks w) = Some s →
  RequestPoolOrder.isSettled s = true →
  RequestPool.statusOf taskId (RequestPool.tasks (RequestPool.run evs' w))
  = Some s.
Proof.
  intros w Hs Hset.
  apply (RequestPoolOrderFacts.settled_run limit); [|done..].
  apply RequestPoolFacts.request_reachable_events.
Qed.

Lemma request_settles_once_witness :
  RequestPool.statusOf 1
    (RequestPool.tasks
       (RequestPool.run FurtherExamples.next_request
          (RequestPool.run Examples.one_rejection (RequestPool.init 2))))
  = Some (RequestPool.RejectedWith Examples.boom).
Proof.
  apply (request_settles_once nat 2 Examples.one_rejection
           FurtherExamples.next_request 1
           (RequestPool.RejectedWith Examples.boom)).
  - vm_compute. reflexivity.
  - reflexivity.
Defined.

(** X9: A limit of 0 or less starves the pool.  [AsyncTaskPool] (with [add])
    and [RequestPool] accept such a limit and then never call anything:
    every submission stays in the queue, and no promise of [awaitAll] or
    [add] is ever settled.  [AsyncTaskPool] (with [addTask]) refuses the
    limit in its constructor. *)
Theorem non_positive_limit_starves (T : Type) (limit : Z) :
  (limit ≤ 0)%Z →
  (∀ evs : list (AsyncTaskPool.event T),
     let w := AsyncTaskPool.run evs (AsyncTaskPool.init limit) in
     AsyncTaskPool.chains w = []
     ∧ AsyncTaskPool.taskQueue (AsyncTaskPool.this w) = AsyncTaskPool.accepted w
     ∧ AsyncTaskPool.finished (AsyncTaskPool.this w) = false
     ∧ AsyncTaskPool.resolved w = [])
  ∧ (∀ evs : list (RequestPool.event T),
       let w := RequestPool.run evs (RequestPool.init limit) in
       RequestPool.activeCount (RequestPool.this w) = 0%Z
       ∧ RequestPool.requestQueue (RequestPool.this w)
         = seq 1 (length (RequestPool.tasks w))
       ∧ Forall (λ s, s = RequestPool.Queued) (RequestPool.tasks w))
  ∧ AsyncTaskPoolLoop.new (T:=T) limit
    = Throw AsyncTaskPoolLoop.invalidError.
Proof.
  intros Hl. split; [|split].
  - intros evs w.
    destruct (AsyncTaskPoolQueueFacts.starved limit evs Hl) as (queue & n & E).
    subst w. by rewrite E.
  - intros evs w.
    destruct (RequestPoolOrderFacts.starved_run limit evs Hl) as (n & E).
    subst w. rewrite E. cbn. rewrite length_replicate.
    split; [done|]. split; [done|]. apply Forall_replicate. done.
  - unfold AsyncTaskPoolLoop.new. by destruct (Z.ltb_spec limit 1); [|lia].
Qed.

Lemma non_positive_limit_starves_witness :
  AsyncTaskPool.chains
    (AsyncTaskPool.run Examples.one_running (AsyncTaskPool.init 0)) = []
  ∧ RequestPool.activeCount
      (RequestPool.this
         (RequestPool.run Examples.two_requests (RequestPool.init 0))) = 0%Z
  ∧ AsyncTaskPoolLoop.new (T:=nat) 0 = Throw AsyncTaskPoolLoop.invalidError.
Proof.
  destruct (non_positive_limit_starves nat 0 ltac:(lia)) as (H1 & H2 & H3).
  split; [|split].
  - apply (H1 Examples.one_running).
  - apply (H2 Examples.two_requests).
  - exact H3.
Defined.

(** X10: [AsyncTaskPool] (with [add]) neither loses nor duplicates a task: at
    any time the tasks accepted so far are as many as the results stored
    plus the tasks in the queue plus the tasks whose promise is pending. *)
Theorem pool_accounts_for_every_task (T : Type) (limit : Z)
    (evs : list (AsyncTaskPool.event T)) :
  let w := AsyncTaskPool.run evs (AsyncTaskPool.init limit) in
  length (AsyncTaskPool.accepted w)
  = length (AsyncTaskPool.results (AsyncTaskPool.this w))
    + length (AsyncTaskPool.taskQueue (AsyncTaskPool.this w))
    + length (AsyncTaskPool.pendingTasks (AsyncTaskPool.chains w)).
Proof.
  intros w. apply (AsyncTaskPoolQueueFacts.conservation limit).
  apply AsyncTaskPoolFacts.reachable_inv, AsyncTaskPoolFacts.reachable_events.
Qed.

(** ** retryWrapper *)

(** X15: [retryWrapper] always settles, after 1 to 3 calls of [fn]: every call
    but the last was rejected and followed by a wait of [delay]; the
    promise is resolved with the value of the last call, or, when the
    third call was rejected too, rejected with its error.  It is never
    resolved with [undefined]: the end of the [while] loop is not reached. *)
Theorem retryWrapper_settles_with_last_attempt (T : Type)
    (fn : nat → outcome T) :
  ∃ r, RetryWrapper.retryWrapper fn = Some r
    ∧ 1 ≤ RetryWrapper.calls r ≤ 3
    ∧ RetryWrapper.waited r
      = replicate (RetryWrapper.calls r - 1) RetryWrapper.delay
    ∧ (∀ j, j < RetryWrapper.calls r - 1 → ∃ e, fn j = Rejected e)
    ∧ match RetryWrapper.settles r with
      | RetryWrapper.ResolvedWith v =>
          fn (RetryWrapper.calls r - 1) = Fulfilled v
      | RetryWrapper.RejectedBy e =>
          RetryWrapper.calls r = 3 ∧ fn 2 = Rejected e
      | RetryWrapper.ResolvedUndefined => False
      end.
Proof.
  unfold RetryWrapper.retryWrapper. cbn.
  destruct (fn 0) as [v0|e0] eqn:F0.
  { eexists. split; [done|]. cbn. repeat split; try lia; try done.
    all: intros j Hj; lia. }
  destruct (fn 1) as [v1|e1] eqn:F1.
  { eexists. split; [done|]. cbn. repeat split; try lia; try done.
    all: intros [|j] Hj; [eauto|lia]. }
  destruct (fn 2) as [v2|e2] eqn:F2.
  { eexists. split; [done|]. cbn. repeat split; try lia; try done.
    all: intros [|[|j]] Hj; [eauto|eauto|lia]. }
  eexists. split; [done|]. cbn. repeat split; try lia; try done.
  all: intros [|[|j]] Hj; [eauto|eauto|lia].
Qed.

(** ** runConcurrently *)

(** X16: [runConcurrently] keeps [min(maxConcurrent, tasks.length)] workers
    from start to end, so at most that many tasks are in flight at any
    time; the tasks are called in array order, each index once, and no
    worker ever waits for an index outside the array. *)
Theorem runConcurrently_in_flight_bound (T : Type) (tasks : list (outcome T))
    (maxConcurrent : Z) (schedule : list nat) :
  (1 ≤ maxConcurrent)%Z →
  let st := RunConcurrently.run tasks schedule
              (RunConcurrently.start tasks maxConcurrent) in
  length (RunConcurrently.workers st)
  = Z.to_nat (Z.min maxConcurrent (Z.of_nat (length tasks)))
  ∧ (count RunConcurrently.isAwaiting (RunConcurrently.workers st)
     ≤ Z.min maxConcurrent (Z.of_nat (length tasks)))%Z
  ∧ RunConcurrently.called st
    = seq 0 (RunConcurrently.taskIndex st `min` length tasks)
  ∧ ∀ pos i,
      RunConcurrently.workers st !! pos = Some (RunConcurrently.Awaiting i) →
      i < length tasks.
Proof.
  intros Hmax st.
  assert (length (RunConcurrently.workers st)
          = Z.to_nat (Z.min maxConcurrent (Z.of_nat (length tasks)))) as Hlen.
  { unfold st. by rewrite RunConcurrentlyWorkersFacts.workers_length_run,
      RunConcurrentlyWorkersFacts.workers_length_start. }
  destruct (RunConcurrentlyFacts.start_inv tasks maxConcurrent Hmax) as [I0 _].
  destruct (RunConcurrentlyFacts.run_inv tasks schedule _ I0) as [I _].
  fold st in I. destruct I as [Ic _ _ Ia _].
  split; [done|]. split; [|split; [done|exact Ia]].
  pose proof (count_le_length RunConcurrently.isAwaiting
                (RunConcurrently.workers st)).
  lia.
Qed.

Lemma runConcurrently_in_flight_bound_witness :
  let st := RunConcurrently.run Examples.mixed Examples.zigzag
              (RunConcurrently.start Examples.mixed 2) in
  length (RunConcurrently.workers st)
  = Z.to_nat (Z.min 2 (Z.of_nat (length Examples.mixed)))
  ∧ (count RunConcurrently.isAwaiting (RunConcurrently.workers st)
     ≤ Z.min 2 (Z.of_nat (length Examples.mixed)))%Z
  ∧ RunConcurrently.called st
    = seq 0 (RunConcurrently.taskIndex st `min` length Examples.mixed)
  ∧ ∀ pos i,
      RunConcurrently.workers st !! pos = Some (RunConcurrently.Awaiting i) →
      i < length Examples.mixed.
Proof.
  apply (runConcurrently_in_flight_bound nat Examples.mixed 2 Examples.zigzag).
  lia.
Defined.

(** ** runTasks / retryFailedTasks / getTaskStats *)

(** X17: Once every task has settled, [runTasks] returns; each index is then
    filed in exactly one of the two maps: [totalSuccess] counts the tasks
    that fulfilled, [totalSuccess + totalFailed] is the number of tasks,
    [isAllSuccess] holds exactly when no task was rejected, and the maps
    that [getTaskStats] copies are equal to those of the state. *)
Theorem runTasks_partitions_tasks (T : Type) (tasks : list Task)
    (behaviour : nat → outcome T) (order : list nat) :
  length tasks ≤ length order →
  ∃ res st,
    TaskExecutor.runTasks tasks behaviour order = Some (res, st)
    ∧ let stats := TaskStats.getTaskStats st in
      TaskStats.totalSuccess stats
      = length (filter (λ pos, TaskStats.isFulfilled (behaviour pos) = true)
                  (seq 0 (length tasks)))
      ∧ TaskStats.totalSuccess stats + TaskStats.totalFailed stats
        = length tasks
      ∧ (TaskStats.isAllSuccess st = true ↔
         ∀ pos, pos < length tasks →
                TaskStats.isFulfilled (behaviour pos) = true)
      ∧ TaskStats.statsSuccessResults stats = TaskExecutor.successResults st
      ∧ TaskStats.statsFailedTasks stats = TaskExecutor.failedTasks st.
Proof.
  intros Hl.
  destruct (TaskStatsFacts.runTasks_total tasks behaviour order Hl)
    as (res & st & E).
  exists res, st. split; [done|].
  destruct (TaskStatsFacts.runTasks_keys _ _ _ _ _ E) as [Hs Hf].
  apply TaskExecutorFacts.runTasks_spec in E as (_ & _ & [Hks Hkf]).
  apply Permutation_length in Hs. apply Permutation_length in Hf.
  rewrite length_fmap in Hs. rewrite length_fmap in Hf.
  pose proof (filter_split
                (λ pos, TaskStats.isFulfilled (behaviour pos))
                (seq 0 (length tasks))) as Hsplit.
  rewrite length_seq in Hsplit.
  cbn zeta. unfold TaskStats.getTaskStats, TaskStats.isAllSuccess.
  cbn [TaskStats.totalSuccess TaskStats.totalFailed
       TaskStats.statsSuccessResults TaskStats.statsFailedTasks].
  split; [done|]. split; [lia|]. split; [|split].
  - rewrite Nat.eqb_eq, Hf. split.
    + intros H0 pos Hpos.
      destruct (TaskStats.isFulfilled (behaviour pos)) eqn:Hb; [done|].
      assert (pos ∈ filter
                (λ pos, TaskStats.isFulfilled (behaviour pos) = false)
                (seq 0 (length tasks))) as Hin.
      { apply list_elem_of_filter. split; [done|]. apply elem_of_seq. lia. }
      apply length_zero_iff_nil in H0. rewrite H0 in Hin.
      by apply elem_of_nil in Hin.
    + intros Hall. apply length_zero_iff_nil.
      apply filter_none.
      apply Forall_forall. intros pos Hin%elem_of_seq.
      rewrite Hall by lia. done.
  - by apply TaskStatsFacts.Map_new_id.
  - by apply TaskStatsFacts.Map_new_id.
Qed.

Lemma runTasks_partitions_tasks_witness :
  ∃ res st,
    TaskExecutor.runTasks FurtherExamples.two_tasks FurtherExamples.second_fails
      FurtherExamples.swapped = Some (res, st)
    ∧ let stats := TaskStats.getTaskStats st in
      TaskStats.totalSuccess stats
      = length (filter (λ pos, TaskStats.isFulfilled
                                 (FurtherExamples.second_fails pos) = true)
                  (seq 0 (length FurtherExamples.two_tasks)))
      ∧ TaskStats.totalSuccess stats + TaskStats.totalFailed stats
        = length FurtherExamples.two_tasks
      ∧ (TaskStats.isAllSuccess st = true ↔
         ∀ pos, pos < length FurtherExamples.two_tasks →
                TaskStats.isFulfilled (FurtherExamples.second_fails pos) = true)
      ∧ TaskStats.statsSuccessResults stats = TaskExecutor.successResults st
      ∧ TaskStats.statsFailedTasks stats = TaskExecutor.failedTasks st.
Proof.
  apply (runTasks_partitions_tasks nat FurtherExamples.two_tasks
           FurtherExamples.second_fails FurtherExamples.swapped).
  simpl. lia.
Defined.

(** X19: [retryFailedTasks] on a state without failed tasks calls nothing,
    returns no result and leaves the state as it is, whatever the state
    holds. *)
Theorem retry_without_failures_is_noop (T : Type)
    (state : TaskExecutor.TaskExecutorState T) (behaviour : nat → outcome T)
    (order : list nat) :
  TaskStats.isAllSuccess state = true →
  TaskExecutor.retryFailedTasks state behaviour order = Some ([], state).
Proof.
  unfold TaskStats.isAllSuccess. intros H%Nat.eqb_eq%length_zero_iff_nil.
  destruct state as [succ failed]. cbn in H. subst failed.
  unfold TaskExecutor.retryFailedTasks, TaskExecutor.executeTasks. cbn.
  by destruct order.
Qed.

Lemma retry_without_failures_is_noop_witness :
  TaskExecutor.retryFailedTasks (TaskExecutor.mkState [(0, 20)] [])
    FurtherExamples.retry_fulfils FurtherExamples.swapped
  = Some ([], TaskExecutor.mkState [(0, 20)] []).
Proof.
  apply (retry_without_failures_is_noop nat
           (TaskExecutor.mkState [(0, 20)] []) FurtherExamples.retry_fulfils
           FurtherExamples.swapped).
  reflexivity.
Defined.

(** X18: with pairwise distinct closures, [runTasks] and then
    [retryFailedTasks] both return once their tasks have settled, and
    every task is filed under the index it had in the array given to
    [runTasks]: a task that fulfilled at once keeps its result; a task
    that failed is retried, the record of its retry carries the original
    index, and it ends in [successResults] if the retry fulfilled and in
    [failedTasks] if it failed again, in both cases under that index. *)
Theorem retry_files_under_original_index (T : Type) (tasks : list Task)
    (behaviour1 behaviour2 : nat → outcome T) (order1 order2 : list nat) :
  NoDup tasks →
  length tasks ≤ length order1 →
  length tasks ≤ length order2 →
  ∃ res1 st1 res2 st2,
    TaskExecutor.runTasks tasks behaviour1 order1 = Some (res1, st1)
    ∧ TaskExecutor.retryFailedTasks st1 behaviour2 order2 = Some (res2, st2)
    ∧ ∀ i task, tasks !! i = Some task →
        match behaviour1 i with
        | Fulfilled v =>
            TaskExecutor.Map_get i (TaskExecutor.successResults st2) = Some v
            ∧ TaskExecutor.Map_get i (TaskExecutor.failedTasks st2) = None
        | Rejected _ =>
            ∃ q r,
              TaskExecutor.failedTasks st1 !! q = Some (i, task)
              ∧ res2 !! q = Some r
              ∧ TaskExecutor.index r = i
              ∧ match behaviour2 q with
                | Fulfilled v' =>
                    TaskExecutor.success r = true
                    ∧ TaskExecutor.result r = Some v'
                    ∧ TaskExecutor.Map_get i (TaskExecutor.successResults st2)
                      = Some v'
                    ∧ TaskExecutor.Map_get i (TaskExecutor.failedTasks st2)
                      = None
                | Rejected _ =>
                    TaskExecutor.success r = false
                    ∧ TaskExecutor.result r = None
                    ∧ TaskExecutor.Map_get i (TaskExecutor.failedTasks st2)
                      = Some task
                    ∧ TaskExecutor.Map_get i (TaskExecutor.successResults st2)
                      = None
                end
        end.
Proof.
  intros Hnd Hl1 Hl2.
  destruct (TaskStatsFacts.runTasks_total tasks behaviour1 order1 Hl1)
    as (res1 & st1 & E1).
  destruct (TaskStatsFacts.runTasks_keys _ _ _ _ _ E1) as [_ Hf].
  apply Permutation_length in Hf. rewrite length_fmap in Hf.
  pose proof (length_filter
                (λ pos, TaskStats.isFulfilled (behaviour1 pos) = false)
                (seq 0 (length tasks))) as Hle.
  rewrite length_seq in Hle.
  destruct (TaskStatsFacts.retryFailedTasks_total st1 behaviour2 order2)
    as (res2 & st2 & E2); [lia|].
  exists res1, st1, res2, st2. split; [done|]. split; [done|].
  intros i task Hi.
  pose proof (TaskExecutorFacts.retry_keeps_original_index tasks behaviour1
                order1 res1 st1 behaviour2 order2 res2 st2 Hnd E1 E2 i task Hi)
    as H.
  destruct (behaviour1 i); [done|].
  destruct H as (q & Hq & Hr & H).
  exists q, (TaskExecutor.returned i (behaviour2 q)).
  split; [done|]. split; [exact Hr|].
  destruct (behaviour2 q); cbn; destruct H; done.
Qed.

Lemma retry_files_under_original_index_witness :
  ∃ res1 st1 res2 st2,
    TaskExecutor.runTasks FurtherExamples.two_tasks
      FurtherExamples.second_fails FurtherExamples.swapped = Some (res1, st1)
    ∧ TaskExecutor.retryFailedTasks st1 FurtherExamples.retry_fulfils
        FurtherExamples.swapped = Some (res2, st2)
    ∧ ∀ i task, FurtherExamples.two_tasks !! i = Some task →
        match FurtherExamples.second_fails i with
        | Fulfilled v =>
            TaskExecutor.Map_get i (TaskExecutor.successResults st2) = Some v
            ∧ TaskExecutor.Map_get i (TaskExecutor.failedTasks st2) = None
        | Rejected _ =>
            ∃ q r,
              TaskExecutor.failedTasks st1 !! q = Some (i, task)
              ∧ res2 !! q = Some r
              ∧ TaskExecutor.index r = i
              ∧ match FurtherExamples.retry_fulfils q with
                | Fulfilled v' =>
                    TaskExecutor.success r = true
                    ∧ TaskExecutor.result r = Some v'
                    ∧ TaskExecutor.Map_get i (TaskExecutor.successResults st2)
                      = Some v'
                    ∧ TaskExecutor.Map_get i (TaskExecutor.failedTasks st2)
                      = None
                | Rejected _ =>
                    TaskExecutor.success r = false
                    ∧ TaskExecutor.result r = None
                    ∧ TaskExecutor.Map_get i (TaskExecutor.failedTasks st2)
                      = Some task
                    ∧ TaskExecutor.Map_get i (TaskExecutor.successResults st2)
                      = None
                end
        end.
Proof.
  apply (retry_files_under_original_index nat FurtherExamples.two_tasks
           FurtherExamples.second_fails FurtherExamples.retry_fulfils
           FurtherExamples.swapped FurtherExamples.swapped).
  - apply (bool_decide_unpack _). vm_compute. reflexivity.
  - simpl. lia.
  - simpl. lia.
Defined.
